(** * Trace routing: from map-match output to routes and legs

    A shallow embedding of [src/thor/trace_route_action.cc] (Valhalla's
    [thor_worker_t::trace_route] and the functions it drives) together with
    the properties of the assembly logic: edge indices, discontinuity
    bookkeeping, route splitting, error translation and frame conditions.

    Conventions of the embedding:
    - [std::vector], [std::deque] and protobuf repeated fields are lists;
      indexing outside the range is undefined behaviour in the source and
      is [None] (locally) or [Undefined] (in the [thor] monad) here;
    - [size_t] values live in [N] with the wrap-around at [2^64] written
      out, [int] values live in [Z] and a signed overflow is undefined;
    - [float] is IEEE binary32, taken from [SpecFloat];
    - the request, the worker's trace, the standard output stream and the
      warning log are threaded through a state-and-exception monad. *)

From Stdlib Require Import ZArith NArith String SpecFloat.
From stdpp Require Import base option list gmap numbers.

(** ** Scalars *)

(** C++ [float]: binary32, precision 24 and maximal exponent 128. *)
Abbreviation float := spec_float.

Module Float32.
Definition prec : Z := 24.
Definition emax : Z := 128.
Definition zero : float := S754_zero false.
Definition one : float := SFone prec emax.
Definition div (x y : float) : float := SFdiv prec emax x y.
End Float32.

(** [++] on a [size_t]. *)
Definition size_t_succ (n : N) : N := ((n + 1) mod 2 ^ 64)%N.

Definition INT_MAX : Z := 2147483647.
Definition UINT32_MAX : N := 4294967295.

(** [std::vector::operator[]] with a (signed) index: defined inside the
    range only. *)
Definition at_idx {A : Type} (v : list A) (i : Z) : option A :=
  if (i <? 0)%Z then None else v !! Z.to_nat i.

(** [v[i] = x] by index. *)
Definition set_idx {A : Type} (v : list A) (i : Z) (x : A) : list A :=
  <[Z.to_nat i := x]> v.

(** ** Data model *)

(** Modelled from the spec: [baldr::GraphId] (baldr/graphid.h is not among
    the sources).  The spec calls the edge identifier "nullable/invalid
    meaning unmatched"; a default-constructed identifier is the invalid
    one, [None] here, and [Is_Valid] is [is_Some]. *)
Abbreviation GraphId := (option N).

Definition Is_Valid (id : GraphId) : bool :=
  match id with Some _ => true | None => false end.

(** Modelled from the spec: [midgard::PointLL], a coordinate; the source
    reads it as [first]/[lng()] and [second]/[lat()]. *)
Abbreviation PointLL := (float * float)%type.

(** Modelled from the spec: one GPS measurement of the trace (coordinate,
    timestamp, accuracy radius); the code only counts and forwards them. *)
Record Measurement := {
  meas_lnglat : PointLL;
  meas_epoch_time : float;
  meas_accuracy : float;
}.

(** Modelled from the spec: [meili::MatchResult] (meili/match_result.h is
    not among the sources), one outcome per trace point: matched
    coordinate, distance from the raw point, matched edge identifier,
    percent-distance along the edge, optional matcher state, global
    [edge_index] and the two discontinuity flags.  These are the members
    the source reads or writes. *)
Record MatchResult := {
  mr_lnglat : PointLL;
  mr_distance_from : float;
  mr_edgeid : GraphId;
  mr_distance_along : float;
  mr_stateid : option N;          (* [HasState()] is [is_Some] *)
  mr_edge_index : N;
  mr_begins_discontinuity : bool;
  mr_ends_discontinuity : bool;
}.

Definition set_edge_index (e : N) (m : MatchResult) : MatchResult :=
  {| mr_lnglat := mr_lnglat m;
     mr_distance_from := mr_distance_from m;
     mr_edgeid := mr_edgeid m;
     mr_distance_along := mr_distance_along m;
     mr_stateid := mr_stateid m;
     mr_edge_index := e;
     mr_begins_discontinuity := mr_begins_discontinuity m;
     mr_ends_discontinuity := mr_ends_discontinuity m |}.

(** Modelled from the spec: [meili::EdgeSegment], a run of trace points
    on one edge: the edge identifier, the indices of its first and last
    match and the [discontinuity] flag. *)
Record EdgeSegment := {
  seg_edgeid : GraphId;
  first_match_idx : Z;            (* [int], negative when there is none *)
  last_match_idx : Z;
  discontinuity : bool;
}.

(** Modelled from the spec: [thor::PathInfo], an element of an edge-cost
    sequence; the source reads its [edgeid] only. *)
Record PathInfo := {
  pi_edgeid : GraphId;
  pi_elapsed_cost : float;
}.

(** One element of the [paths] deque: edge costs and the segments. *)
Abbreviation Path := (list PathInfo * list EdgeSegment)%type.

(** Modelled from the spec: one ranked interpretation returned by the
    matcher ([meili::MatchResults]): match results, segments, raw score. *)
Record MatchResults := {
  results : list MatchResult;
  segments : list EdgeSegment;
  score : float;
}.

(** An element of the vector [map_match] returns:
    <confidence score, raw score, match results>. *)
Abbreviation match_tuple := (float * float * list MatchResult)%type.

(** [std::get<kConfidenceScoreIndex>], [std::get<kRawScoreIndex>] and
    [std::get<kMatchResultsIndex>]. *)
Definition confidence_score (t : match_tuple) : float := fst (fst t).
Definition raw_score (t : match_tuple) : float := snd (fst t).
Definition tuple_results (t : match_tuple) : list MatchResult := snd t.

(** Modelled from the spec: [thor::RouteDiscontinuity],
    "{present: bool, coordinate, distance_along}", in the order in which
    the source initialises it. *)
Record RouteDiscontinuity := {
  rd_present : bool;
  rd_vertex : PointLL;
  rd_distance_along : float;
}.

(** Modelled from the spec: the matched edge reference of a waypoint
    location ([valhalla::Location::PathEdge], a protobuf message); unset
    fields are [None]. *)
Record PathEdge := {
  pe_graph_id : option GraphId;
  pe_percent_along : option float;
  pe_ll : option PointLL;          (* (lng, lat) *)
  pe_distance : option float;
  pe_names : list string;
}.

Definition empty_path_edge : PathEdge :=
  {| pe_graph_id := None; pe_percent_along := None; pe_ll := None;
     pe_distance := None; pe_names := [] |}.

(** Modelled from the spec: a waypoint location of the request
    ([valhalla::Location], in [options.shape] and [options.locations]),
    with the fields the source reads or writes. *)
Record Location := {
  loc_ll : PointLL;
  loc_date_time : option string;
  loc_path_edges : list PathEdge;
  loc_route_index : option N;
  loc_shape_index : option N;
}.

Definition set_path_edges (pes : list PathEdge) (l : Location) : Location :=
  {| loc_ll := loc_ll l; loc_date_time := loc_date_time l;
     loc_path_edges := pes;
     loc_route_index := loc_route_index l;
     loc_shape_index := loc_shape_index l |}.

Definition set_route_index (r : N) (l : Location) : Location :=
  {| loc_ll := loc_ll l; loc_date_time := loc_date_time l;
     loc_path_edges := loc_path_edges l;
     loc_route_index := Some r;
     loc_shape_index := loc_shape_index l |}.

Definition set_shape_index (i : N) (l : Location) : Location :=
  {| loc_ll := loc_ll l; loc_date_time := loc_date_time l;
     loc_path_edges := loc_path_edges l;
     loc_route_index := loc_route_index l;
     loc_shape_index := Some i |}.

Definition set_date_time (d : string) (l : Location) : Location :=
  {| loc_ll := loc_ll l; loc_date_time := Some d;
     loc_path_edges := loc_path_edges l;
     loc_route_index := loc_route_index l;
     loc_shape_index := loc_shape_index l |}.

(** The map handed to the leg builder, keyed by global edge index. *)
Abbreviation discontinuity_map :=
  (gmap N (RouteDiscontinuity * RouteDiscontinuity)).

(** The leg builder ([thor::TripLegBuilder::Build]) is an external
    collaborator.  A leg is represented by what the builder is handed:
    the edges, the origin and destination locations as they are at the
    call, and the discontinuity map when one is passed. *)
Record TripLeg := {
  leg_edges : list PathInfo;
  leg_origin : Location;
  leg_destination : Location;
  leg_discontinuities : option discontinuity_map;
}.

(** A [TripRoute] owns its legs. *)
Abbreviation TripRoute := (list TripLeg).

(** The enumerations of the request options, with the values the source
    names. *)
Inductive ShapeMatch := edge_walk | map_snap | walk_or_snap.
Inductive Action := trace_route_action | trace_attributes | other_action.
Inductive Format := json | osrm | other_format.

Global Instance ShapeMatch_eq_dec : EqDecision ShapeMatch.
Proof. solve_decision. Defined.
Global Instance Action_eq_dec : EqDecision Action.
Proof. solve_decision. Defined.
Global Instance Format_eq_dec : EqDecision Format.
Proof. solve_decision. Defined.

(** protobuf's generated [ShapeMatch_Enum_Name]. *)
Definition ShapeMatch_Enum_Name (m : ShapeMatch) : string :=
  match m with
  | edge_walk => "edge_walk"%string
  | map_snap => "map_snap"%string
  | walk_or_snap => "walk_or_snap"%string
  end.

(** Modelled from the spec: the request options ([valhalla::Options]),
    with the fields the source reads or writes. *)
Record Options := {
  action : Action;
  format : Format;
  shape_match : ShapeMatch;
  best_paths : Z;
  do_not_track : bool;
  shape : list Location;
  locations : list Location;
}.

Definition set_shape (sh : list Location) (o : Options) : Options :=
  {| action := action o; format := format o; shape_match := shape_match o;
     best_paths := best_paths o; do_not_track := do_not_track o;
     shape := sh; locations := locations o |}.

Definition set_locations (ls : list Location) (o : Options) : Options :=
  {| action := action o; format := format o; shape_match := shape_match o;
     best_paths := best_paths o; do_not_track := do_not_track o;
     shape := shape o; locations := ls |}.

(** ** The worker, the request and the effects of the code *)

(** What is thrown: [std::exception{}] or [valhalla_exception_t{code}]
    with the optional extra text. *)
Inductive exn :=
  | std_exception
  | valhalla_exception_t (code : Z) (extra : option string).

(** The two matching strategies, for the ghost log of their calls. *)
Inductive Strategy := RouteMatch | MapMatch.

(** The state the functions of the file act on: the request (options and
    the routes of its trip), the worker's trace, the standard output
    stream (one element per [<< ... << std::endl] statement), the
    warning log of [LOG_WARN] and the legs handed to [log_admin].
    [called] is ghost state: it records each entry into [route_match] and
    [map_match] and is read by nothing. *)
Record Worker := {
  req_options : Options;
  req_routes : list TripRoute;
  trace : list Measurement;
  cout : list string;
  warn_log : list string;
  admin_log : list TripLeg;
  called : list Strategy;
}.

Definition set_options (o : Options) (w : Worker) : Worker :=
  {| req_options := o; req_routes := req_routes w; trace := trace w;
     cout := cout w; warn_log := warn_log w; admin_log := admin_log w;
     called := called w |}.

Definition set_routes (rs : list TripRoute) (w : Worker) : Worker :=
  {| req_options := req_options w; req_routes := rs; trace := trace w;
     cout := cout w; warn_log := warn_log w; admin_log := admin_log w;
     called := called w |}.

Definition write_cout (lines : list string) (w : Worker) : Worker :=
  {| req_options := req_options w; req_routes := req_routes w;
     trace := trace w; cout := cout w ++ lines; warn_log := warn_log w;
     admin_log := admin_log w; called := called w |}.

Definition write_warning (msg : string) (w : Worker) : Worker :=
  {| req_options := req_options w; req_routes := req_routes w;
     trace := trace w; cout := cout w; warn_log := warn_log w ++ [msg];
     admin_log := admin_log w; called := called w |}.

Definition write_admin (leg : TripLeg) (w : Worker) : Worker :=
  {| req_options := req_options w; req_routes := req_routes w;
     trace := trace w; cout := cout w; warn_log := warn_log w;
     admin_log := admin_log w ++ [leg]; called := called w |}.

Definition note_call (s : Strategy) (w : Worker) : Worker :=
  {| req_options := req_options w; req_routes := req_routes w;
     trace := trace w; cout := cout w; warn_log := warn_log w;
     admin_log := admin_log w; called := called w ++ [s] |}.

(** How a call ends: it returns, it throws (the state is the one at the
    throw), or its behaviour is undefined. *)
Inductive outcome (A : Type) :=
  | Done (a : A) (w : Worker)
  | Thrown (e : exn) (w : Worker)
  | Undefined.
Arguments Done {A} a w.
Arguments Thrown {A} e w.
Arguments Undefined {A}.

Definition thor (A : Type) : Type := Worker → outcome A.

Global Instance thor_ret : MRet thor := λ A a w, Done a w.

Global Instance thor_bind : MBind thor := λ A B f m w,
  match m w with
  | Done a w' => f a w'
  | Thrown e w' => Thrown e w'
  | Undefined => Undefined
  end.

Definition get_worker : thor Worker := λ w, Done w w.
Definition modify (f : Worker → Worker) : thor unit := λ w, Done tt (f w).
Definition throw {A : Type} (e : exn) : thor A := λ w, Thrown e w.

(** A local computation that is undefined behaviour when it is [None]. *)
Definition defined {A : Type} (o : option A) : thor A := λ w,
  match o with Some a => Done a w | None => Undefined end.

(** [try { body } catch (...) { handler }]. *)
Definition try_catch {A : Type} (body : thor A) (handler : thor A) : thor A :=
  λ w, match body w with
       | Thrown _ w' => handler w'
       | r => r
       end.

(** A [for] loop over a container, in the monad. *)
Fixpoint for_eachM {S A : Type} (body : S → A → thor S) (xs : list A) (s : S)
  : thor S :=
  match xs with
  | [] => mret s
  | x :: xs' => s' ← body s x; for_eachM body xs' s'
  end.

(** ** The continuous-trace assembler: local computations of [build_trace] *)

(** The local variables of the first loop of [build_trace].  The two
    match pointers are kept as indices into [match_results]. *)
Record trace_vars := {
  match_results : list MatchResult;
  route_discontinuities : discontinuity_map;
  last_id : GraphId;
  edge_index : N;
  origin_match : option Z;
  dest_match : option Z;
}.

Definition trace_vars_init (ms : list MatchResult) : trace_vars :=
  {| match_results := ms; route_discontinuities := ∅; last_id := None;
     edge_index := 0%N; origin_match := None; dest_match := None |}.

(** [match_results[i].edge_index = e]. *)
Definition stamp (i : Z) (e : N) (ms : list MatchResult)
  : option (list MatchResult) :=
  m ← at_idx ms i; Some (set_idx ms i (set_edge_index e m)).

(** [if (!p) p = &match_results[i]]. *)
Definition remember (p : option Z) (i : Z) : option Z :=
  match p with Some _ => p | None => Some i end.

(** The body of the loop over the segments of a path (lines 254-269). *)
Definition visit_segment (st : trace_vars) (segment : EdgeSegment)
  : option trace_vars :=
  '(ms1, origin) ←
     (if (0 <=? first_match_idx segment)%Z then
        ms ← stamp (first_match_idx segment) (edge_index st) (match_results st);
        Some (ms, remember (origin_match st) (first_match_idx segment))
      else Some (match_results st, origin_match st));
  '(ms2, dest) ←
     (if (0 <=? last_match_idx segment)%Z then
        ms ← stamp (last_match_idx segment) (edge_index st) ms1;
        Some (ms, remember (dest_match st) (last_match_idx segment))
      else Some (ms1, dest_match st));
  Some {| match_results := ms2;
          route_discontinuities := route_discontinuities st;
          last_id := seg_edgeid segment;
          edge_index := if decide (last_id st = seg_edgeid segment)
                        then edge_index st
                        else size_t_succ (edge_index st);
          origin_match := origin;
          dest_match := dest |}.

(** A [for] loop over a container whose body may be undefined. *)
Fixpoint for_each {S A : Type} (body : S → A → option S) (xs : list A) (s : S)
  : option S :=
  match xs with
  | [] => Some s
  | x :: xs' => s' ← body s x; for_each body xs' s'
  end.

(** [add_path_edge]: the location gets exactly one path edge made from
    the match; side of street and reachability are left unset. *)
Definition add_path_edge (l : Location) (m : MatchResult) : Location :=
  set_path_edges
    [ {| pe_graph_id := Some (mr_edgeid m);
         pe_percent_along := Some (mr_distance_along m);
         pe_ll := Some (fst (mr_lnglat m), snd (mr_lnglat m));
         pe_distance := Some (mr_distance_from m);
         pe_names := [] |} ]
    l.

(** What the sources use but do not define: constructors and free
    functions of other translation units, and the external collaborators
    (matcher, path formers, tile store, printers). *)
Class Collaborators := {
  (** [midgard::PointLL{}] *)
  PointLL_default : PointLL;
  (** [matcher->OfflineMatch(trace, k)] *)
  OfflineMatch : list Measurement → Z → list MatchResults;
  (** [MapMatcher::FormPath(matcher, results, segments, ..., options)] *)
  MapMatcher_FormPath :
    list MatchResult → list EdgeSegment → Options → list Path;
  (** [RouteMatcher::FormPath(..., trace, options, path)]: the path when
      one is found, and the options as the call leaves them *)
  RouteMatcher_FormPath :
    list Measurement → Options → option (list PathInfo) * Options;
  (** [reader->edgeinfo(id).GetNames()] *)
  edgeinfo_names : GraphId → list string;
  (** [state_container().state(id).candidate().edges.size()] *)
  candidate_edges_size : N → N;
  (** [operator<<] of [PathInfo] and of [EdgeSegment] *)
  show_PathInfo : PathInfo → string;
  show_EdgeSegment : EdgeSegment → string;
  (** the request parsers of the worker *)
  parse_locations : thor unit;
  parse_costing : thor unit;
  parse_measurements : thor unit;
  parse_filter_attributes : thor unit;
}.

Section Assembly.
Context `{Collaborators}.

(** The value-initialised [RouteDiscontinuity]: absent, distance 0 (the
    source relies on it when it indexes the map). *)
Definition RouteDiscontinuity_default : RouteDiscontinuity :=
  {| rd_present := false; rd_vertex := PointLL_default;
     rd_distance_along := Float32.zero |}.

(** [route_discontinuities[k]]: the entry, default-inserted when absent. *)
Definition entry_at (k : N) (rd : discontinuity_map)
  : RouteDiscontinuity * RouteDiscontinuity :=
  default (RouteDiscontinuity_default, RouteDiscontinuity_default) (rd !! k).

(** [route_discontinuities[k] = {{true, ll, d}, {false, {}, 1.f}}]
    (lines 277-279): the whole entry is assigned. *)
Definition open_discontinuity (first_match : MatchResult)
    (rd : discontinuity_map) : discontinuity_map :=
  <[mr_edge_index first_match :=
      ({| rd_present := true; rd_vertex := mr_lnglat first_match;
          rd_distance_along := mr_distance_along first_match |},
       {| rd_present := false; rd_vertex := PointLL_default;
          rd_distance_along := Float32.one |})]> rd.

(** [route_discontinuities[k].second = {true, ll, d}] (lines 288-289):
    only the second half is assigned. *)
Definition close_discontinuity (last_match : MatchResult)
    (rd : discontinuity_map) : discontinuity_map :=
  <[mr_edge_index last_match :=
      (fst (entry_at (mr_edge_index last_match) rd),
       {| rd_present := true; rd_vertex := mr_lnglat last_match;
          rd_distance_along := mr_distance_along last_match |})]> rd.

(** The discontinuity bookkeeping of one path (lines 272-290), on the
    match results as the segment loop left them. *)
Definition note_discontinuities (segs : list EdgeSegment)
    (ms : list MatchResult) (rd : discontinuity_map)
  : option discontinuity_map :=
  first_segment ← head segs;
  first_match ← at_idx ms (first_match_idx first_segment);
  last_segment ← list.last segs;
  last_match ← at_idx ms (last_match_idx last_segment);
  Some (let rd1 := if mr_ends_discontinuity first_match
                   then open_discontinuity first_match rd else rd in
        if mr_begins_discontinuity last_match
        then close_discontinuity last_match rd1 else rd1).

(** The body of the loop over the paths (lines 251-291). *)
Definition visit_path (st : trace_vars) (path : Path) : option trace_vars :=
  st1 ← for_each visit_segment (snd path) st;
  rd ← note_discontinuities (snd path) (match_results st1)
         (route_discontinuities st1);
  Some {| match_results := match_results st1;
          route_discontinuities := rd;
          last_id := last_id st1;
          edge_index := edge_index st1;
          origin_match := origin_match st1;
          dest_match := dest_match st1 |}.

(** The first loop of [build_trace]. *)
Definition index_matches (paths : list Path) (ms : list MatchResult)
  : option trace_vars :=
  for_each visit_path paths (trace_vars_init ms).

(** The body of the second loop (lines 309-311): the path's edges are
    appended, without the first one when it is the edge the sequence
    already ends with.  [front()] of an empty path is only evaluated when
    the sequence is not empty. *)
Definition append_path (path_edges : list PathInfo) (path : Path)
  : option (list PathInfo) :=
  match list.last path_edges with
  | None => Some (path_edges ++ fst path)
  | Some back =>
      front ← head (fst path);
      let merge_last_edge := bool_decide (pi_edgeid back = pi_edgeid front) in
      Some (path_edges ++ (if merge_last_edge then drop 1 (fst path) else fst path))
  end.

(** "smash all the path edges into a single vector". *)
Definition smash_path_edges (paths : list Path) : option (list PathInfo) :=
  for_each append_path paths [].

(** [options.mutable_shape(i)] followed by a write through the pointer. *)
Definition write_shape (i : Z) (l : Location) (w : Worker) : Worker :=
  set_options (set_shape (set_idx (shape (req_options w)) i l) (req_options w)) w.

Definition update_shape (i : Z) (f : Location → Location) : thor unit :=
  w ← get_worker;
  l ← defined (at_idx (shape (req_options w)) i);
  modify (write_shape i (f l)).

(** [*options.mutable_shape(i)], read. *)
Definition read_shape (i : Z) : thor Location :=
  w ← get_worker; defined (at_idx (shape (req_options w)) i).

(** [request.mutable_trip()->mutable_routes()->Add()]: the position of
    the new, empty route. *)
Definition add_route : thor nat :=
  w ← get_worker;
  modify (λ w, set_routes (req_routes w ++ [[]]) w);;
  mret (length (req_routes w)).

(** [route->mutable_legs()->Add()], filled by the leg builder. *)
Definition add_leg (route : nat) (leg : TripLeg) : thor unit :=
  w ← get_worker;
  _ ← defined (req_routes w !! route);
  modify (λ w, set_routes (alter (λ legs, legs ++ [leg]) route (req_routes w)) w).

(** ** [thor_worker_t::build_trace] *)

Definition build_trace (paths : list Path) (ms : list MatchResult)
  : thor (list MatchResult) :=
  st ← defined (index_matches paths ms);
  match origin_match st, dest_match st with
  | Some origin_match_idx, Some dest_match_idx =>
      (* the two locations are looked up before either is written *)
      _ ← read_shape origin_match_idx;
      _ ← read_shape dest_match_idx;
      origin_m ← defined (at_idx (match_results st) origin_match_idx);
      dest_m ← defined (at_idx (match_results st) dest_match_idx);
      update_shape origin_match_idx (λ l, add_path_edge l origin_m);;
      update_shape dest_match_idx (λ l, add_path_edge l dest_m);;
      path_edges ← defined (smash_path_edges paths);
      route ← add_route;
      origin_location ← read_shape origin_match_idx;
      destination_location ← read_shape dest_match_idx;
      add_leg route
        {| leg_edges := path_edges;
           leg_origin := origin_location;
           leg_destination := destination_location;
           leg_discontinuities := Some (route_discontinuities st) |};;
      mret (match_results st)
  | _, _ => throw (valhalla_exception_t 442 None)
  end.

(** ** [thor_worker_t::build_route] *)

(** The local variables of [build_route] that live across the loop; the
    [route] pointer is the position of the open route in the trip. *)
Record route_vars := {
  way_point_index : Z;
  route : option nat;
  route_index : Z;
}.

(** [++] on an [int]: overflow is undefined. *)
Definition int_succ (z : Z) : option Z :=
  if (z <? INT_MAX)%Z then Some (z + 1)%Z else None.

(** The output statements at the top of the loop body (lines 336-344). *)
Definition print_path (path : Path) : thor unit :=
  modify (write_cout
            (["Path:"%string] ++ map show_PathInfo (fst path) ++
             ["EdgeSegments:"%string] ++ map show_EdgeSegment (snd path) ++
             [EmptyString])).

(** The loop of lines 354-357 over the shape indices of a path. *)
Definition stamp_route (route_index : Z) (origin_match_idx dest_match_idx : Z)
  : thor unit :=
  for_eachM
    (λ _ i, update_shape i (λ l, set_shape_index UINT32_MAX
                                   (set_route_index (Z.to_N route_index) l)))
    (seqZ origin_match_idx (dest_match_idx - origin_match_idx + 1)) tt;;
  (* the last [++i] *)
  if ((origin_match_idx <=? dest_match_idx) && (INT_MAX <=? dest_match_idx))%Z
  then defined None else mret tt.

(** The body of the loop over the paths. *)
Definition route_path (ms : list MatchResult) (vars : route_vars)
    (path : Path) : thor route_vars :=
  print_path path;;
  '(route, way_point_index) ←
     match route vars with
     | None => r ← add_route; mret (r, 0%Z)
     | Some r => mret (r, way_point_index vars)
     end;
  first_segment ← defined (head (snd path));
  last_segment ← defined (list.last (snd path));
  let origin_match_idx := first_match_idx first_segment in
  let dest_match_idx := last_match_idx last_segment in
  stamp_route (route_index vars) origin_match_idx dest_match_idx;;
  _ ← read_shape origin_match_idx;
  _ ← read_shape dest_match_idx;
  update_shape origin_match_idx (set_shape_index (Z.to_N way_point_index));;
  way_point_index' ← defined (int_succ way_point_index);
  update_shape dest_match_idx (set_shape_index (Z.to_N way_point_index'));;
  origin_m ← defined (at_idx ms origin_match_idx);
  dest_m ← defined (at_idx ms dest_match_idx);
  update_shape origin_match_idx (λ l, add_path_edge l origin_m);;
  update_shape dest_match_idx (λ l, add_path_edge l dest_m);;
  origin_location ← read_shape origin_match_idx;
  destination_location ← read_shape dest_match_idx;
  add_leg route
    {| leg_edges := fst path;
       leg_origin := origin_location;
       leg_destination := destination_location;
       leg_discontinuities := None |};;
  if discontinuity last_segment then
    route_index' ← defined (int_succ (route_index vars));
    mret {| way_point_index := way_point_index'; route := None;
            route_index := route_index' |}
  else
    mret {| way_point_index := way_point_index'; route := Some route;
            route_index := route_index vars |}.

Definition route_vars_init : route_vars :=
  {| way_point_index := 0; route := None; route_index := 0 |}.

Definition build_route (paths : list Path) (ms : list MatchResult)
  : thor unit :=
  for_eachM (route_path ms) paths route_vars_init;; mret tt.

(** ** [thor_worker_t::map_match] *)

(** The number of placeholders of lines 211-214: [int j] runs up to
    [size() - 1], computed on [size_t]; the loop leaves the range of
    [int] when that bound exceeds [INT_MAX]. *)
Definition candidate_placeholders (size : N) : option nat :=
  let bound := ((size + 2 ^ 64 - 1) mod 2 ^ 64)%N in
  if (Z.of_N bound <=? INT_MAX)%Z then Some (N.to_nat bound) else None.

Definition push_path_edges (pes : list PathEdge) (l : Location) : Location :=
  set_path_edges (loc_path_edges l ++ pes) l.

(** The body of the loop of lines 191-215 for the match at index [i]. *)
Definition fill_match_point (sh : list Location) (im : nat * MatchResult)
  : option (list Location) :=
  let '(i, m) := im in
  if Is_Valid (mr_edgeid m) then
    l ← sh !! i;
    let pe := {| pe_graph_id := None; pe_percent_along := None;
                 pe_ll := Some (fst (mr_lnglat m), snd (mr_lnglat m));
                 pe_distance := None;
                 pe_names := edgeinfo_names (mr_edgeid m) |} in
    match mr_stateid m with
    | None => Some (<[i := push_path_edges [pe] l]> sh)
    | Some stateid =>
        n ← candidate_placeholders (candidate_edges_size stateid);
        Some (<[i := push_path_edges (pe :: replicate n empty_path_edge) l]> sh)
    end
  else Some sh.

(** Lines 189-216: the match points of the OSRM format. *)
Definition fill_match_points (ms : list MatchResult) : thor unit :=
  w ← get_worker;
  if bool_decide (action (req_options w) = trace_route_action
                  ∧ format (req_options w) = osrm) then
    sh ← defined (for_each fill_match_point (imap pair ms)
                    (shape (req_options w)));
    (if (Z.of_nat (length ms) <=? INT_MAX)%Z then mret tt else defined None);;
    modify (λ w, set_options (set_shape sh (req_options w)) w)
  else mret tt.

(** The body of the loop over the ranked interpretations. *)
Definition match_one (map_match_results : list match_tuple)
    (result : MatchResults) : thor (list match_tuple) :=
  match segments result with
  | [] => throw std_exception
  | _ =>
      w ← get_worker;
      let paths := MapMatcher_FormPath (results result) (segments result)
                     (req_options w) in
      fill_match_points (results result);;
      ms ← (if bool_decide (action (req_options w) = trace_attributes)
            then build_trace paths (results result)
            else build_route paths (results result);; mret (results result));
      mret (map_match_results ++
            [(match map_match_results with
              | [] => Float32.one
              | best :: _ => Float32.div (raw_score best) (score result)
              end, score result, ms)])
  end.

Definition map_match : thor (list match_tuple) :=
  modify (note_call MapMatch);;
  w ← get_worker;
  match trace w with
  | [] => mret []
  | _ =>
      let topk := match action (req_options w) with
                  | trace_attributes => best_paths (req_options w)
                  | _ => 1%Z
                  end in
      for_eachM match_one (OfflineMatch (trace w) topk) []
  end.

(** ** [thor_worker_t::route_match] *)

Definition route_match : thor unit :=
  modify (note_call RouteMatch);;
  w ← get_worker;
  let '(found, options) := RouteMatcher_FormPath (trace w) (req_options w) in
  modify (set_options options);;
  match found with
  | Some path =>
      shape0 ← defined (shape options !! 0);
      locations ←
        match loc_date_time shape0 with
        | Some date_time =>
            l ← defined (locations options !! 0);
            mret (<[0 := set_date_time date_time l]> (locations options))
        | None => mret (locations options)
        end;
      modify (set_options (set_locations locations options));;
      route ← add_route;
      origin ← defined (head locations);
      destination ← defined (list.last locations);
      add_leg route
        {| leg_edges := path; leg_origin := origin;
           leg_destination := destination; leg_discontinuities := None |}
  | None => throw std_exception
  end.

(** ** [thor_worker_t::trace_route] *)

Definition edge_walk_failed_text : string :=
  " algorithm failed to find exact route match.  Try using shape_match:'walk_or_snap' to fallback to map-matching algorithm".

Definition fallback_text : string :=
  " algorithm failed to find exact route match; Falling back to map_match...".

(** The name of the shape-match mode, read when the handler runs. *)
Definition shape_match_name : thor string :=
  w ← get_worker; mret (ShapeMatch_Enum_Name (shape_match (req_options w))).

(** Lines 112-118: every leg of every route is handed to [log_admin]. *)
Definition log_admins : thor unit :=
  w ← get_worker;
  if do_not_track (req_options w) then mret tt
  else modify (λ w, foldl (λ w leg, write_admin leg w) w
                      (concat (req_routes w))).

Definition trace_route : thor unit :=
  parse_locations;;
  parse_costing;;
  parse_measurements;;
  parse_filter_attributes;;
  w ← get_worker;
  match shape_match (req_options w) with
  | edge_walk =>
      try_catch route_match
        (name ← shape_match_name;
         throw (valhalla_exception_t 443
                  (Some (String.append name edge_walk_failed_text))))
  | map_snap =>
      try_catch (map_match;; mret tt)
        (throw (valhalla_exception_t 442 None))
  | walk_or_snap =>
      try_catch route_match
        (name ← shape_match_name;
         modify (write_warning (String.append name fallback_text));;
         try_catch (map_match;; mret tt)
           (throw (valhalla_exception_t 442 None)))
  end;;
  log_admins.

End Assembly.

(** ** Concrete requests

    Small traces on which the functions are run: the values below are
    the inputs of the examples and of the instances of the theorems. *)
Module Fixture.

Definition origin_ll : PointLL := (Float32.zero, Float32.zero).

Definition a_match (edge : N) (begins ends : bool) : MatchResult :=
  {| mr_lnglat := origin_ll; mr_distance_from := Float32.zero;
     mr_edgeid := Some edge; mr_distance_along := Float32.zero;
     mr_stateid := None; mr_edge_index := 0;
     mr_begins_discontinuity := begins; mr_ends_discontinuity := ends |}.

Definition a_segment (edge : N) (first last : Z) (gap : bool) : EdgeSegment :=
  {| seg_edgeid := Some edge; first_match_idx := first;
     last_match_idx := last; discontinuity := gap |}.

Definition an_edge (edge : N) : PathInfo :=
  {| pi_edgeid := Some edge; pi_elapsed_cost := Float32.zero |}.

Definition a_location : Location :=
  {| loc_ll := origin_ll; loc_date_time := None; loc_path_edges := [];
     loc_route_index := None; loc_shape_index := None |}.

Definition a_measurement : Measurement :=
  {| meas_lnglat := origin_ll; meas_epoch_time := Float32.zero;
     meas_accuracy := Float32.zero |}.

(** A matcher that answers [interpretations] (at most [k] of them), a
    path repair that returns all segments as one path, an edge walk
    that finds [walked], and parsers that accept the request. *)
Definition collaborators (interpretations : list MatchResults)
    (walked : option (list PathInfo)) : Collaborators :=
  {| PointLL_default := origin_ll;
     OfflineMatch := λ _ k, take (Z.to_nat k) interpretations;
     MapMatcher_FormPath := λ _ segs _,
       [(map (λ s, {| pi_edgeid := seg_edgeid s;
                      pi_elapsed_cost := Float32.zero |}) segs, segs)];
     RouteMatcher_FormPath := λ _ o, (walked, o);
     edgeinfo_names := λ _, [];
     candidate_edges_size := λ _, 1%N;
     show_PathInfo := λ _, "edge"%string;
     show_EdgeSegment := λ _, "segment"%string;
     parse_locations := mret tt;
     parse_costing := mret tt;
     parse_measurements := mret tt;
     parse_filter_attributes := mret tt |}.

Definition a_request (act : Action) (mode : ShapeMatch) (k : Z) (points : nat)
  : Worker :=
  {| req_options :=
       {| action := act; format := json; shape_match := mode;
          best_paths := k; do_not_track := true;
          shape := replicate points a_location;
          locations := replicate 2 a_location |};
     req_routes := [];
     trace := replicate points a_measurement;
     cout := []; warn_log := []; admin_log := []; called := [] |}.

(** Two paths on the same edge 7, a gap between trace points 1 and 2. *)
Definition same_edge_paths : list Path :=
  [ ([an_edge 7], [a_segment 7 0 1 true]);
    ([an_edge 7], [a_segment 7 2 3 false]) ].

Definition same_edge_matches : list MatchResult :=
  [ a_match 7 false false; a_match 7 true false;
    a_match 7 false true; a_match 7 false false ].

(** A path of two segments on edge 7 that ends where a gap begins,
    then a path on edge 8 that starts where the gap ends. *)
Definition gap_paths : list Path :=
  [ ([an_edge 7], [a_segment 7 0 1 false; a_segment 7 1 2 true]);
    ([an_edge 8], [a_segment 8 3 4 false]) ].

Definition gap_matches : list MatchResult :=
  [ a_match 7 false false; a_match 7 false false; a_match 7 true false;
    a_match 8 false true; a_match 8 false false ].

(** Three paths, a gap after the second. *)
Definition three_paths : list Path :=
  [ ([an_edge 1; an_edge 2], [a_segment 1 0 1 false; a_segment 2 1 2 false]);
    ([an_edge 2; an_edge 3], [a_segment 2 2 3 false; a_segment 3 3 4 true]);
    ([an_edge 5], [a_segment 5 5 6 false]) ].

Definition three_paths_matches : list MatchResult :=
  [ a_match 1 false false; a_match 1 false false; a_match 2 false false;
    a_match 2 false false; a_match 3 true false; a_match 5 false true;
    a_match 5 false false ].

(** Ranked interpretations of a two-point trace: two usable ones with
    raw scores 1 and 2, and one without segment. *)
Definition good_interpretation : MatchResults :=
  {| results := [a_match 7 false false; a_match 7 false false];
     segments := [a_segment 7 0 1 false];
     score := Float32.one |}.

Definition second_interpretation : MatchResults :=
  {| results := [a_match 8 false false; a_match 8 false false];
     segments := [a_segment 8 0 1 false];
     score := SFadd Float32.prec Float32.emax Float32.one Float32.one |}.

Definition empty_interpretation : MatchResults :=
  {| results := [a_match 7 false false; a_match 7 false false];
     segments := [];
     score := Float32.one |}.

(** A match that ends a gap and a match that begins the next one, both
    on edge 7 and with the same edge index. *)
Definition gap_end_match : MatchResult := a_match 7 false true.
Definition gap_start_match : MatchResult := a_match 7 true false.

(** A request for a continuous trace of four points. *)
Definition trace_request : Worker := a_request trace_attributes map_snap 1 4.

(** A request for routes over a trace of seven points. *)
Definition route_request : Worker := a_request trace_route_action map_snap 1 7.

(** A trace_attributes request for the two best interpretations of a
    trace of two points. *)
Definition two_best_request : Worker := a_request trace_attributes map_snap 2 2.

(** A matcher with two usable interpretations, and one whose second
    interpretation has no segment. *)
Definition two_matches_env : Collaborators :=
  collaborators [good_interpretation; second_interpretation] None.

Definition no_path_env : Collaborators :=
  collaborators [good_interpretation; empty_interpretation] None.

(** Requests in the three shape-match modes, over a trace of two points
    for which neither strategy finds a path. *)
Definition edge_walk_request : Worker := a_request trace_route_action edge_walk 1 2.
Definition map_snap_request : Worker := a_request trace_route_action map_snap 1 2.
Definition walk_or_snap_request : Worker :=
  a_request trace_route_action walk_or_snap 1 2.

Definition no_match_env : Collaborators := collaborators [empty_interpretation] None.

(** Collaborators for the assemblers alone: no interpretation, no walk. *)
Definition env : Collaborators := collaborators [] None.

(** Two paths over five trace points, without gap or flag. *)
Definition plain_paths : list Path :=
  [ ([an_edge 1; an_edge 2], [a_segment 1 0 1 false; a_segment 2 1 2 false]);
    ([an_edge 2; an_edge 3], [a_segment 2 2 3 false; a_segment 3 3 4 false]) ].

Definition plain_matches : list MatchResult :=
  [ a_match 1 false false; a_match 1 false false; a_match 2 false false;
    a_match 2 false false; a_match 3 false false ].

(** A request for a continuous trace of five points. *)
Definition five_point_request : Worker := a_request trace_attributes map_snap 1 5.

(** An edge walk that finds the path of edge 7, and a request whose
    first shape point carries a date and time. *)
Definition walked_env : Collaborators := collaborators [] (Some [an_edge 7]).

Definition a_dated_location : Location :=
  set_date_time "2026-01-01T08:00" a_location.

Definition dated_request : Worker :=
  set_options
    (set_shape [a_dated_location; a_location] (req_options edge_walk_request))
    edge_walk_request.

(** A request that is tracked: the legs of its trip go to the admin log. *)
Definition tracked_request : Worker :=
  {| req_options :=
       {| action := trace_route_action; format := json;
          shape_match := edge_walk; best_paths := 1; do_not_track := false;
          shape := replicate 2 a_location;
          locations := replicate 2 a_location |};
     req_routes := [];
     trace := replicate 2 a_measurement;
     cout := []; warn_log := []; admin_log := []; called := [] |}.

(** A request without trace points. *)
Definition empty_trace_request : Worker :=
  a_request trace_route_action map_snap 1 0.

(** Parsers of which the third rejects the request. *)
Definition rejecting_env : Collaborators :=
  {| PointLL_default := origin_ll;
     OfflineMatch := λ _ _, [];
     MapMatcher_FormPath := λ _ _ _, [];
     RouteMatcher_FormPath := λ _ o, (None, o);
     edgeinfo_names := λ _, [];
     candidate_edges_size := λ _, 1%N;
     show_PathInfo := λ _, "edge"%string;
     show_EdgeSegment := λ _, "segment"%string;
     parse_locations := mret tt;
     parse_costing := mret tt;
     parse_measurements := throw std_exception;
     parse_filter_attributes := mret tt |}.

(** A matcher whose states have three candidate edges each, edges that
    are named, and an OSRM request over three trace points: a match
    with a state, a match without, a point that is not matched. *)
Definition osrm_env : Collaborators :=
  {| PointLL_default := origin_ll;
     OfflineMatch := λ _ _, [];
     MapMatcher_FormPath := λ _ _ _, [];
     RouteMatcher_FormPath := λ _ o, (None, o);
     edgeinfo_names := λ _, ["Main Street"%string];
     candidate_edges_size := λ _, 3%N;
     show_PathInfo := λ _, "edge"%string;
     show_EdgeSegment := λ _, "segment"%string;
     parse_locations := mret tt;
     parse_costing := mret tt;
     parse_measurements := mret tt;
     parse_filter_attributes := mret tt |}.

Definition a_state_match : MatchResult :=
  {| mr_lnglat := origin_ll; mr_distance_from := Float32.zero;
     mr_edgeid := Some 7%N; mr_distance_along := Float32.zero;
     mr_stateid := Some 0%N; mr_edge_index := 0;
     mr_begins_discontinuity := false; mr_ends_discontinuity := false |}.

Definition an_unmatched_point : MatchResult :=
  {| mr_lnglat := origin_ll; mr_distance_from := Float32.zero;
     mr_edgeid := None; mr_distance_along := Float32.zero;
     mr_stateid := None; mr_edge_index := 0;
     mr_begins_discontinuity := false; mr_ends_discontinuity := false |}.

Definition osrm_matches : list MatchResult :=
  [a_state_match; a_match 7 false false; an_unmatched_point].

Definition osrm_request : Worker :=
  {| req_options :=
       {| action := trace_route_action; format := osrm;
          shape_match := map_snap; best_paths := 1; do_not_track := true;
          shape := replicate 3 a_location;
          locations := replicate 2 a_location |};
     req_routes := [];
     trace := replicate 3 a_measurement;
     cout := []; warn_log := []; admin_log := []; called := [] |}.

End Fixture.

(** * Vocabulary of the statements *)

Section Vocabulary.
Context `{Collaborators}.

(** The begin half of an entry, made from a path's first match. *)
Definition begin_half (m : MatchResult) : RouteDiscontinuity :=
  {| rd_present := true; rd_vertex := mr_lnglat m;
     rd_distance_along := mr_distance_along m |}.

(** The end half of an entry, made from a path's last match. *)
Definition end_half (m : MatchResult) : RouteDiscontinuity :=
  {| rd_present := true; rd_vertex := mr_lnglat m;
     rd_distance_along := mr_distance_along m |}.

(** The end half the begin write leaves: absent, distance 1. *)
Definition untrimmed_end : RouteDiscontinuity :=
  {| rd_present := false; rd_vertex := PointLL_default;
     rd_distance_along := Float32.one |}.

(** What every entry of the map satisfies: an absent begin half is the
    default one (distance 0), an absent end half is the one the begin
    write leaves (distance 1). *)
Definition halves_ok (e : RouteDiscontinuity * RouteDiscontinuity) : Prop :=
  (rd_present (fst e) = false → rd_distance_along (fst e) = Float32.zero) ∧
  (rd_present (snd e) = false → rd_distance_along (snd e) = Float32.one).

Definition entries_ok (rd : discontinuity_map) : Prop :=
  ∀ k e, rd !! k = Some e → halves_ok e.

(** The trailing segment of a path is flagged [discontinuity]. *)
Definition trailing_gap (p : Path) : bool :=
  match list.last (snd p) with
  | Some s => discontinuity s
  | None => false
  end.

(** The number of paths, among [ps], whose trailing segment is flagged. *)
Definition gaps (ps : list Path) : nat :=
  length (filter (λ p, trailing_gap p = true) ps).

(** The number of paths of [ps] that come after its last flagged path. *)
Definition legs_since_gap (ps : list Path) : nat :=
  foldl (λ j p, if trailing_gap p then 0 else S j) 0 ps.

(** The flagged boundaries between consecutive paths: the flagged paths
    other than the last one. *)
Definition flagged_boundaries (paths : list Path) : nat :=
  gaps (take (length paths - 1) paths).

(** The match indices of the origin and of the destination of a path. *)
Definition origin_idx (p : Path) : Z :=
  from_option first_match_idx (-1)%Z (head (snd p)).

Definition dest_idx (p : Path) : Z :=
  from_option last_match_idx (-1)%Z (list.last (snd p)).

(** What [build_route] writes to the standard output for a path. *)
Definition path_text (p : Path) : list string :=
  ["Path:"%string] ++ map show_PathInfo (fst p) ++
  ["EdgeSegments:"%string] ++ map show_EdgeSegment (snd p) ++ [EmptyString].

(** The leg of a path that is the [j]-th leg of the [r]-th route of the
    call: the path's edges, waypoint numbers [j] and [j + 1] on its
    origin and destination, route number [r] on both.  When the path
    starts and ends at the same match, both are one location, which
    carries the destination's number; the route number is stamped when
    the span of the path is not empty. *)
Definition leg_numbered (r j : nat) (p : Path) (leg : TripLeg) : Prop :=
  leg_edges leg = fst p ∧
  loc_shape_index (leg_destination leg) = Some (N.of_nat (S j)) ∧
  (origin_idx p ≠ dest_idx p →
   loc_shape_index (leg_origin leg) = Some (N.of_nat j)) ∧
  ((origin_idx p ≤ dest_idx p)%Z →
   loc_route_index (leg_origin leg) = Some (N.of_nat r) ∧
   loc_route_index (leg_destination leg) = Some (N.of_nat r)).

(** The state of the loop of [build_route] after the paths [ps], when
    the trip had [n0] routes at the call. *)
Definition route_loop_inv (n0 : nat) (ps : list Path)
    (vars : route_vars) (w : Worker) : Prop :=
  route_index vars = Z.of_nat (gaps ps) ∧
  length (req_routes w)
  = n0 + (if decide (ps = []) then 0 else S (flagged_boundaries ps)) ∧
  match route vars with
  | Some ro =>
      ro = n0 + gaps ps ∧
      way_point_index vars = Z.of_nat (legs_since_gap ps) ∧
      length (req_routes w) = n0 + gaps ps + 1 ∧
      ∃ legs, req_routes w !! ro = Some legs ∧ length legs = legs_since_gap ps
  | None => legs_since_gap ps = 0 ∧ length (req_routes w) = n0 + gaps ps
  end.

(** The interpretations [map_match] asks the matcher for: the best
    [best_paths] ones for trace_attributes, the best one otherwise. *)
Definition ranked_interpretations (w : Worker) : list MatchResults :=
  OfflineMatch (trace w)
    match action (req_options w) with
    | trace_attributes => best_paths (req_options w)
    | _ => 1%Z
    end.

(** The four parsers have accepted the request, leaving the state [w]. *)
Definition parsed (w0 w : Worker) : Prop :=
  (parse_locations;; parse_costing;; parse_measurements;;
   parse_filter_attributes) w0 = Done tt w.

(** The text of the warning logged before the fallback. *)
Definition fallback_warning (w1 : Worker) : string :=
  String.append (ShapeMatch_Enum_Name (shape_match (req_options w1)))
    fallback_text.

(** The text of the edge-walk error. *)
Definition edge_walk_error (w1 : Worker) : exn :=
  valhalla_exception_t 443
    (Some (String.append (ShapeMatch_Enum_Name (shape_match (req_options w1)))
             edge_walk_failed_text)).

End Vocabulary.

(** A component of the worker state that does not depend on the shape
    locations of the request, or on the routes of its trip. *)
Definition shape_blind {X : Type} (f : Worker → X) : Prop :=
  ∀ sh w, f (set_options (set_shape sh (req_options w)) w) = f w.

Definition routes_blind {X : Type} (f : Worker → X) : Prop :=
  ∀ rs w, f (set_routes rs w) = f w.

Definition cout_blind {X : Type} (f : Worker → X) : Prop :=
  ∀ lines w, f (write_cout lines w) = f w.

(** Two sequences of match results that differ in [edge_index] at most:
    same length, same order, every other member equal. *)
Definition same_but_edge_index (ms ms' : list MatchResult) : Prop :=
  length ms' = length ms ∧
  ∀ i m m', ms !! i = Some m → ms' !! i = Some m' →
    mr_lnglat m' = mr_lnglat m ∧
    mr_distance_from m' = mr_distance_from m ∧
    mr_edgeid m' = mr_edgeid m ∧
    mr_distance_along m' = mr_distance_along m ∧
    mr_stateid m' = mr_stateid m ∧
    mr_begins_discontinuity m' = mr_begins_discontinuity m ∧
    mr_ends_discontinuity m' = mr_ends_discontinuity m.

(** The relative score of an interpretation, given the tuples kept so
    far (lines 228-231). *)
Definition relative_score (kept : list match_tuple) (result : MatchResults)
  : float :=
  match kept with
  | [] => Float32.one
  | best :: _ => Float32.div (raw_score best) (score result)
  end.

(** A path [build_route] can assemble: it has segments, and the matches
    its first and last segments point at are among the first [n] trace
    points. *)
Definition path_in_range (n : Z) (p : Path) : bool :=
  match head (snd p), list.last (snd p) with
  | Some first_segment, Some last_segment =>
      (0 <=? first_match_idx first_segment)%Z
      && (first_match_idx first_segment <? n)%Z
      && (0 <=? last_match_idx last_segment)%Z
      && (last_match_idx last_segment <? n)%Z
  | _, _ => false
  end.

(** The inputs on which the behaviour of [build_route] is defined: every
    path is in the range of the match results and of the shape
    locations, and the counters stay in the range of [int]. *)
Definition route_input_ok (paths : list Path) (ms : list MatchResult)
    (w : Worker) : bool :=
  forallb (path_in_range
             (Z.of_nat (length ms) `min`
              Z.of_nat (length (shape (req_options w))))) paths
  && (Z.of_nat (length paths) <=? INT_MAX)%Z
  && (Z.of_nat (length (shape (req_options w))) <=? INT_MAX)%Z.

(** A call returns, in a state and with a value that satisfy [Q]. *)
Definition returns {A : Type} (m : thor A) (w : Worker)
    (Q : A → Worker → Prop) : Prop :=
  ∃ a w', m w = Done a w' ∧ Q a w'.

(** The number of shape locations of the request. *)
Definition shape_len (w : Worker) : nat := length (shape (req_options w)).

(** A component of the worker state other than the ghost call log. *)
Definition call_blind {X : Type} (f : Worker → X) : Prop :=
  ∀ s w, f (note_call s w) = f w.

(** ** Vocabulary of the properties of the loops *)

(** The segments of all paths, in the order in which [build_trace]
    visits them. *)
Definition all_segments (paths : list Path) : list EdgeSegment :=
  concat (snd <$> paths).

(** The number of places along [ids] at which the edge identifier
    differs from the one before it, [last] being the one before the
    first. *)
Fixpoint changes (last : GraphId) (ids : list GraphId) : nat :=
  match ids with
  | [] => 0
  | id :: ids' => (if decide (last = id) then 0 else 1) + changes id ids'
  end.

(** The first match index of a kind ([first_match_idx] or
    [last_match_idx]) that is not negative, in the order of the
    segments. *)
Definition first_index (idx : EdgeSegment → Z) (segs : list EdgeSegment)
  : option Z :=
  head (filter (λ i, (0 ≤ i)%Z) (idx <$> segs)).

(** The local variables of [build_trace] with another discontinuity
    map. *)
Definition with_discontinuities (rd : discontinuity_map) (st : trace_vars)
  : trace_vars :=
  {| match_results := match_results st; route_discontinuities := rd;
     last_id := last_id st; edge_index := edge_index st;
     origin_match := origin_match st; dest_match := dest_match st |}.

(** The inputs on which the behaviour of [build_trace] is defined:
    there is a path; every path has an edge and a segment; the match
    indices of the segments are below the number of match results,
    those of the first and last segment of a path are not negative; and
    every match result has a shape location. *)
Definition segment_in_range (n : Z) (s : EdgeSegment) : bool :=
  (first_match_idx s <? n)%Z && (last_match_idx s <? n)%Z.

Definition trace_path_ok (n : Z) (p : Path) : bool :=
  path_in_range n p && forallb (segment_in_range n) (snd p)
  && match fst p with [] => false | _ => true end.

Definition trace_input_ok (paths : list Path) (ms : list MatchResult)
    (w : Worker) : bool :=
  match paths with [] => false | _ => true end
  && forallb (trace_path_ok (Z.of_nat (length ms))) paths
  && (length ms <=? length (shape (req_options w)))%nat.

(** A match result that neither begins nor ends a discontinuity. *)
Definition unflagged (m : MatchResult) : Prop :=
  mr_begins_discontinuity m = false ∧ mr_ends_discontinuity m = false.

(** A half of a discontinuity entry that, when it is present, holds the
    coordinates and the distance along the edge of a match result with
    the given flag. *)
Definition half_from (flag : MatchResult → bool) (ms : list MatchResult)
    (h : RouteDiscontinuity) : Prop :=
  rd_present h = true →
  ∃ m, m ∈ ms ∧ flag m = true ∧
       rd_vertex h = mr_lnglat m ∧ rd_distance_along h = mr_distance_along m.

(** An entry of the discontinuity map with a present half, each present
    half made from a flagged match: the begin half from a match that
    ends a discontinuity, the end half from one that begins one. *)
Definition entry_sound (ms : list MatchResult)
    (e : RouteDiscontinuity * RouteDiscontinuity) : Prop :=
  (rd_present (fst e) = true ∨ rd_present (snd e) = true) ∧
  half_from mr_ends_discontinuity ms (fst e) ∧
  half_from mr_begins_discontinuity ms (snd e).

Section MatchPointVocabulary.
Context `{Collaborators}.

(** The path edge that lines 200-205 make from a match: coordinates and
    the names of the edge. *)
Definition match_point (m : MatchResult) : PathEdge :=
  {| pe_graph_id := None; pe_percent_along := None;
     pe_ll := Some (fst (mr_lnglat m), snd (mr_lnglat m));
     pe_distance := None; pe_names := edgeinfo_names (mr_edgeid m) |}.

(** The location [l'] is [l] after the match point of [m] has been
    filled in: nothing for an invalid edge, otherwise the path edge of
    the match followed by the placeholders. *)
Definition match_point_added (m : MatchResult) (l l' : Location) : Prop :=
  if Is_Valid (mr_edgeid m) then
    ∃ n, l' = push_path_edges (match_point m :: replicate n empty_path_edge) l ∧
         match mr_stateid m with
         | None => n = 0
         | Some stateid =>
             candidate_placeholders (candidate_edges_size stateid) = Some n
         end
  else l' = l.

(** What the match at index [i] needs for lines 193-214 to be defined:
    when its edge is valid, a shape location at [i] and a number of
    candidate edges for which the placeholder loop is defined. *)
Definition match_point_ready (sh : list Location) (i : nat) (m : MatchResult)
  : Prop :=
  Is_Valid (mr_edgeid m) = true →
  i < length sh ∧
  ∀ stateid, mr_stateid m = Some stateid →
    is_Some (candidate_placeholders (candidate_edges_size stateid)).

End MatchPointVocabulary.

(** A call that has no [throw] of its own. *)
Definition no_throw {A : Type} (m : thor A) : Prop :=
  ∀ w e w', m w ≠ Thrown e w'.

(** A shape location as the loop of lines 354-357 leaves it. *)
Definition marked (r : Z) (l : Location) : Location :=
  set_shape_index UINT32_MAX (set_route_index (Z.to_N r) l).

(** The shape location at index [i] after a turn of the loop of
    [build_route], from the location before it: the writes of lines
    354-372, each of which applies when its index is [i]. *)
Definition route_path_location (vars : route_vars) (p : Path) (j : Z)
    (mo md : MatchResult) (i : Z) (l : Location) : Location :=
  let o := origin_idx p in
  let d := dest_idx p in
  let l0 := if decide (o ≤ i ≤ d)%Z then marked (route_index vars) l else l in
  let l1 := if decide (o = i) then set_shape_index (Z.to_N j) l0 else l0 in
  let l2 := if decide (d = i) then set_shape_index (Z.to_N (j + 1)) l1 else l1 in
  let l3 := if decide (o = i) then add_path_edge l2 mo else l2 in
  if decide (d = i) then add_path_edge l3 md else l3.

(** The index [i] is the origin or the destination of the path; it is
    in the span of the path. *)
Definition endpoint (p : Path) (i : Z) : Prop :=
  i = origin_idx p ∨ i = dest_idx p.

Definition in_span (p : Path) (i : Z) : Prop :=
  (origin_idx p ≤ i ≤ dest_idx p)%Z ∨ endpoint p i.

(** * Properties *)

(** ** Loops *)

Lemma for_each_app {S A : Type} (body : S → A → option S) (xs ys : list A) s :
  for_each body (xs ++ ys) s = s' ← for_each body xs s; for_each body ys s'.
Proof.
  revert s. induction xs as [|x xs IH]; intros s; simpl; [done|].
  destruct (body s x) as [s1|]; simpl; [apply IH | done].
Qed.

(** An invariant of the body is an invariant of the loop. *)
Lemma for_each_invariant {S A : Type} (P : S → Prop)
    (body : S → A → option S) (xs : list A) :
  (∀ s x s', P s → body s x = Some s' → P s') →
  ∀ s s', P s → for_each body xs s = Some s' → P s'.
Proof.
  intros Hbody. induction xs as [|x xs IH]; intros s s' Hs Hrun; simpl in Hrun.
  - by simplify_eq.
  - destruct (body s x) as [s1|] eqn:Hx; simplify_eq/=. eauto.
Qed.

(** ** The discontinuity map of [build_trace] *)

Section Discontinuities.
Context `{Collaborators}.

Lemma lookup_open_discontinuity m rd :
  open_discontinuity m rd !! mr_edge_index m = Some (begin_half m, untrimmed_end).
Proof. unfold open_discontinuity. by rewrite lookup_insert_eq. Qed.

Lemma lookup_close_discontinuity m rd :
  close_discontinuity m rd !! mr_edge_index m
  = Some (fst (entry_at (mr_edge_index m) rd), end_half m).
Proof. unfold close_discontinuity. by rewrite lookup_insert_eq. Qed.

Lemma entries_ok_empty : entries_ok ∅.
Proof. intros k e. by rewrite lookup_empty. Qed.

Lemma entries_ok_open m rd : entries_ok rd → entries_ok (open_discontinuity m rd).
Proof.
  intros Hrd k e. unfold open_discontinuity.
  rewrite lookup_insert. case_decide; [|by apply Hrd].
  intros [= <-]. split; simpl; [discriminate | done].
Qed.

Lemma entries_ok_close m rd : entries_ok rd → entries_ok (close_discontinuity m rd).
Proof.
  intros Hrd k e. unfold close_discontinuity, entry_at.
  rewrite lookup_insert. case_decide; [|by apply Hrd].
  intros [= <-]. split; simpl; [|discriminate].
  destruct (rd !! mr_edge_index m) as [e|] eqn:He; simpl; [|done].
  by apply (Hrd _ _ He).
Qed.

Lemma entries_ok_note segs ms rd rd' :
  entries_ok rd → note_discontinuities segs ms rd = Some rd' → entries_ok rd'.
Proof.
  unfold note_discontinuities. intros Hrd Hnote. simplify_option_eq.
  repeat case_match; auto using entries_ok_open, entries_ok_close.
Qed.

Lemma visit_segment_discontinuities st seg st' :
  visit_segment st seg = Some st' →
  route_discontinuities st' = route_discontinuities st.
Proof.
  unfold visit_segment. intros Hv.
  repeat (case_match; simplify_option_eq); done.
Qed.

Lemma visit_segments_discontinuities segs st st' :
  for_each visit_segment segs st = Some st' →
  route_discontinuities st' = route_discontinuities st.
Proof.
  apply (for_each_invariant
           (λ s, route_discontinuities s = route_discontinuities st)); [|done].
  intros s x s' <- Hx. by apply visit_segment_discontinuities in Hx.
Qed.

Lemma entries_ok_visit_path st path st' :
  entries_ok (route_discontinuities st) →
  visit_path st path = Some st' →
  entries_ok (route_discontinuities st').
Proof.
  unfold visit_path. intros Hrd Hv. simplify_option_eq.
  eapply entries_ok_note; [|eassumption].
  by erewrite visit_segments_discontinuities.
Qed.

End Discontinuities.

(** ** Reasoning in the [thor] monad *)

Lemma bind_unfold {A B : Type} (m : thor A) (f : A → thor B) w :
  (m ≫= f) w = match m w with
               | Done a w' => f a w'
               | Thrown e w' => Thrown e w'
               | Undefined => Undefined
               end.
Proof. reflexivity. Qed.

Lemma bind_Done {A B : Type} (m : thor A) (f : A → thor B) w b w' :
  (m ≫= f) w = Done b w' ↔ ∃ a w1, m w = Done a w1 ∧ f a w1 = Done b w'.
Proof.
  rewrite bind_unfold. split.
  - destruct (m w) as [a w1| |]; [eauto | done | done].
  - intros (a & w1 & Hm & Hf). by rewrite Hm.
Qed.

Lemma bind_Thrown {A B : Type} (m : thor A) (f : A → thor B) w e w' :
  (m ≫= f) w = Thrown e w' ↔
  m w = Thrown e w' ∨ ∃ a w1, m w = Done a w1 ∧ f a w1 = Thrown e w'.
Proof.
  rewrite bind_unfold. split.
  - destruct (m w) as [a w1| |]; [intros ?; right; eauto | intros [= -> ->]; by left | done].
  - intros [Hm | (a & w1 & Hm & Hf)]; by rewrite Hm.
Qed.

Lemma defined_Done {A : Type} (o : option A) w a w' :
  defined o w = Done a w' ↔ o = Some a ∧ w' = w.
Proof.
  destruct o; simpl; split.
  - by intros [= -> ->].
  - by intros [[= ->] ->].
  - done.
  - by intros [? _].
Qed.

Lemma defined_not_Thrown {A : Type} (o : option A) w e w' :
  defined o w ≠ Thrown e w'.
Proof. by destruct o. Qed.

Lemma for_eachM_app {S A : Type} (body : S → A → thor S) (xs ys : list A) s w :
  for_eachM body (xs ++ ys) s w
  = (s' ← for_eachM body xs s; for_eachM body ys s') w.
Proof.
  revert s w. induction xs as [|x xs IH]; intros s w; simpl; [done|].
  rewrite !bind_unfold. destruct (body s x w); auto.
Qed.

(** The worker states a call can end in, when its behaviour is defined,
    are related to the state it starts from. *)
Definition keeps {A : Type} (R : relation Worker) (m : thor A) : Prop :=
  ∀ w, match m w with
       | Done _ w' | Thrown _ w' => R w w'
       | Undefined => True
       end.

(** A component of the state is left as it is. *)
Definition unchanged {X : Type} (f : Worker → X) : relation Worker :=
  λ w w', f w' = f w.

Global Instance unchanged_preorder {X : Type} (f : Worker → X) :
  PreOrder (unchanged f).
Proof. split; unfold unchanged; [done | intros ???; congruence]. Qed.

Section Keeps.
Context (R : relation Worker) `{!PreOrder R}.

Lemma keeps_ret {A : Type} (a : A) : keeps R (mret a).
Proof. intros w. simpl. reflexivity. Qed.

Lemma keeps_throw {A : Type} e : keeps R (@throw A e).
Proof. intros w. simpl. reflexivity. Qed.

Lemma keeps_defined {A : Type} (o : option A) : keeps R (defined o).
Proof. intros w. destruct o; simpl; [reflexivity | done]. Qed.

Lemma keeps_get : keeps R get_worker.
Proof. intros w. simpl. reflexivity. Qed.

Lemma keeps_modify (f : Worker → Worker) : (∀ w, R w (f w)) → keeps R (modify f).
Proof. intros Hf w. apply Hf. Qed.

Lemma keeps_bind {A B : Type} (m : thor A) (f : A → thor B) :
  keeps R m → (∀ a, keeps R (f a)) → keeps R (m ≫= f).
Proof.
  intros Hm Hf w. rewrite bind_unfold. specialize (Hm w).
  destruct (m w) as [a w1| |]; [|done..].
  specialize (Hf a w1). destruct (f a w1); [etrans; eauto..|done].
Qed.

Lemma keeps_try_catch {A : Type} (body handler : thor A) :
  keeps R body → keeps R handler → keeps R (try_catch body handler).
Proof.
  intros Hb Hh w. unfold try_catch. specialize (Hb w).
  destruct (body w) as [| e w1 |]; [done| |done].
  specialize (Hh w1). destruct (handler w1); [etrans; eauto..|done].
Qed.

Lemma keeps_for_eachM {S A : Type} (body : S → A → thor S) xs :
  (∀ s x, keeps R (body s x)) → ∀ s, keeps R (for_eachM body xs s).
Proof.
  intros Hbody. induction xs as [|x xs IH]; intros s; simpl.
  - apply keeps_ret.
  - apply keeps_bind; [apply Hbody | apply IH].
Qed.

End Keeps.

(** Reading the outcome of a kept relation. *)
Lemma keeps_Done {A : Type} R (m : thor A) w a w' :
  keeps R m → m w = Done a w' → R w w'.
Proof. intros Hm Hw. specialize (Hm w). by rewrite Hw in Hm. Qed.


Section KeepsPrimitives.
Context `{Collaborators} {X : Type} (f : Worker → X).

Lemma keeps_read_shape R `{!PreOrder R} i : keeps R (read_shape i).
Proof.
  unfold read_shape. apply keeps_bind; [done | by apply keeps_get |].
  intros w. by apply keeps_defined.
Qed.

Lemma keeps_update_shape i g :
  shape_blind f → keeps (unchanged f) (update_shape i g).
Proof.
  intros Hf. unfold update_shape.
  apply keeps_bind; [apply _ | apply keeps_get; apply _ |]. intros w.
  apply keeps_bind; [apply _ | apply keeps_defined; apply _ |]. intros l.
  apply keeps_modify. intros w1. apply Hf.
Qed.

Lemma keeps_add_route : routes_blind f → keeps (unchanged f) add_route.
Proof.
  intros Hf. unfold add_route.
  apply keeps_bind; [apply _ | apply keeps_get; apply _ |]. intros w.
  apply keeps_bind; [apply _ | | intros; apply keeps_ret; apply _].
  apply keeps_modify. intros w1. apply Hf.
Qed.

Lemma keeps_add_leg route leg :
  routes_blind f → keeps (unchanged f) (add_leg route leg).
Proof.
  intros Hf. unfold add_leg.
  apply keeps_bind; [apply _ | apply keeps_get; apply _ |]. intros w.
  apply keeps_bind; [apply _ | apply keeps_defined; apply _ |]. intros l.
  apply keeps_modify. intros w1. apply Hf.
Qed.

End KeepsPrimitives.

(** Decomposing a kept relation along the structure of the code. *)
Ltac keeps_step :=
  match goal with
  | |- keeps _ (read_shape _) => apply keeps_read_shape; apply _
  | |- keeps _ (update_shape _ _) => apply keeps_update_shape
  | |- keeps _ add_route => apply keeps_add_route
  | |- keeps _ (add_leg _ _) => apply keeps_add_leg
  | |- keeps _ (_ ≫= _) => apply keeps_bind; [apply _ | |]
  | |- keeps _ (mret _) => apply keeps_ret; apply _
  | |- keeps _ (throw _) => apply keeps_throw; apply _
  | |- keeps _ (defined _) => apply keeps_defined; apply _
  | |- keeps _ get_worker => apply keeps_get; apply _
  | |- keeps _ (modify _) => apply keeps_modify
  | |- keeps _ (try_catch _ _) => apply keeps_try_catch; [apply _ | |]
  | |- keeps _ (for_eachM _ _ _) => apply keeps_for_eachM; [apply _ |]
  | |- keeps _ (match ?x with _ => _ end) => destruct x
  | |- keeps _ (if ?x then _ else _) => destruct x
  | |- keeps _ (let '(_, _) := ?x in _) => destruct x
  | |- ∀ _, _ => intro
  end.

Ltac solve_keeps :=
  repeat keeps_step; try done; eauto;
  try (unfold unchanged, shape_blind, routes_blind, cout_blind in *; by eauto).

(** ** Frame conditions of the assemblers *)

Section Frames.
Context `{Collaborators} {X : Type} (f : Worker → X).
Context (Hshape : shape_blind f) (Hroutes : routes_blind f).

Lemma build_trace_keeps paths ms : keeps (unchanged f) (build_trace paths ms).
Proof. unfold build_trace. solve_keeps. Qed.

Lemma fill_match_points_keeps ms : keeps (unchanged f) (fill_match_points ms).
Proof. unfold fill_match_points. solve_keeps. Qed.

Context (Hcout : cout_blind f).

Lemma route_path_keeps ms vars path : keeps (unchanged f) (route_path ms vars path).
Proof. unfold route_path, print_path, stamp_route. solve_keeps. Qed.

Lemma build_route_keeps paths ms : keeps (unchanged f) (build_route paths ms).
Proof.
  unfold build_route. solve_keeps. apply route_path_keeps.
Qed.

Lemma match_one_keeps acc result : keeps (unchanged f) (match_one acc result).
Proof.
  unfold match_one. solve_keeps;
    auto using fill_match_points_keeps, build_trace_keeps, build_route_keeps.
Qed.

End Frames.

(** ** What [build_trace] returns *)

(** Exposing the primitive steps of a call whose outcome is known. *)
Ltac thor_unfold H :=
  cbv [mbind thor_bind mret thor_ret get_worker modify defined throw
       read_shape update_shape add_route add_leg] in H.

Lemma alter_new_route {A : Type} (g : A → A) (rs : list A) (r : A) :
  alter g (length rs) (rs ++ [r]) = rs ++ [g r].
Proof. rewrite alter_app_r_alt; [|done]. by rewrite Nat.sub_diag. Qed.

Section BuildTrace.
Context `{Collaborators}.

Lemma build_trace_Done paths ms w ms' w' :
  build_trace paths ms w = Done ms' w' →
  ∃ st leg,
    index_matches paths ms = Some st ∧
    ms' = match_results st ∧
    req_routes w' = req_routes w ++ [[leg]] ∧
    smash_path_edges paths = Some (leg_edges leg) ∧
    leg_discontinuities leg = Some (route_discontinuities st).
Proof.
  unfold build_trace. intros Hrun. thor_unfold Hrun.
  repeat (case_match; simplify_eq/=).
  rewrite alter_new_route. by eexists _, _.
Qed.

End BuildTrace.

(** ** The halves of a discontinuity entry (C2, C3) *)

Section DiscontinuityClaims.
Context `{Collaborators}.

Lemma entries_ok_index_matches paths ms st :
  index_matches paths ms = Some st → entries_ok (route_discontinuities st).
Proof.
  unfold index_matches.
  apply (for_each_invariant (λ s, entries_ok (route_discontinuities s))).
  - intros s p s' Hs Hp. by eapply entries_ok_visit_path.
  - apply entries_ok_empty.
Qed.

Lemma entry_at_open_ne m rd k :
  k ≠ mr_edge_index m → entry_at k (open_discontinuity m rd) = entry_at k rd.
Proof.
  intros Hk. unfold entry_at, open_discontinuity. by rewrite lookup_insert_ne.
Qed.

(** C2 (amended): in the bookkeeping of one path, the end half written
    for the last match keeps the begin half of its entry (the one just
    written for the first match when both have the same edge index, the
    one that was there, or the default one); the begin half written for
    the first match assigns the whole entry and leaves its end half
    absent with distance 1, whatever end half was there before. *)
Theorem discontinuity_halves_merge segs ms rd
    first_segment last_segment first_match last_match :
  head segs = Some first_segment →
  list.last segs = Some last_segment →
  at_idx ms (first_match_idx first_segment) = Some first_match →
  at_idx ms (last_match_idx last_segment) = Some last_match →
  ∃ rd', note_discontinuities segs ms rd = Some rd' ∧
    (mr_ends_discontinuity first_match = true →
     mr_begins_discontinuity last_match = true →
     mr_edge_index first_match = mr_edge_index last_match →
     rd' !! mr_edge_index last_match
     = Some (begin_half first_match, end_half last_match)) ∧
    (mr_begins_discontinuity last_match = true →
     mr_ends_discontinuity first_match = false
     ∨ mr_edge_index first_match ≠ mr_edge_index last_match →
     rd' !! mr_edge_index last_match
     = Some (fst (entry_at (mr_edge_index last_match) rd), end_half last_match)) ∧
    (mr_ends_discontinuity first_match = true →
     mr_begins_discontinuity last_match = false
     ∨ mr_edge_index first_match ≠ mr_edge_index last_match →
     rd' !! mr_edge_index first_match
     = Some (begin_half first_match, untrimmed_end)).
Proof.
  intros Hfirst Hlast Hfm Hlm. unfold note_discontinuities.
  rewrite Hfirst. simpl. rewrite Hfm. simpl. rewrite Hlast. simpl.
  rewrite Hlm. simpl. eexists. split; [done|]. split_and!.
  - intros -> -> Heq. rewrite lookup_close_discontinuity. f_equal. f_equal.
    unfold entry_at. rewrite <- Heq. by rewrite lookup_open_discontinuity.
  - intros -> [-> | Hne].
    + apply lookup_close_discontinuity.
    + rewrite lookup_close_discontinuity.
      destruct (mr_ends_discontinuity first_match); [|done].
      by rewrite entry_at_open_ne.
  - intros -> [-> | Hne].
    + apply lookup_open_discontinuity.
    + destruct (mr_begins_discontinuity last_match).
      * unfold close_discontinuity. rewrite lookup_insert_ne; [|done].
        apply lookup_open_discontinuity.
      * apply lookup_open_discontinuity.
Qed.

(** C3 (amended): in the map [build_trace] hands to the leg builder, an
    absent begin half has distance 0 and an absent end half has
    distance 1. *)
Theorem absent_halves_distances paths ms w ms' w' :
  build_trace paths ms w = Done ms' w' →
  ∃ leg rd,
    req_routes w' = req_routes w ++ [[leg]] ∧
    leg_discontinuities leg = Some rd ∧
    ∀ k e, rd !! k = Some e →
      (rd_present (fst e) = false → rd_distance_along (fst e) = Float32.zero) ∧
      (rd_present (snd e) = false → rd_distance_along (snd e) = Float32.one).
Proof.
  intros (st & leg & Hst & _ & Hroutes & _ & Hrd)%build_trace_Done.
  exists leg, (route_discontinuities st). split_and!; [done..|].
  by apply entries_ok_index_matches in Hst.
Qed.

End DiscontinuityClaims.

(** The instance of [discontinuity_halves_merge] for a path of one
    segment whose first match ends a gap and whose last match begins the
    next one. *)
Lemma discontinuity_halves_merge_witness :
  ∃ rd', note_discontinuities (H := Fixture.env)
           [Fixture.a_segment 7 0 1 true]
           [Fixture.gap_end_match; Fixture.gap_start_match] ∅ = Some rd' ∧
    (mr_ends_discontinuity Fixture.gap_end_match = true →
     mr_begins_discontinuity Fixture.gap_start_match = true →
     mr_edge_index Fixture.gap_end_match = mr_edge_index Fixture.gap_start_match →
     rd' !! mr_edge_index Fixture.gap_start_match
     = Some (begin_half Fixture.gap_end_match, end_half Fixture.gap_start_match)) ∧
    (mr_begins_discontinuity Fixture.gap_start_match = true →
     mr_ends_discontinuity Fixture.gap_end_match = false
     ∨ mr_edge_index Fixture.gap_end_match ≠ mr_edge_index Fixture.gap_start_match →
     rd' !! mr_edge_index Fixture.gap_start_match
     = Some (fst (entry_at (H := Fixture.env)
                    (mr_edge_index Fixture.gap_start_match) ∅),
             end_half Fixture.gap_start_match)) ∧
    (mr_ends_discontinuity Fixture.gap_end_match = true →
     mr_begins_discontinuity Fixture.gap_start_match = false
     ∨ mr_edge_index Fixture.gap_end_match ≠ mr_edge_index Fixture.gap_start_match →
     rd' !! mr_edge_index Fixture.gap_end_match
     = Some (begin_half Fixture.gap_end_match, untrimmed_end (H := Fixture.env))).
Proof.
  apply (discontinuity_halves_merge (H := Fixture.env)
           [Fixture.a_segment 7 0 1 true]
           [Fixture.gap_end_match; Fixture.gap_start_match] ∅
           (Fixture.a_segment 7 0 1 true) (Fixture.a_segment 7 0 1 true));
    reflexivity.
Defined.

(** C2, as stated, fails: the end half written at edge index 1 for the
    last match of the first path is reset when the first match of the
    second path, stamped with the same edge index, ends a gap. *)
Lemma end_half_reset_by_begin_write :
  ∃ st1 st2 e1 e2,
    index_matches (H := Fixture.env) (take 1 Fixture.gap_paths)
      Fixture.gap_matches = Some st1 ∧
    index_matches (H := Fixture.env) Fixture.gap_paths
      Fixture.gap_matches = Some st2 ∧
    route_discontinuities st1 !! 1%N = Some e1 ∧ rd_present (snd e1) = true ∧
    route_discontinuities st2 !! 1%N = Some e2 ∧ rd_present (snd e2) = false.
Proof.
  eexists _, _, _, _. split_and!; [reflexivity | reflexivity | | | |];
    vm_compute; reflexivity.
Qed.

(** The instance of [absent_halves_distances] for the two paths on the
    same edge. *)
Lemma absent_halves_distances_witness :
  ∃ ms' w',
    build_trace (H := Fixture.env) Fixture.same_edge_paths
      Fixture.same_edge_matches Fixture.trace_request = Done ms' w' ∧
    ∃ leg rd,
      req_routes w' = req_routes Fixture.trace_request ++ [[leg]] ∧
      leg_discontinuities leg = Some rd ∧
      ∀ k e, rd !! k = Some e →
        (rd_present (fst e) = false → rd_distance_along (fst e) = Float32.zero) ∧
        (rd_present (snd e) = false → rd_distance_along (snd e) = Float32.one).
Proof.
  eexists _, _. split; [vm_compute; reflexivity|].
  eapply (absent_halves_distances (H := Fixture.env) Fixture.same_edge_paths
            Fixture.same_edge_matches Fixture.trace_request).
  vm_compute; reflexivity.
Defined.

(** C3, as stated, fails: the entry opened at edge index 1 by the begin
    write has an absent end half whose distance is 1, not 0. *)
Lemma absent_end_half_distance_one :
  ∃ ms' w' leg rd e,
    build_trace (H := Fixture.env) Fixture.same_edge_paths
      Fixture.same_edge_matches Fixture.trace_request = Done ms' w' ∧
    req_routes w' = [[leg]] ∧
    leg_discontinuities leg = Some rd ∧
    rd !! 1%N = Some e ∧
    rd_present (snd e) = false ∧
    rd_distance_along (snd e) ≠ Float32.zero.
Proof.
  eexists _, _, _, _, _.
  split_and!; [vm_compute; reflexivity.. | vm_compute; discriminate].
Qed.

(** ** Edge indices across a path boundary (C1) *)

(** C1: the code does not do what the claim says.  For two paths of one
    segment each on the same edge 7 (trace points 0-1 and 2-3), the
    matches of the first segment are stamped 0 and those of the second
    are stamped 1, while the concatenated edge sequence holds edge 7
    once: the counter is compared with the previous identifier after the
    stamping, so the increment for the first segment reaches the second
    segment although the edge has not changed. *)
Theorem same_edge_across_paths_edge_index :
  ∃ st,
    index_matches (H := Fixture.env) Fixture.same_edge_paths
      Fixture.same_edge_matches = Some st ∧
    map mr_edge_index (match_results st) = [0; 0; 1; 1]%N ∧
    smash_path_edges Fixture.same_edge_paths = Some [Fixture.an_edge 7].
Proof. eexists. split_and!; [reflexivity | vm_compute; reflexivity..]. Qed.

(** ** Concatenating the edges of the paths (C7) *)

Lemma append_path_cons back acc path front :
  list.last acc = Some back →
  head (fst path) = Some front →
  append_path acc path
  = Some (acc ++ if bool_decide (pi_edgeid back = pi_edgeid front)
                 then drop 1 (fst path) else fst path).
Proof. intros Hb Hf. unfold append_path. by rewrite Hb, Hf. Qed.

Lemma append_path_nil path : append_path [] path = Some (fst path).
Proof. done. Qed.

(** Appending two paths whose boundary edges share their identifier is
    appending the one path that has the boundary edge once. *)
Lemma append_path_merged acc p1 p2 a b :
  list.last (fst p1) = Some a →
  head (fst p2) = Some b →
  pi_edgeid a = pi_edgeid b →
  (acc1 ← append_path acc p1; append_path acc1 p2)
  = append_path acc (fst p1 ++ drop 1 (fst p2), snd p1 ++ snd p2).
Proof.
  intros Ha Hb Hab. destruct p1 as [[|f1 l1] s1]; [done|]. cbn [fst snd] in *.
  destruct (list.last acc) as [c|] eqn:Hc.
  - rewrite (append_path_cons c acc _ f1) by done.
    rewrite (append_path_cons c acc _ f1) by done. cbn [fst mbind option_bind].
    case_bool_decide as Hcf.
    + destruct l1 as [|f2 l1].
      * simplify_eq/=. rewrite app_nil_r.
        rewrite (append_path_cons c acc _ b) by done.
        rewrite bool_decide_true by congruence. done.
      * change (list.last (f2 :: l1) = Some a) in Ha.
        change (drop 1 (f1 :: f2 :: l1)) with (f2 :: l1).
        rewrite (append_path_cons a _ _ b); [|by rewrite last_app, Ha|done].
        rewrite bool_decide_true by done. by rewrite <- app_assoc.
    + rewrite (append_path_cons a _ _ b); [|by rewrite last_app, Ha|done].
      rewrite bool_decide_true by done. by rewrite <- app_assoc.
  - apply last_None in Hc as ->. rewrite append_path_nil.
    cbn [fst mbind option_bind].
    rewrite (append_path_cons a _ _ b) by done.
    by rewrite bool_decide_true.
Qed.

(** The sequence after the loop is the sequence before it followed by
    one piece per path: the path's edges, without the first one exactly
    when it has the identifier of the edge the sequence ends with. *)
Lemma append_paths_pieces paths acc es :
  for_each append_path paths acc = Some es →
  ∃ pieces,
    es = acc ++ concat pieces ∧
    length pieces = length paths ∧
    ∀ k p piece, paths !! k = Some p → pieces !! k = Some piece →
      match list.last (acc ++ concat (take k pieces)) with
      | None => piece = fst p
      | Some back =>
          ∃ front, head (fst p) = Some front ∧
            piece = if bool_decide (pi_edgeid back = pi_edgeid front)
                    then drop 1 (fst p) else fst p
      end.
Proof.
  revert acc. induction paths as [|p paths IH]; intros acc Hrun; simpl in Hrun.
  - simplify_eq. exists []. split_and!; [by rewrite app_nil_r | done | done].
  - destruct (append_path acc p) as [acc1|] eqn:Hp; simplify_eq/=.
    destruct (IH _ Hrun) as (pieces & -> & Hlen & Hpieces).
    assert (∃ piece0, acc1 = acc ++ piece0 ∧
              match list.last acc with
              | None => piece0 = fst p
              | Some back =>
                  ∃ front, head (fst p) = Some front ∧
                    piece0 = if bool_decide (pi_edgeid back = pi_edgeid front)
                             then drop 1 (fst p) else fst p
              end) as (piece0 & -> & Hpiece0).
    { unfold append_path in Hp. destruct (list.last acc) as [back|].
      - destruct (head (fst p)) as [front|]; simplify_eq/=. eauto.
      - simplify_eq. eauto. }
    exists (piece0 :: pieces). split_and!.
    + simpl. by rewrite app_assoc.
    + simpl. by rewrite Hlen.
    + intros [|k] q piece Hq Hpiece; simplify_eq/=.
      * by rewrite app_nil_r.
      * rewrite app_assoc. by apply Hpieces.
Qed.

(** C7: the edge sequence of the leg [build_trace] appends is the
    concatenation of one piece per path, in order; the piece of a path
    is the path's edge sequence without its first edge exactly when
    that edge has the identifier of the last edge of the sequence built
    from the paths before it, and the whole edge sequence otherwise (as
    it is while the sequence is empty), so the shared edge is kept
    once.  And when two neighbouring paths whose boundary edges share
    their identifier come as one path with the boundary edge once, the
    edge sequence of the leg is the same. *)
Theorem path_edges_merge_on_equal_id `{Collaborators} paths ms w ms' w' :
  build_trace paths ms w = Done ms' w' →
  ∃ leg pieces,
    req_routes w' = req_routes w ++ [[leg]] ∧
    leg_edges leg = concat pieces ∧
    length pieces = length paths ∧
    (∀ k p piece, paths !! k = Some p → pieces !! k = Some piece →
       match list.last (concat (take k pieces)) with
       | None => piece = fst p
       | Some back =>
           ∃ front, head (fst p) = Some front ∧
             (pi_edgeid back = pi_edgeid front → piece = drop 1 (fst p)) ∧
             (pi_edgeid back ≠ pi_edgeid front → piece = fst p)
       end) ∧
    (∀ before p1 p2 after a b segs ms2 w2 ms2' w2',
       paths = before ++ p1 :: p2 :: after →
       list.last (fst p1) = Some a →
       head (fst p2) = Some b →
       pi_edgeid a = pi_edgeid b →
       build_trace (before ++ (fst p1 ++ drop 1 (fst p2), segs) :: after)
         ms2 w2 = Done ms2' w2' →
       ∃ leg2, req_routes w2' = req_routes w2 ++ [[leg2]] ∧
               leg_edges leg2 = leg_edges leg).
Proof.
  intros (st & leg & _ & _ & Hroutes & Hedges & _)%build_trace_Done.
  destruct (append_paths_pieces _ _ _ Hedges) as (pieces & Hes & Hlen & Hpieces).
  exists leg, pieces. split_and!; [done | done | done | |].
  - intros k p piece Hp Hpiece. specialize (Hpieces k p piece Hp Hpiece).
    simpl in Hpieces. destruct (list.last (concat (take k pieces))); [|done].
    destruct Hpieces as (front & Hfront & ->). exists front.
    split_and!; [done | |]; intros Hid;
      [by rewrite bool_decide_true | by rewrite bool_decide_false].
  - intros before p1 p2 after a b segs ms2 w2 ms2' w2' -> Ha Hb Hab
      (st2 & leg2 & _ & _ & Hroutes2 & Hedges2 & _)%build_trace_Done.
    exists leg2. split; [done|].
    assert (smash_path_edges (before ++ p1 :: p2 :: after)
            = smash_path_edges
                (before ++ (fst p1 ++ drop 1 (fst p2), segs) :: after)) as Heq.
    { unfold smash_path_edges. rewrite !for_each_app.
      destruct (for_each append_path before []) as [acc|]; simpl; [|done].
      pose proof (append_path_merged acc p1 (fst p2, segs) a b Ha Hb Hab) as Hm.
      cbn [fst snd] in Hm.
      assert (∀ acc1, append_path acc1 (fst p2, segs) = append_path acc1 p2)
        as Hsame by done.
      assert (append_path acc (fst p1 ++ drop 1 (fst p2), snd p1 ++ segs)
              = append_path acc (fst p1 ++ drop 1 (fst p2), segs)) as <- by done.
      rewrite <- Hm. destruct (append_path acc p1); simpl; [|done].
      by rewrite Hsame. }
    rewrite Heq, Hedges2 in Hedges. by injection Hedges.
Qed.

(** The instance of [path_edges_merge_on_equal_id] for three paths of
    which the first two meet on edge 2: the leg has the edges 1, 2, 3
    and 5, as it has when the first two paths come as one. *)
Lemma path_edges_merge_on_equal_id_witness :
  ∃ ms' w',
    build_trace (H := Fixture.env) Fixture.three_paths
      Fixture.three_paths_matches Fixture.route_request = Done ms' w' ∧
    ∃ leg pieces,
      req_routes w' = req_routes Fixture.route_request ++ [[leg]] ∧
      leg_edges leg = concat pieces ∧
      length pieces = length Fixture.three_paths ∧
      (∀ k p piece,
         Fixture.three_paths !! k = Some p → pieces !! k = Some piece →
         match list.last (concat (take k pieces)) with
         | None => piece = fst p
         | Some back =>
             ∃ front, head (fst p) = Some front ∧
               (pi_edgeid back = pi_edgeid front → piece = drop 1 (fst p)) ∧
               (pi_edgeid back ≠ pi_edgeid front → piece = fst p)
         end) ∧
      (∀ before p1 p2 after a b segs ms2 w2 ms2' w2',
         Fixture.three_paths = before ++ p1 :: p2 :: after →
         list.last (fst p1) = Some a →
         head (fst p2) = Some b →
         pi_edgeid a = pi_edgeid b →
         build_trace (H := Fixture.env)
           (before ++ (fst p1 ++ drop 1 (fst p2), segs) :: after)
           ms2 w2 = Done ms2' w2' →
         ∃ leg2, req_routes w2' = req_routes w2 ++ [[leg2]] ∧
                 leg_edges leg2 = leg_edges leg).
Proof.
  eexists _, _. split; [vm_compute; reflexivity|].
  eapply (path_edges_merge_on_equal_id (H := Fixture.env) Fixture.three_paths
            Fixture.three_paths_matches Fixture.route_request).
  vm_compute; reflexivity.
Defined.

(** The three paths, and the two paths they are when the first two
    come as one with edge 2 once: both runs return, and the leg has the
    same four edges. *)
Example merged_paths_run :
  ∃ ms1 w1 leg1 ms2 w2 leg2,
    build_trace (H := Fixture.env) Fixture.three_paths
      Fixture.three_paths_matches Fixture.route_request = Done ms1 w1 ∧
    req_routes w1 = [[leg1]] ∧
    build_trace (H := Fixture.env)
      [ ([Fixture.an_edge 1; Fixture.an_edge 2; Fixture.an_edge 3],
         [Fixture.a_segment 1 0 1 false; Fixture.a_segment 2 1 2 false;
          Fixture.a_segment 2 2 3 false; Fixture.a_segment 3 3 4 true]);
        ([Fixture.an_edge 5], [Fixture.a_segment 5 5 6 false]) ]
      Fixture.three_paths_matches Fixture.route_request = Done ms2 w2 ∧
    req_routes w2 = [[leg2]] ∧
    leg_edges leg1 = [Fixture.an_edge 1; Fixture.an_edge 2; Fixture.an_edge 3;
                      Fixture.an_edge 5] ∧
    leg_edges leg2 = leg_edges leg1.
Proof. eexists _, _, _, _, _, _. split_and!; vm_compute; reflexivity. Qed.

(** ** The match results across the assembly (C9) *)

Lemma erase_stamp i e ms ms' :
  stamp i e ms = Some ms' →
  set_edge_index 0 <$> ms' = set_edge_index 0 <$> ms.
Proof.
  unfold stamp, at_idx, set_idx. intros Hs.
  destruct (i <? 0)%Z; simplify_option_eq.
  rewrite list_fmap_insert. apply list_insert_id.
  rewrite list_lookup_fmap. by match goal with H : _ !! _ = Some _ |- _ => rewrite H end.
Qed.

Lemma erase_visit_segment st seg st' :
  visit_segment st seg = Some st' →
  set_edge_index 0 <$> match_results st' = set_edge_index 0 <$> match_results st.
Proof.
  unfold visit_segment. intros Hv.
  repeat (case_match; simplify_option_eq);
    repeat match goal with
           | H : stamp _ _ _ = Some _ |- _ => apply erase_stamp in H
           end; congruence.
Qed.

Lemma erase_same_but_edge_index ms ms' :
  set_edge_index 0 <$> ms' = set_edge_index 0 <$> ms →
  same_but_edge_index ms ms'.
Proof.
  intros Heq. split.
  - by rewrite <- (length_fmap (set_edge_index 0) ms'), Heq, length_fmap.
  - intros i m m' Hm Hm'.
    assert (set_edge_index 0 m' = set_edge_index 0 m) as Hmm.
    { apply (f_equal (λ l, l !! i)) in Heq.
      rewrite !list_lookup_fmap, Hm, Hm' in Heq.
      cbn [fmap option_fmap option_map] in Heq. congruence. }
    destruct m, m'. by simplify_eq/=.
Qed.

Section MatchResultsFrame.
Context `{Collaborators}.

Lemma erase_index_matches paths ms st :
  index_matches paths ms = Some st →
  set_edge_index 0 <$> match_results st = set_edge_index 0 <$> ms.
Proof.
  unfold index_matches.
  apply (for_each_invariant
           (λ s, set_edge_index 0 <$> match_results s = set_edge_index 0 <$> ms));
    [|done].
  intros s p s' Hs Hp. unfold visit_path in Hp. simplify_option_eq.
  rewrite <- Hs. 
  match goal with
  | Hseg : for_each visit_segment _ _ = Some ?s1 |- _ =>
      revert Hseg;
      apply (for_each_invariant
               (λ s0, set_edge_index 0 <$> match_results s0
                      = set_edge_index 0 <$> match_results s)); [|done]
  end.
  intros s0 x s0' Hs0 Hx. rewrite <- Hs0. by eapply erase_visit_segment.
Qed.

Lemma build_trace_frame paths ms w ms' w' :
  build_trace paths ms w = Done ms' w' → same_but_edge_index ms ms'.
Proof.
  intros (st & leg & Hst & -> & _)%build_trace_Done.
  by eapply erase_same_but_edge_index, erase_index_matches.
Qed.

(** What one turn of the loop of [map_match] appends. *)
Lemma match_one_Done kept result w kept' w' :
  match_one kept result w = Done kept' w' →
  segments result ≠ [] ∧
  ∃ ms', kept' = kept ++ [(relative_score kept result, score result, ms')] ∧
         same_but_edge_index (results result) ms' ∧
         (action (req_options w) ≠ trace_attributes → ms' = results result).
Proof.
  unfold match_one. destruct (segments result) as [|seg segs] eqn:Hsegs; [done|].
  intros Hrun. split; [done|].
  apply bind_Done in Hrun as (w0 & w1 & [= <- <-] & Hrun).
  apply bind_Done in Hrun as ([] & w2 & Hfill & Hrun).
  apply bind_Done in Hrun as (ms' & w3 & Hasm & [= <- <-]).
  exists ms'. split; [done|]. case_bool_decide as Hact.
  - split; [by eapply build_trace_frame | done].
  - apply bind_Done in Hasm as ([] & w4 & _ & [= <- <-]).
    split; [|done]. by apply erase_same_but_edge_index.
Qed.

End MatchResultsFrame.

(** C9: [build_trace] returns the match results in the same number and
    order, each equal to its input in every member other than
    [edge_index]; and a turn of [map_match] that assembles with
    [build_route] (any action other than trace_attributes) keeps the
    match results of the matcher as they are. *)
Theorem assembly_writes_edge_index_only `{Collaborators} paths ms w ms' w' :
  build_trace paths ms w = Done ms' w' →
  same_but_edge_index ms ms' ∧
  (∀ kept result w0 kept' w0',
     action (req_options w0) ≠ trace_attributes →
     match_one kept result w0 = Done kept' w0' →
     kept' = kept ++ [(relative_score kept result, score result, results result)]).
Proof.
  intros Hrun. split; [by eapply build_trace_frame|].
  intros kept result w0 kept' w0' Hact (_ & ms1 & -> & _ & Hsame)%match_one_Done.
  by rewrite Hsame.
Qed.

(** The instance of [assembly_writes_edge_index_only] for the two paths
    on the same edge. *)
Lemma assembly_writes_edge_index_only_witness :
  ∃ ms' w',
    build_trace (H := Fixture.env) Fixture.same_edge_paths
      Fixture.same_edge_matches Fixture.trace_request = Done ms' w' ∧
    same_but_edge_index Fixture.same_edge_matches ms' ∧
    (∀ kept result w0 kept' w0',
       action (req_options w0) ≠ trace_attributes →
       match_one (H := Fixture.env) kept result w0 = Done kept' w0' →
       kept' = kept ++ [(relative_score kept result, score result, results result)]).
Proof.
  eexists _, _. split; [vm_compute; reflexivity|].
  eapply (assembly_writes_edge_index_only (H := Fixture.env)
            Fixture.same_edge_paths Fixture.same_edge_matches
            Fixture.trace_request).
  vm_compute; reflexivity.
Defined.

(** ** Indexing with an [int] *)

Lemma at_idx_Some {A : Type} (l : list A) i x :
  at_idx l i = Some x ↔ (0 ≤ i)%Z ∧ l !! Z.to_nat i = Some x.
Proof.
  unfold at_idx. destruct (Z.ltb_spec i 0).
  - split; [done | intros [? _]; lia].
  - split; [by intros ? | by intros [_ ?]].
Qed.

Lemma at_idx_set_idx_eq {A : Type} (l : list A) i x y :
  at_idx l i = Some y → at_idx (set_idx l i x) i = Some x.
Proof.
  rewrite !at_idx_Some. intros [Hi Hy]. split; [done|].
  apply list_lookup_insert_eq. by eapply lookup_lt_Some.
Qed.

Lemma at_idx_set_idx_ne {A : Type} (l : list A) i k x :
  (0 ≤ i)%Z → (0 ≤ k)%Z → i ≠ k →
  at_idx (set_idx l i x) k = at_idx l k.
Proof.
  intros Hi Hk Hne. unfold at_idx, set_idx.
  destruct (k <? 0)%Z; [done|]. apply list_lookup_insert_ne. lia.
Qed.

Lemma at_idx_set_idx_is_Some {A : Type} (l : list A) i k x :
  is_Some (at_idx (set_idx l i x) k) ↔ is_Some (at_idx l k).
Proof.
  unfold at_idx, set_idx. destruct (k <? 0)%Z; [done|].
  by rewrite !lookup_lt_is_Some, length_insert.
Qed.

Lemma at_idx_set_idx {A : Type} (l : list A) i k x :
  (0 ≤ i)%Z →
  at_idx (set_idx l i x) k
  = if decide (i = k) then (λ _, x) <$> at_idx l k else at_idx l k.
Proof.
  intros Hi. case_decide as Hik.
  - subst k. destruct (at_idx l i) as [y|] eqn:Hy; simpl.
    + by eapply at_idx_set_idx_eq.
    + destruct (at_idx (set_idx l i x) i) eqn:Hx; [|done].
      assert (is_Some (at_idx l i)) as [? ?]; [|congruence].
      by eapply at_idx_set_idx_is_Some.
  - destruct (Z.ltb_spec k 0).
    + unfold at_idx. by rewrite (proj2 (Z.ltb_lt k 0)).
    + by apply at_idx_set_idx_ne.
Qed.

(** ** The multi-route assembler, path by path *)

(** The locations a leg is built with: the chain of writes through
    [origin_location] and [destination_location] (lines 360-372). *)
Lemma leg_locations (sh : list Location) o d j j' mo md lo ld l1 l2 l3 lo' ld' :
  at_idx sh o = Some lo →
  at_idx sh d = Some ld →
  let sh1 := set_idx sh o (set_shape_index j lo) in
  at_idx sh1 d = Some l1 →
  let sh2 := set_idx sh1 d (set_shape_index j' l1) in
  at_idx sh2 o = Some l2 →
  let sh3 := set_idx sh2 o (add_path_edge l2 mo) in
  at_idx sh3 d = Some l3 →
  let sh4 := set_idx sh3 d (add_path_edge l3 md) in
  at_idx sh4 o = Some lo' →
  at_idx sh4 d = Some ld' →
  loc_shape_index ld' = Some j' ∧
  (o ≠ d → loc_shape_index lo' = Some j) ∧
  loc_route_index lo' = loc_route_index lo ∧
  loc_route_index ld' = loc_route_index ld.
Proof.
  intros Ho Hd sh1 H1 sh2 H2 sh3 H3 sh4 Ho' Hd'.
  assert (0 ≤ o)%Z as Hpo by (by apply at_idx_Some in Ho as [? _]).
  assert (0 ≤ d)%Z as Hpd by (by apply at_idx_Some in Hd as [? _]).
  subst sh1 sh2 sh3 sh4.
  repeat match goal with
         | Hx : context [at_idx (set_idx _ _ _) _] |- _ =>
             rewrite at_idx_set_idx in Hx by done
         end.
  destruct (decide (o = d)) as [->|Hne].
  - rewrite !decide_True in * by done. simplify_option_eq. done.
  - rewrite ?decide_True, ?(decide_False (P := o = d)),
      ?(decide_False (P := d = o)) in * by done.
    simplify_option_eq. done.
Qed.

Section BuildRoute.
Context `{Collaborators}.

Lemma update_shape_Done i g w u w' :
  update_shape i g w = Done u w' →
  ∃ l, at_idx (shape (req_options w)) i = Some l ∧ w' = write_shape i (g l) w.
Proof.
  unfold update_shape. intros Hrun. thor_unfold Hrun.
  repeat (case_match; simplify_eq/=); eauto.
Qed.

(** A loop of writes through [mutable_shape]: the locations it visits
    have been through [g], the others are as they were. *)
Lemma update_shapes_Done g (indices : list Z) w u w' :
  for_eachM (λ _ i, update_shape i g) indices tt w = Done u w' →
  length (shape (req_options w')) = length (shape (req_options w)) ∧
  ∀ i l, at_idx (shape (req_options w')) i = Some l →
    (i ∈ indices → ∃ l0, l = g l0) ∧
    (i ∉ indices → at_idx (shape (req_options w)) i = Some l).
Proof.
  revert w. induction indices as [|i0 indices IH]; intros w Hrun; simpl in Hrun.
  - injection Hrun as <- <-. split; [done|]. intros i l Hl.
    split; [by intros ?%elem_of_nil | done].
  - apply bind_Done in Hrun as ([] & w1 & Hupd & Hrun).
    apply update_shape_Done in Hupd as (l0 & Hl0 & ->).
    apply IH in Hrun as [Hlen Hrest]. split.
    + rewrite Hlen. simpl. unfold set_idx. by rewrite length_insert.
    + intros i l Hl. destruct (Hrest i l Hl) as [Hin Hout].
      assert (0 ≤ i0)%Z by (by apply at_idx_Some in Hl0 as [? _]).
      split.
      * intros [->|Hi]%elem_of_cons; [|by auto].
        destruct (decide (i0 ∈ indices)) as [Hi|Hi]; [by auto|].
        specialize (Hout Hi). simpl in Hout.
        rewrite at_idx_set_idx, decide_True in Hout by done.
        rewrite Hl0 in Hout. simplify_eq/=. eauto.
      * intros [Hne Hi]%not_elem_of_cons. specialize (Hout Hi). simpl in Hout.
        rewrite at_idx_set_idx, decide_False in Hout by done. done.
Qed.

Lemma stamp_route_Done r o d w u w' :
  stamp_route r o d w = Done u w' →
  length (shape (req_options w')) = length (shape (req_options w)) ∧
  ∀ i l, (o ≤ i ≤ d)%Z → at_idx (shape (req_options w')) i = Some l →
         loc_route_index l = Some (Z.to_N r).
Proof.
  unfold stamp_route. intros Hrun.
  apply bind_Done in Hrun as ([] & w1 & Hloop & Hrun).
  apply update_shapes_Done in Hloop as [Hlen Hloop].
  assert (w' = w1) as ->.
  { destruct (_ && _); [done|]. by injection Hrun. }
  split; [done|]. intros i l Hi Hl.
  destruct (Hloop i l Hl) as [Hin _].
  destruct Hin as [l0 ->]; [|done].
  apply elem_of_seqZ. lia.
Qed.

Lemma stamp_route_keeps {X : Type} (f : Worker → X) r o d :
  shape_blind f → keeps (unchanged f) (stamp_route r o d).
Proof. intros Hf. unfold stamp_route. solve_keeps. Qed.

End BuildRoute.

Lemma int_succ_Some z z' :
  int_succ z = Some z' ↔ (z < INT_MAX)%Z ∧ z' = (z + 1)%Z.
Proof.
  unfold int_succ. destruct (Z.ltb_spec z INT_MAX); split.
  - by intros [= <-].
  - by intros [_ ->].
  - done.
  - intros [? _]. lia.
Qed.

Section RoutePath.
Context `{Collaborators}.

(** What one turn of the loop of [build_route] does: one leg is added
    to the open route (opened first when there is none), with the
    waypoint numbers of the turn; the path is printed. *)
Lemma route_path_Done ms vars p w vars' w' :
  route_path ms vars p w = Done vars' w' →
  let ro := from_option id (length (req_routes w)) (route vars) in
  let j := match route vars with
           | Some _ => way_point_index vars
           | None => 0%Z
           end in
  ∃ leg,
    req_routes w'
    = alter (λ legs, legs ++ [leg]) ro
        (match route vars with
         | Some _ => req_routes w
         | None => req_routes w ++ [[]]
         end) ∧
    (is_Some (route vars) → is_Some (req_routes w !! ro)) ∧
    (j < INT_MAX)%Z ∧
    (trailing_gap p = true → (route_index vars < INT_MAX)%Z) ∧
    vars' = {| way_point_index := j + 1;
               route := if trailing_gap p then None else Some ro;
               route_index := if trailing_gap p
                              then (route_index vars + 1)%Z
                              else route_index vars |} ∧
    cout w' = cout w ++ path_text p ∧
    leg_edges leg = fst p ∧
    loc_shape_index (leg_destination leg) = Some (Z.to_N (j + 1)) ∧
    (origin_idx p ≠ dest_idx p →
     loc_shape_index (leg_origin leg) = Some (Z.to_N j)) ∧
    ((origin_idx p ≤ dest_idx p)%Z →
     loc_route_index (leg_origin leg) = Some (Z.to_N (route_index vars)) ∧
     loc_route_index (leg_destination leg) = Some (Z.to_N (route_index vars))).
Proof.
  intros Hrun ro j. unfold route_path, print_path in Hrun. thor_unfold Hrun.
  repeat (case_match; simplify_eq/=).
  all: try match goal with
           | Hl : list.last _ = Some _, Hg : trailing_gap _ = _ |- _ =>
               exfalso; unfold trailing_gap in Hg; rewrite Hl in Hg; congruence
           end.
  all: match goal with
       | Hs : stamp_route _ _ _ _ = Done _ _ |- _ =>
           pose proof (keeps_Done _ _ _ _ _
                         (stamp_route_keeps req_routes _ _ _ ltac:(done)) Hs)
             as Hroutes;
           pose proof (keeps_Done _ _ _ _ _
                         (stamp_route_keeps cout _ _ _ ltac:(done)) Hs)
             as Hcout;
           apply stamp_route_Done in Hs as [Hlen Hri]
       end.
  all: unfold unchanged in Hroutes, Hcout; simpl in Hroutes, Hcout.
  all: repeat match goal with
              | Hi : int_succ _ = Some _ |- _ =>
                  apply int_succ_Some in Hi as [? ->]
              end.
  all: match goal with
       | Ho : at_idx ?sh ?o = Some ?lo, Hd : at_idx ?sh ?d = Some ?ld,
         H1 : at_idx (set_idx ?sh ?o _) ?d = Some _,
         H2 : at_idx (set_idx (set_idx ?sh ?o _) ?d _) ?o = Some _,
         H3 : at_idx (set_idx (set_idx (set_idx ?sh ?o _) ?d _) ?o _) ?d = Some _,
         Ho' : at_idx (set_idx (set_idx (set_idx (set_idx ?sh ?o _) ?d _) ?o _) ?d _) ?o = Some _,
         Hd' : at_idx (set_idx (set_idx (set_idx (set_idx ?sh ?o _) ?d _) ?o _) ?d _) ?d = Some _
         |- _ =>
           destruct (leg_locations _ _ _ _ _ _ _ _ _ _ _ _ _ _ Ho Hd H1 H2 H3 Ho' Hd')
             as (Hdest & Horigin & Hro & Hrd);
           pose proof (Hri o lo) as Hrio; pose proof (Hri d ld) as Hrid
       end.
  all: unfold trailing_gap, origin_idx, dest_idx, path_text, ro, j.
  all: repeat match goal with
              | Hx : list.head _ = Some _ |- _ => rewrite Hx
              | Hx : list.last _ = Some _ |- _ => rewrite Hx
              | Hx : route _ = _ |- _ => rewrite Hx
              | Hx : discontinuity _ = _ |- _ => rewrite Hx
              end; simpl.
  all: eexists; split_and!.
  all: try (rewrite Hroutes; done).
  all: simpl; try done.
  all: try (rewrite Hcout; simpl; by rewrite <- app_assoc).
  all: try (intros _; rewrite <- Hroutes; eauto).
  all: try (intros Hle; rewrite Hro, Hrd;
            split; [apply Hrio | apply Hrid]; (done || lia)).
Qed.

End RoutePath.

(** ** Counting gaps and legs *)

Lemma gaps_snoc ps p :
  gaps (ps ++ [p]) = gaps ps + (if trailing_gap p then 1 else 0).
Proof.
  unfold gaps. rewrite list.filter_app, length_app. f_equal.
  rewrite filter_cons, filter_nil.
  destruct (trailing_gap p); by case_decide.
Qed.

Lemma legs_since_gap_snoc ps p :
  legs_since_gap (ps ++ [p])
  = if trailing_gap p then 0 else S (legs_since_gap ps).
Proof. unfold legs_since_gap. by rewrite foldl_app. Qed.

Lemma flagged_boundaries_snoc ps p : flagged_boundaries (ps ++ [p]) = gaps ps.
Proof.
  unfold flagged_boundaries. rewrite length_app. simpl.
  replace (length ps + 1 - 1) with (length ps) by lia.
  by rewrite take_app_length.
Qed.

Lemma for_eachM_snoc {S A : Type} (body : S → A → thor S) xs x s w s' w' :
  for_eachM body (xs ++ [x]) s w = Done s' w' ↔
  ∃ s1 w1, for_eachM body xs s w = Done s1 w1 ∧ body s1 x w1 = Done s' w'.
Proof.
  rewrite for_eachM_app, bind_Done. simpl.
  split; intros (s1 & w1 & Hxs & Hx); exists s1, w1; split; try done.
  - apply bind_Done in Hx as (s2 & w2 & Hx & [= <- <-]). done.
  - apply bind_Done. eauto.
Qed.

(** ** The loop of [build_route] *)

Section BuildRouteLoop.
Context `{Collaborators}.

(** One turn of the loop, from a state that satisfies the invariant:
    the leg lands at the end of route [n0 + gaps ps]; the routes and
    legs that were there stay. *)
Lemma route_path_turn ms n0 ps vars1 w1 p vars w :
  route_loop_inv n0 ps vars1 w1 →
  route_path ms vars1 p w1 = Done vars w →
  route_loop_inv n0 (ps ++ [p]) vars w ∧
  cout w = cout w1 ++ path_text p ∧
  (∃ legs leg,
     req_routes w !! (n0 + gaps ps) = Some (legs ++ [leg]) ∧
     length legs = legs_since_gap ps ∧
     leg_numbered (gaps ps) (legs_since_gap ps) p leg) ∧
  (∀ i r, req_routes w1 !! i = Some r →
          ∃ r', req_routes w !! i = Some r' ∧ r `prefix_of` r').
Proof.
  intros (Hri & Hlen & Hroute) Hp.
  apply route_path_Done in Hp. cbv zeta in Hp.
  destruct Hp as (leg & Hroutes & Hopen & Hj & Hgap & -> & Hcout
                  & Hedges & Hdst & Horg & Hrix).
  assert (∃ legs,
            from_option id (length (req_routes w1)) (route vars1) = n0 + gaps ps ∧
            match route vars1 with
            | Some _ => way_point_index vars1
            | None => 0%Z
            end = Z.of_nat (legs_since_gap ps) ∧
            req_routes w !! (n0 + gaps ps) = Some (legs ++ [leg]) ∧
            length legs = legs_since_gap ps ∧
            length (req_routes w) = n0 + gaps ps + 1 ∧
            ∀ i r, req_routes w1 !! i = Some r →
                   ∃ r', req_routes w !! i = Some r' ∧ r `prefix_of` r')
    as (legs & Hro & Hjn & Hlast & Hlegs & Hlen' & Hgrow).
  { destruct (route vars1) as [ro|]; simpl in *.
    - destruct Hroute as (-> & Hwpi & Hl & legs & Hlk & Hlegs).
      exists legs. split_and!; try done.
      + rewrite Hroutes, list_lookup_alter_eq, Hlk. done.
      + by rewrite Hroutes, length_alter.
      + intros i r Hi. rewrite Hroutes.
        destruct (decide (i = n0 + gaps ps)) as [->|Hne].
        * rewrite list_lookup_alter_eq, Hi. simpl. eexists. split; [done|].
          by apply prefix_app_r.
        * rewrite list_lookup_alter_ne by done. eauto.
    - destruct Hroute as (Hzero & Hl). rewrite alter_new_route in Hroutes.
      exists []. split_and!; try done.
      + by rewrite Hzero.
      + rewrite Hroutes. apply list_lookup_middle. lia.
      + rewrite Hroutes, length_app. simpl. lia.
      + intros i r Hi. rewrite Hroutes. exists r. split; [|done].
        by apply lookup_app_l_Some. }
  rewrite Hro, Hjn in *. split_and!.
  - unfold route_loop_inv. rewrite gaps_snoc, legs_since_gap_snoc,
      flagged_boundaries_snoc. cbn [route_index route way_point_index].
    rewrite decide_False by (by destruct ps).
    destruct (trailing_gap p); split_and!; try lia.
    exists (legs ++ [leg]). split; [done|].
    rewrite length_app. simpl. lia.
  - done.
  - exists legs, leg. split_and!; try done. unfold leg_numbered. split_and!.
    + done.
    + rewrite Hdst. f_equal. lia.
    + intros Hne. rewrite Horg by done. f_equal. lia.
    + intros Hle. destruct (Hrix Hle) as [-> ->]. rewrite Hri.
      split; f_equal; lia.
  - done.
Qed.

Lemma build_route_loop ms ps w0 vars w :
  for_eachM (route_path ms) ps route_vars_init w0 = Done vars w →
  route_loop_inv (length (req_routes w0)) ps vars w ∧
  cout w = cout w0 ++ concat (path_text <$> ps) ∧
  ∀ k p, ps !! k = Some p →
    ∃ route leg,
      req_routes w !! (length (req_routes w0) + gaps (take k ps)) = Some route ∧
      route !! legs_since_gap (take k ps) = Some leg ∧
      leg_numbered (gaps (take k ps)) (legs_since_gap (take k ps)) p leg.
Proof.
  revert vars w. induction ps as [|p ps IH] using rev_ind; intros vars w Hrun.
  - injection Hrun as <- <-. split_and!.
    + unfold route_loop_inv. simpl. split_and!; try done; lia.
    + simpl. by rewrite app_nil_r.
    + intros k p. by rewrite lookup_nil.
  - apply for_eachM_snoc in Hrun as (vars1 & w1 & Hps & Hp).
    destruct (IH _ _ Hps) as (Hinv & Hcout & Hlegs).
    destruct (route_path_turn _ _ _ _ _ _ _ _ Hinv Hp)
      as (Hinv' & Hcout' & (legs & leg & Hlast & Hlen & Hleg) & Hgrow).
    split_and!; [done | |].
    + rewrite Hcout', Hcout, fmap_app, concat_app. simpl.
      by rewrite app_nil_r, <- app_assoc.
    + intros k p' Hk. destruct (decide (k < length ps)) as [Hlt|Hge].
      * rewrite lookup_app_l in Hk by done. rewrite take_app_le by lia.
        destruct (Hlegs k p' Hk) as (route & lg & Hroute & Hlg & Hnum).
        destruct (Hgrow _ _ Hroute) as (route' & Hroute' & Hpre).
        exists route', lg. split_and!; [done | | done].
        by eapply prefix_lookup_Some.
      * assert (k = length ps) as ->.
        { apply lookup_lt_Some in Hk. rewrite length_app in Hk. simpl in Hk. lia. }
        rewrite list_lookup_middle in Hk by done. injection Hk as <-.
        rewrite take_app_length. exists (legs ++ [leg]), leg.
        split_and!; [done | | done].
        apply list_lookup_middle. lia.
Qed.

End BuildRouteLoop.

(** ** [build_route] is defined on well-formed input *)

Section BuildRouteDefined.
Context `{Collaborators}.

Lemma update_shape_defined i g w l :
  at_idx (shape (req_options w)) i = Some l →
  update_shape i g w = Done tt (write_shape i (g l) w).
Proof.
  intros Hl. unfold update_shape.
  cbv [mbind thor_bind get_worker defined modify]. by rewrite Hl.
Qed.

Lemma update_shapes_defined g (indices : list Z) w :
  Forall (λ i, (0 ≤ i < Z.of_nat (length (shape (req_options w))))%Z) indices →
  ∃ w', for_eachM (λ _ i, update_shape i g) indices tt w = Done tt w'.
Proof.
  revert w. induction indices as [|i indices IH]; intros w Hall; simpl.
  - by eexists.
  - apply list.Forall_cons in Hall as [Hi Hall].
    destruct (at_idx (shape (req_options w)) i) as [l|] eqn:Hl.
    + rewrite bind_unfold, (update_shape_defined _ _ _ _ Hl).
      apply IH. simpl. unfold set_idx. by rewrite length_insert.
    + exfalso. unfold at_idx in Hl.
      rewrite (proj2 (Z.ltb_ge i 0)) in Hl by lia.
      apply lookup_ge_None in Hl. lia.
Qed.

Lemma stamp_route_defined r o d w :
  ((o ≤ d)%Z → (0 ≤ o)%Z ∧ (d < Z.of_nat (length (shape (req_options w))))%Z
               ∧ (d < INT_MAX)%Z) →
  ∃ w', stamp_route r o d w = Done tt w'.
Proof.
  intros Hrange. unfold stamp_route.
  destruct (update_shapes_defined
              (λ l, set_shape_index UINT32_MAX (set_route_index (Z.to_N r) l))
              (seqZ o (d - o + 1)) w) as [w' Hw'].
  { apply list.Forall_forall. intros i Hi%elem_of_seqZ. lia. }
  exists w'. rewrite bind_unfold, Hw'.
  destruct (Z.leb_spec o d); simpl; [|done].
  rewrite (proj2 (Z.leb_gt INT_MAX d)) by lia. done.
Qed.

End BuildRouteDefined.

(** ** Calls that return *)

Lemma returns_bind {A B : Type} (m : thor A) (f : A → thor B) w Q :
  returns m w (λ a w1, returns (f a) w1 Q) → returns (m ≫= f) w Q.
Proof.
  intros (a & w1 & Hm & b & w2 & Hf & HQ). exists b, w2. split; [|done].
  apply bind_Done. eauto.
Qed.

Lemma returns_ret {A : Type} (a : A) w (Q : A → Worker → Prop) :
  Q a w → returns (mret a) w Q.
Proof. intros HQ. by exists a, w. Qed.

Lemma returns_get w (Q : Worker → Worker → Prop) :
  Q w w → returns get_worker w Q.
Proof. intros HQ. by exists w, w. Qed.

Lemma returns_modify f w (Q : unit → Worker → Prop) :
  Q tt (f w) → returns (modify f) w Q.
Proof. intros HQ. by exists tt, (f w). Qed.

Lemma returns_defined {A : Type} (o : option A) w (Q : A → Worker → Prop) :
  is_Some o → (∀ a, o = Some a → Q a w) → returns (defined o) w Q.
Proof. intros [a ->] HQ. exists a, w. split; [done|]. by apply HQ. Qed.

Lemma returns_for_eachM {St A : Type} (I : nat → St → Worker → Prop)
    (body : St → A → thor St) xs s w :
  I 0 s w →
  (∀ k x s w, xs !! k = Some x → I k s w →
              returns (body s x) w (I (S k))) →
  returns (for_eachM body xs s) w (I (length xs)).
Proof.
  intros Hinit Hbody.
  assert (∀ done todo n s w,
            xs = done ++ todo → n = length done → I n s w →
            returns (for_eachM body todo s) w (I (length xs))) as Hloop.
  { intros done todo. revert done. induction todo as [|x todo IH];
      intros done n s1 w1 Hxs -> HI; simpl.
    - apply returns_ret. by rewrite Hxs, app_nil_r.
    - apply returns_bind.
      destruct (Hbody (length done) x s1 w1) as (s2 & w2 & Hx & HI2).
      { rewrite Hxs. by apply list_lookup_middle. }
      { done. }
      exists s2, w2. split; [done|].
      apply (IH (done ++ [x]) (S (length done))).
      + by rewrite <- app_assoc.
      + rewrite length_app. simpl. lia.
      + done. }
  by apply (Hloop [] xs 0).
Qed.

Lemma at_idx_in_range {A : Type} (l : list A) i :
  (0 ≤ i < Z.of_nat (length l))%Z → is_Some (at_idx l i).
Proof.
  intros Hi. unfold at_idx. rewrite (proj2 (Z.ltb_ge i 0)) by lia.
  apply lookup_lt_is_Some. lia.
Qed.

Lemma shape_len_write_shape i l w : shape_len (write_shape i l w) = shape_len w.
Proof. unfold shape_len, write_shape, set_idx. simpl. apply length_insert. Qed.

Section Returns.
Context `{Collaborators}.

Lemma returns_read_shape i w (Q : Location → Worker → Prop) :
  (0 ≤ i < Z.of_nat (shape_len w))%Z →
  (∀ l, Q l w) →
  returns (read_shape i) w Q.
Proof.
  intros Hi HQ. unfold read_shape.
  apply returns_bind, returns_get, returns_defined; [|done].
  by apply at_idx_in_range.
Qed.

Lemma returns_update_shape i g w (Q : unit → Worker → Prop) :
  (0 ≤ i < Z.of_nat (shape_len w))%Z →
  (∀ l, Q tt (write_shape i l w)) →
  returns (update_shape i g) w Q.
Proof.
  intros Hi HQ. unfold update_shape.
  apply returns_bind, returns_get, returns_bind, returns_defined.
  - by apply at_idx_in_range.
  - intros l _. by apply returns_modify.
Qed.

Lemma returns_stamp_route r o d w (Q : unit → Worker → Prop) :
  ((o ≤ d)%Z → (0 ≤ o)%Z ∧ (d < Z.of_nat (shape_len w))%Z ∧ (d < INT_MAX)%Z) →
  (∀ w', shape_len w' = shape_len w → req_routes w' = req_routes w → Q tt w') →
  returns (stamp_route r o d) w Q.
Proof.
  intros Hrange HQ. destruct (stamp_route_defined r o d w Hrange) as [w' Hw'].
  exists tt, w'. split; [done|]. apply HQ.
  - by apply stamp_route_Done in Hw' as [? _].
  - by apply (keeps_Done _ _ _ _ _ (stamp_route_keeps req_routes r o d ltac:(done))) in Hw'.
Qed.

Lemma returns_add_route w (Q : nat → Worker → Prop) :
  Q (length (req_routes w)) (set_routes (req_routes w ++ [[]]) w) →
  returns add_route w Q.
Proof.
  intros HQ. unfold add_route.
  apply returns_bind, returns_get, returns_bind, returns_modify, returns_ret.
  done.
Qed.

Lemma returns_add_leg route leg w (Q : unit → Worker → Prop) :
  is_Some (req_routes w !! route) →
  Q tt (set_routes (alter (λ legs, legs ++ [leg]) route (req_routes w)) w) →
  returns (add_leg route leg) w Q.
Proof.
  intros Hroute HQ. unfold add_leg.
  apply returns_bind, returns_get, returns_bind, returns_defined; [done|].
  intros legs _. by apply returns_modify.
Qed.

End Returns.

Lemma returns_mono {A : Type} (m : thor A) w (Q Q' : A → Worker → Prop) :
  returns m w Q → (∀ a w', Q a w' → Q' a w') → returns m w Q'.
Proof. intros (a & w' & Hm & HQ) HQQ'. exists a, w'. auto. Qed.

Ltac returns_step :=
  match goal with
  | |- returns (_ ≫= _) _ _ => apply returns_bind
  | |- returns (mret _) _ _ => apply returns_ret
  | |- returns get_worker _ _ => apply returns_get
  | |- returns (modify _) _ _ => apply returns_modify
  | |- returns (read_shape _) _ _ => apply returns_read_shape; [|intros ?]
  | |- returns (update_shape _ _) _ _ => apply returns_update_shape; [|intros ?]
  | |- returns (stamp_route _ _ _) _ _ =>
      apply returns_stamp_route; [|intros ? ? ?]
  | |- returns add_route _ _ => apply returns_add_route
  | |- returns (add_leg _ _) _ _ => apply returns_add_leg
  | |- returns (defined _) _ _ => apply returns_defined; [|intros ? ?]
  | |- returns (if ?b then _ else _) _ _ => destruct b eqn:?
  end.

Section RoutePathReturns.
Context `{Collaborators}.

(** A turn of the loop of [build_route] returns when the path is in
    range and the counters are below [INT_MAX]. *)
Lemma route_path_returns ms vars p w n k :
  path_in_range n p = true →
  (n ≤ Z.of_nat (length ms))%Z →
  (n ≤ Z.of_nat (shape_len w))%Z →
  (n ≤ INT_MAX)%Z →
  (k < INT_MAX)%Z →
  (0 ≤ way_point_index vars ≤ k)%Z →
  (0 ≤ route_index vars ≤ k)%Z →
  (∀ ro, route vars = Some ro → is_Some (req_routes w !! ro)) →
  returns (route_path ms vars p) w
    (λ vars' w',
       shape_len w' = shape_len w ∧
       (0 ≤ way_point_index vars' ≤ k + 1)%Z ∧
       (0 ≤ route_index vars' ≤ k + 1)%Z ∧
       (∀ ro, route vars' = Some ro → is_Some (req_routes w' !! ro))).
Proof.
  unfold path_in_range. intros Hp Hms Hsh Hn Hk Hwpi Hri Hroute.
  destruct (list.head p.2) as [fs|] eqn:Hhead; [|done].
  destruct (list.last p.2) as [ls|] eqn:Hlast; [|done].
  apply andb_prop in Hp as [[[Ho1 Ho2]%andb_prop Hd1]%andb_prop Hd2].
  apply Z.leb_le in Ho1, Hd1. apply Z.ltb_lt in Ho2, Hd2.
  unfold route_path, print_path.
  apply returns_bind, returns_modify, returns_bind.
  set (w0 := write_cout _ w).
  apply (returns_mono _ _
           (λ a w1, shape_len w1 = shape_len w ∧
                    req_routes w1 = req_routes w1 ∧
                    is_Some (req_routes w1 !! a.1) ∧
                    (0 ≤ a.2 ≤ k)%Z)).
  { destruct (route vars) as [ro|] eqn:Hro.
    - apply returns_ret. split_and!; simpl; try done; try lia. by apply Hroute.
    - apply returns_bind, returns_add_route, returns_ret.
      split_and!; simpl; try done; try lia.
      rewrite list_lookup_middle; done. }
  intros [ro j] w1 (Hlen1 & _ & Hr1 & Hj1). simpl in Hr1, Hj1.
  repeat returns_step.
  all: rewrite ?shape_len_write_shape in *.
  all: repeat match goal with
              | Hx : int_succ _ = Some _ |- _ =>
                  apply int_succ_Some in Hx as [? ->]
              end.
  all: simplify_eq/=.
  all: try (rewrite ?Hhead, ?Hlast; by eauto).
  all: try lia.
  all: try (apply at_idx_in_range; lia).
  all: try (eexists; apply int_succ_Some; split; [lia | done]).
  all: try congruence.
  all: split_and!; try lia.
  all: try (unfold shape_len in *; simpl; unfold set_idx;
            rewrite !length_insert; congruence).
  all: intros ro0 [= <-]. rewrite list_lookup_alter_eq.
  match goal with Hx : req_routes _ = req_routes w1 |- _ => rewrite Hx end.
  destruct Hr1 as [legs ->]. by eexists.
Qed.

Lemma build_route_returns paths ms w :
  route_input_ok paths ms w = true →
  ∃ w', build_route paths ms w = Done tt w'.
Proof.
  unfold route_input_ok.
  intros [[Hpaths Hlen%Z.leb_le]%andb_prop Hshape%Z.leb_le]%andb_prop.
  set (n := (Z.of_nat (length ms) `min` Z.of_nat (shape_len w))%Z) in *.
  destruct (returns_for_eachM
              (λ k vars w',
                 shape_len w' = shape_len w ∧
                 (0 ≤ way_point_index vars ≤ Z.of_nat k)%Z ∧
                 (0 ≤ route_index vars ≤ Z.of_nat k)%Z ∧
                 (∀ ro, route vars = Some ro → is_Some (req_routes w' !! ro)))
              (route_path ms) paths route_vars_init w)
    as (vars & w' & Hrun & _).
  - split_and!; simpl; done.
  - intros k p vars w1 Hk (Hsh & Hwpi & Hri & Hroute).
    assert (path_in_range n p = true) as Hp.
    { rewrite forallb_forall in Hpaths. apply Hpaths, list_elem_of_In.
      by eapply list_elem_of_lookup_2. }
    apply lookup_lt_Some in Hk.
    eapply returns_mono.
    + apply (route_path_returns ms vars p w1 n (Z.of_nat k));
        try done; try lia. unfold shape_len in *. lia.
    + intros vars' w2 (Hsh' & Hwpi' & Hri' & Hroute').
      split_and!; try done; try lia; congruence.
  - exists w'. unfold build_route. apply bind_Done. by exists vars, w'.
Qed.

End RoutePathReturns.

(** ** Route splitting and the output of [build_route] (C5, C10) *)

(** C5: on paths that are in range, [build_route] returns; it appends
    one route more than there are flagged boundaries between the paths;
    the leg of the [k]-th path is in the route whose number is the
    number of flagged paths before it ([route_index], one more after
    each flagged path), at the position that counts the paths since the
    last flagged one (0 when a route opens), and its origin and
    destination carry that position and the next one as waypoint
    numbers. *)
Theorem route_splitting `{Collaborators} paths ms w :
  paths ≠ [] →
  route_input_ok paths ms w = true →
  ∃ w',
    build_route paths ms w = Done tt w' ∧
    length (req_routes w')
    = length (req_routes w) + S (flagged_boundaries paths) ∧
    ∀ k p, paths !! k = Some p →
      ∃ route leg,
        req_routes w' !! (length (req_routes w) + gaps (take k paths))
        = Some route ∧
        route !! legs_since_gap (take k paths) = Some leg ∧
        leg_numbered (gaps (take k paths)) (legs_since_gap (take k paths)) p leg.
Proof.
  intros Hne Hok. destruct (build_route_returns paths ms w Hok) as [w' Hrun].
  exists w'. split; [done|]. unfold build_route in Hrun.
  apply bind_Done in Hrun as (vars & w1 & Hloop & [= <-]).
  apply build_route_loop in Hloop as ((_ & Hlen & _) & _ & Hlegs).
  split; [|done]. by rewrite decide_False in Hlen.
Qed.

(** The instance of [route_splitting] for three paths with a gap after
    the second. *)
Lemma route_splitting_witness :
  ∃ w',
    build_route (H := Fixture.env) Fixture.three_paths
      Fixture.three_paths_matches Fixture.route_request = Done tt w' ∧
    length (req_routes w')
    = length (req_routes Fixture.route_request)
      + S (flagged_boundaries Fixture.three_paths) ∧
    ∀ k p, Fixture.three_paths !! k = Some p →
      ∃ route leg,
        req_routes w' !! (length (req_routes Fixture.route_request)
                          + gaps (take k Fixture.three_paths))
        = Some route ∧
        route !! legs_since_gap (take k Fixture.three_paths) = Some leg ∧
        leg_numbered (gaps (take k Fixture.three_paths))
          (legs_since_gap (take k Fixture.three_paths)) p leg.
Proof.
  apply (route_splitting (H := Fixture.env) Fixture.three_paths
           Fixture.three_paths_matches Fixture.route_request);
    [discriminate | vm_compute; reflexivity].
Defined.

(** C10: on paths that are in range, [build_route] returns and has
    written to the standard output, for every path in order, the line
    "Path:", one line per edge of the path, the line "EdgeSegments:",
    one line per segment and an empty line. *)
Theorem build_route_prints_paths `{Collaborators} paths ms w :
  route_input_ok paths ms w = true →
  ∃ w',
    build_route paths ms w = Done tt w' ∧
    cout w' = cout w ++ concat (path_text <$> paths).
Proof.
  intros Hok. destruct (build_route_returns paths ms w Hok) as [w' Hrun].
  exists w'. split; [done|]. unfold build_route in Hrun.
  apply bind_Done in Hrun as (vars & w1 & Hloop & [= <-]).
  by apply build_route_loop in Hloop as (_ & Hcout & _).
Qed.

(** The instance of [build_route_prints_paths] for the three paths. *)
Lemma build_route_prints_paths_witness :
  ∃ w',
    build_route (H := Fixture.env) Fixture.three_paths
      Fixture.three_paths_matches Fixture.route_request = Done tt w' ∧
    cout w' = cout Fixture.route_request
              ++ concat (path_text (H := Fixture.env) <$> Fixture.three_paths).
Proof.
  apply (build_route_prints_paths (H := Fixture.env) Fixture.three_paths
           Fixture.three_paths_matches Fixture.route_request).
  vm_compute; reflexivity.
Defined.

(** ** The loop of [map_match] (C8, C4) *)

Section MapMatch.
Context `{Collaborators}.

Lemma map_match_unfold w :
  map_match w
  = match trace w with
    | [] => Done [] (note_call MapMatch w)
    | _ => for_eachM match_one (ranked_interpretations w) []
             (note_call MapMatch w)
    end.
Proof.
  unfold map_match, ranked_interpretations. rewrite bind_unfold. simpl.
  rewrite bind_unfold. simpl. by destruct (trace w).
Qed.

(** The tuples kept after the loop, against the interpretations. *)
Lemma match_loop interps w rs w' :
  for_eachM match_one interps [] w = Done rs w' →
  length rs = length interps ∧
  ∀ i r t, interps !! i = Some r → rs !! i = Some t →
    raw_score t = score r ∧
    same_but_edge_index (results r) (tuple_results t) ∧
    confidence_score t = relative_score (take i rs) r.
Proof.
  revert rs w'. induction interps as [|r interps IH] using rev_ind;
    intros rs w' Hrun.
  - injection Hrun as <- <-. split; [done|]. intros i r t. by rewrite lookup_nil.
  - apply for_eachM_snoc in Hrun as (rs1 & w1 & Hloop & Hone).
    destruct (IH _ _ Hloop) as [Hlen Hrs1].
    apply match_one_Done in Hone as (_ & ms' & -> & Hsame & _).
    split; [rewrite !length_app; simpl; lia|].
    intros i r' t Hr' Ht. destruct (decide (i < length interps)) as [Hlt|Hge].
    + rewrite lookup_app_l in Hr' by done.
      rewrite lookup_app_l in Ht by lia.
      rewrite take_app_le by lia. by apply Hrs1.
    + assert (i = length interps) as ->.
      { apply lookup_lt_Some in Hr'. rewrite length_app in Hr'. simpl in Hr'. lia. }
      rewrite list_lookup_middle in Hr' by done.
      rewrite list_lookup_middle in Ht by done. simplify_eq.
      rewrite <- Hlen, take_app_length. done.
Qed.

Lemma relative_score_first r : relative_score [] r = Float32.one.
Proof. done. Qed.

Lemma relative_score_later rs t i r :
  rs !! 0 = Some t → i ≠ 0 →
  relative_score (take i rs) r = Float32.div (raw_score t) (score r).
Proof. destruct rs, i; naive_solver. Qed.

End MapMatch.

(** C8: when [map_match] returns for a trace that is not empty, it
    returns one tuple per ranked interpretation, in rank order; each
    holds the raw score of its interpretation and its match results (as
    the assembly left them); the confidence score of the first is 1.0
    and that of every later one is the raw score of the best
    interpretation divided by its own. *)
Theorem relative_scores `{Collaborators} w rs w' :
  trace w ≠ [] →
  map_match w = Done rs w' →
  length rs = length (ranked_interpretations w) ∧
  ∀ i r t, ranked_interpretations w !! i = Some r → rs !! i = Some t →
    raw_score t = score r ∧
    same_but_edge_index (results r) (tuple_results t) ∧
    (i = 0 → confidence_score t = Float32.one) ∧
    (∀ best, i ≠ 0 → ranked_interpretations w !! 0 = Some best →
             confidence_score t = Float32.div (score best) (score r)).
Proof.
  intros Htrace Hrun. rewrite map_match_unfold in Hrun.
  destruct (trace w) as [|? ?] eqn:Ht; [done|].
  apply match_loop in Hrun as [Hlen Hrs]. split; [done|].
  intros i r t Hr Hi. destruct (Hrs i r t Hr Hi) as (Hraw & Hsame & Hconf).
  split_and!; [done | done | |].
  - intros ->. by rewrite Hconf.
  - intros best Hne Hbest.
    destruct (rs !! 0) as [t0|] eqn:Ht0.
    + rewrite Hconf, (relative_score_later rs t0) by done.
      by destruct (Hrs 0 best t0 Hbest Ht0) as (-> & _).
    + apply lookup_ge_None in Ht0. apply lookup_lt_Some in Hbest. lia.
Qed.

(** The instance of [relative_scores] for two ranked interpretations. *)
Lemma relative_scores_witness :
  ∃ rs w',
    map_match (H := Fixture.two_matches_env) Fixture.two_best_request
    = Done rs w' ∧
    length rs
    = length (ranked_interpretations (H := Fixture.two_matches_env)
                Fixture.two_best_request) ∧
    ∀ i r t,
      ranked_interpretations (H := Fixture.two_matches_env)
        Fixture.two_best_request !! i = Some r →
      rs !! i = Some t →
      raw_score t = score r ∧
      same_but_edge_index (results r) (tuple_results t) ∧
      (i = 0 → confidence_score t = Float32.one) ∧
      (∀ best, i ≠ 0 →
               ranked_interpretations (H := Fixture.two_matches_env)
                 Fixture.two_best_request !! 0 = Some best →
               confidence_score t = Float32.div (score best) (score r)).
Proof.
  eexists _, _. split; [vm_compute; reflexivity|].
  eapply (relative_scores (H := Fixture.two_matches_env)
            Fixture.two_best_request).
  - discriminate.
  - vm_compute; reflexivity.
Defined.

(** C4 (amended): when a ranked interpretation has no segment,
    [map_match] does not return; if the interpretations ranked before it
    have been assembled, it throws [std::exception] in the state they
    left, with the routes appended for them; when the interpretation
    without segment is the best one, the request is as it was at the
    call. *)
Theorem no_path_fails `{Collaborators} w before r after :
  trace w ≠ [] →
  ranked_interpretations w = before ++ r :: after →
  segments r = [] →
  (∀ rs w', map_match w ≠ Done rs w') ∧
  (∀ kept w1,
     for_eachM match_one before [] (note_call MapMatch w) = Done kept w1 →
     map_match w = Thrown std_exception w1) ∧
  (before = [] →
   ∃ w', map_match w = Thrown std_exception w' ∧
         req_routes w' = req_routes w ∧ req_options w' = req_options w).
Proof.
  intros Htrace Hinterps Hsegs. rewrite map_match_unfold, Hinterps.
  destruct (trace w) as [|? ?] eqn:Ht; [done|].
  assert (∀ kept w1, match_one kept r w1 = Thrown std_exception w1) as Hr.
  { intros kept w1. unfold match_one. by rewrite Hsegs. }
  split_and!.
  - intros rs w' Hrun. rewrite for_eachM_app in Hrun.
    apply bind_Done in Hrun as (kept & w1 & _ & Hrun). simpl in Hrun.
    rewrite bind_unfold, Hr in Hrun. done.
  - intros kept w1 Hbefore. rewrite for_eachM_app, bind_unfold, Hbefore.
    simpl. by rewrite bind_unfold, Hr.
  - intros ->. simpl. rewrite bind_unfold, Hr. by eexists.
Qed.

(** The instances of [no_path_fails] for a best interpretation followed
    by one without segment, where the throw leaves the state in which
    the first one was assembled, and for an interpretation without
    segment that is the best one, where the trip and the options are as
    they were at the call. *)
Lemma no_path_fails_witness :
  ((∀ rs w',
      map_match (H := Fixture.no_path_env) Fixture.two_best_request
      ≠ Done rs w') ∧
   (∀ kept w1,
      for_eachM (match_one (H := Fixture.no_path_env))
        [Fixture.good_interpretation] []
        (note_call MapMatch Fixture.two_best_request) = Done kept w1 →
      map_match (H := Fixture.no_path_env) Fixture.two_best_request
      = Thrown std_exception w1) ∧
   ([Fixture.good_interpretation] = [] →
    ∃ w', map_match (H := Fixture.no_path_env) Fixture.two_best_request
          = Thrown std_exception w' ∧
          req_routes w' = req_routes Fixture.two_best_request ∧
          req_options w' = req_options Fixture.two_best_request)) ∧
  ∃ w', map_match (H := Fixture.no_match_env) Fixture.map_snap_request
        = Thrown std_exception w' ∧
        req_routes w' = req_routes Fixture.map_snap_request ∧
        req_options w' = req_options Fixture.map_snap_request.
Proof.
  split.
  - apply (no_path_fails (H := Fixture.no_path_env) Fixture.two_best_request
             [Fixture.good_interpretation] Fixture.empty_interpretation []);
      [discriminate | reflexivity | reflexivity].
  - apply (no_path_fails (H := Fixture.no_match_env) Fixture.map_snap_request
             [] Fixture.empty_interpretation []);
      [discriminate | reflexivity | reflexivity | reflexivity].
Defined.

(** C4, as stated, fails: the matcher returns a usable interpretation
    followed by one without segment; [map_match] throws, and at the
    throw the trip holds the route appended for the first
    interpretation. *)
Lemma route_appended_before_no_path :
  segments Fixture.empty_interpretation = [] ∧
  Fixture.empty_interpretation
    ∈ ranked_interpretations (H := Fixture.no_path_env) Fixture.two_best_request ∧
  ∃ w' leg,
    map_match (H := Fixture.no_path_env) Fixture.two_best_request
    = Thrown std_exception w' ∧
    req_routes Fixture.two_best_request = [] ∧
    req_routes w' = [[leg]].
Proof.
  split_and!; [reflexivity | |].
  - vm_compute. apply list_elem_of_In. right. by left.
  - eexists _, _. split_and!; vm_compute; reflexivity.
Qed.

(** ** The strategy dispatcher (C6) *)

Section Dispatcher.
Context `{Collaborators}.

(** The strategy switch of [trace_route] (lines 74-109). *)
Lemma trace_route_parsed w0 w :
  parsed w0 w →
  trace_route w0
  = (match shape_match (req_options w) with
     | edge_walk =>
         try_catch route_match
           (name ← shape_match_name;
            throw (valhalla_exception_t 443
                     (Some (String.append name edge_walk_failed_text))))
     | map_snap =>
         try_catch (map_match;; mret tt)
           (throw (valhalla_exception_t 442 None))
     | walk_or_snap =>
         try_catch route_match
           (name ← shape_match_name;
            modify (write_warning (String.append name fallback_text));;
            try_catch (map_match;; mret tt)
              (throw (valhalla_exception_t 442 None)))
     end;; log_admins) w.
Proof.
  unfold parsed. intros Hp.
  apply bind_Done in Hp as ([] & w1 & H1 & Hp).
  apply bind_Done in Hp as ([] & w2 & H2 & Hp).
  apply bind_Done in Hp as ([] & w3 & H3 & H4).
  unfold trace_route.
  rewrite bind_unfold, H1, bind_unfold, H2, bind_unfold, H3, bind_unfold, H4.
  done.
Qed.

Lemma log_admins_Done w : ∃ w', log_admins w = Done tt w'.
Proof.
  unfold log_admins. rewrite bind_unfold. simpl.
  destruct (do_not_track (req_options w)); by eexists.
Qed.



End Dispatcher.

Section DispatcherClaims.
Context `{Collaborators}.


Lemma log_admins_not_Thrown w e w' : log_admins w ≠ Thrown e w'.
Proof. destruct (log_admins_Done w) as [w1 ->]. done. Qed.

End DispatcherClaims.

Section TraceRouteOutcome.
Context `{Collaborators}.

(** The outcome of [trace_route] on a parsed request, by the outcomes of
    the two strategies. *)
Lemma trace_route_outcome w0 w :
  parsed w0 w →
  trace_route w0
  = match shape_match (req_options w) with
    | edge_walk =>
        match route_match w with
        | Done _ w1 => log_admins w1
        | Thrown _ w1 => Thrown (edge_walk_error w1) w1
        | Undefined => Undefined
        end
    | map_snap =>
        match map_match w with
        | Done _ w1 => log_admins w1
        | Thrown _ w1 => Thrown (valhalla_exception_t 442 None) w1
        | Undefined => Undefined
        end
    | walk_or_snap =>
        match route_match w with
        | Done _ w1 => log_admins w1
        | Thrown _ w1 =>
            match map_match (write_warning (fallback_warning w1) w1) with
            | Done _ w2 => log_admins w2
            | Thrown _ w2 => Thrown (valhalla_exception_t 442 None) w2
            | Undefined => Undefined
            end
        | Undefined => Undefined
        end
    end.
Proof.
  intros Hparsed. rewrite (trace_route_parsed w0 w Hparsed).
  destruct (shape_match (req_options w));
    cbv [mbind thor_bind try_catch mret thor_ret throw shape_match_name
         get_worker modify edge_walk_error fallback_warning].
  - by destruct (route_match w) as [[] ?| |].
  - by destruct (map_match w).
  - destruct (route_match w) as [[] ?|? w1|]; try done.
    by destruct (map_match _).
Qed.

End TraceRouteOutcome.

Lemma map_match_keeps `{Collaborators} {X : Type} (f : Worker → X) :
  shape_blind f → routes_blind f → cout_blind f → call_blind f →
  keeps (unchanged f) map_match.
Proof.
  intros Hshape Hroutes Hcout Hcall w. rewrite map_match_unfold.
  destruct (trace w); [apply Hcall|].
  pose proof (keeps_for_eachM (unchanged f) match_one
                (ranked_interpretations w)
                (λ kept r, match_one_keeps f Hshape Hroutes Hcout kept r)
                [] (note_call MapMatch w)) as Hloop.
  destruct (for_eachM _ _ _ _); [| |done];
    unfold unchanged in *; by rewrite Hloop, Hcall.
Qed.



(** ** The stamp of a segment, in general (C1) *)

(** A segment is stamped with the counter as the previous segment left
    it; the comparison of its identifier with the previous one moves the
    counter for the next segment only. *)
Lemma visit_segment_stamps st seg st' :
  visit_segment st seg = Some st' →
  (∀ m, (0 ≤ first_match_idx seg)%Z →
        at_idx (match_results st') (first_match_idx seg) = Some m →
        mr_edge_index m = edge_index st) ∧
  (∀ m, (0 ≤ last_match_idx seg)%Z →
        at_idx (match_results st') (last_match_idx seg) = Some m →
        mr_edge_index m = edge_index st) ∧
  last_id st' = seg_edgeid seg ∧
  edge_index st' = if decide (last_id st = seg_edgeid seg)
                   then edge_index st
                   else size_t_succ (edge_index st).
Proof.
  unfold visit_segment, stamp. intros Hv.
  destruct (Z.leb_spec 0 (first_match_idx seg)) as [Hf|Hf];
    destruct (Z.leb_spec 0 (last_match_idx seg)) as [Hl|Hl];
    simplify_option_eq; (split_and!; [| |done..]); intros m Hpos Hm;
    try lia;
    repeat match goal with
           | Hx : context [at_idx (set_idx _ _ _) _] |- _ =>
               rewrite at_idx_set_idx in Hx by done
           end;
    repeat case_decide; simplify_option_eq; done.
Qed.

(** Two consecutive segments on the same edge, the first of which is on
    another edge than its predecessor, get two different stamps: the
    second one carries the increment made for the first. *)
Lemma same_edge_segments_stamps st s1 st1 s2 st2 m1 m2 :
  visit_segment st s1 = Some st1 →
  visit_segment st1 s2 = Some st2 →
  last_id st ≠ seg_edgeid s1 →
  seg_edgeid s2 = seg_edgeid s1 →
  (0 ≤ first_match_idx s1)%Z →
  (0 ≤ first_match_idx s2)%Z →
  at_idx (match_results st1) (first_match_idx s1) = Some m1 →
  at_idx (match_results st2) (first_match_idx s2) = Some m2 →
  mr_edge_index m1 = edge_index st ∧
  mr_edge_index m2 = size_t_succ (edge_index st) ∧
  edge_index st2 = size_t_succ (edge_index st).
Proof.
  intros H1 H2 Hnew Hsame Hp1 Hp2 Hm1 Hm2.
  destruct (visit_segment_stamps _ _ _ H1) as (Hs1 & _ & Hid1 & Hc1).
  destruct (visit_segment_stamps _ _ _ H2) as (Hs2 & _ & _ & Hc2).
  rewrite decide_False in Hc1 by done.
  rewrite decide_True in Hc2 by congruence.
  split_and!; [by apply Hs1 | by rewrite (Hs2 m2), Hc1 | congruence].
Qed.

(** ** Runs of the dispatcher *)

(** An edge walk that finds no path: error 443 and its text; the
    matcher is not asked. *)
Example edge_walk_without_path :
  trace_route (H := Fixture.no_match_env) Fixture.edge_walk_request
  = Thrown
      (valhalla_exception_t 443
         (Some "edge_walk algorithm failed to find exact route match.  Try using shape_match:'walk_or_snap' to fallback to map-matching algorithm"%string))
      (note_call RouteMatch Fixture.edge_walk_request).
Proof. reflexivity. Qed.

(** A map match whose interpretation has no segment: error 442, and the
    trip is as it was. *)
Example map_snap_without_path :
  trace_route (H := Fixture.no_match_env) Fixture.map_snap_request
  = Thrown (valhalla_exception_t 442 None)
      (note_call MapMatch Fixture.map_snap_request).
Proof. reflexivity. Qed.

(** An edge walk that finds a path: one route of one leg between the
    first and the last location of the request. *)
Example edge_walk_with_path :
  ∃ w',
    trace_route (H := Fixture.collaborators [] (Some [Fixture.an_edge 7]))
      Fixture.edge_walk_request = Done tt w' ∧
    req_routes w'
    = [[ {| leg_edges := [Fixture.an_edge 7];
            leg_origin := Fixture.a_location;
            leg_destination := Fixture.a_location;
            leg_discontinuities := None |} ]] ∧
    called w' = [RouteMatch].
Proof. eexists. split_and!; reflexivity. Qed.

(** The relative scores of two interpretations with raw scores 1 and 2:
    1 and 1/2. *)
Example relative_scores_one_and_half :
  ∃ rs w',
    map_match (H := Fixture.two_matches_env) Fixture.two_best_request
    = Done rs w' ∧
    confidence_score <$> rs
    = [Float32.one; S754_finite false 8388608 (-24)] ∧
    length (req_routes w') = 2.
Proof. eexists _, _. split_and!; vm_compute; reflexivity. Qed.

(** * The loops of [build_trace], segment by segment *)

Lemma for_each_cons {S A : Type} (body : S → A → option S) x xs s :
  for_each body (x :: xs) s = s' ← body s x; for_each body xs s'.
Proof. done. Qed.

Lemma elem_of_concat {A : Type} (x : A) (ls : list (list A)) :
  x ∈ concat ls ↔ ∃ l, x ∈ l ∧ l ∈ ls.
Proof.
  induction ls as [|l0 ls IH]; simpl.
  - split; [by intros ?%elem_of_nil | by intros (? & _ & ?%elem_of_nil)].
  - rewrite elem_of_app, IH. split.
    + intros [?|(l & ? & ?)]; [exists l0; split; [done | left]|].
      exists l. split; [done | by right].
    + intros (l & Hx & [->|Hl]%elem_of_cons); [by left | right; eauto].
Qed.

(** The segment loop does not read the discontinuity map. *)
Lemma visit_segment_with rd st seg :
  visit_segment (with_discontinuities rd st) seg
  = with_discontinuities rd <$> visit_segment st seg.
Proof.
  unfold visit_segment. simpl.
  destruct (0 <=? first_match_idx seg)%Z; simpl.
  - destruct (stamp _ _ _) as [ms1|]; simpl; [|done].
    destruct (0 <=? last_match_idx seg)%Z; simpl; [|done].
    by destruct (stamp _ _ _).
  - destruct (0 <=? last_match_idx seg)%Z; simpl; [|done].
    by destruct (stamp _ _ _).
Qed.

Lemma visit_segments_with rd segs st :
  for_each visit_segment segs (with_discontinuities rd st)
  = with_discontinuities rd <$> for_each visit_segment segs st.
Proof.
  revert st. induction segs as [|seg segs IH]; intros st; simpl; [done|].
  rewrite visit_segment_with.
  destruct (visit_segment st seg) as [st1|]; simpl; [|done]. apply IH.
Qed.

Section SegmentsOfAllPaths.
Context `{Collaborators}.

Lemma visit_path_segments st p st' :
  visit_path st p = Some st' →
  ∃ st1, for_each visit_segment (snd p) st = Some st1 ∧
         st' = with_discontinuities (route_discontinuities st') st1.
Proof.
  unfold visit_path. intros Hv. simplify_option_eq. by eexists.
Qed.

(** The loop over the paths is, for everything but the discontinuity
    map, one loop over the segments of all paths. *)
Lemma visit_paths_segments paths st st' :
  for_each visit_path paths st = Some st' →
  ∃ st1, for_each visit_segment (all_segments paths) st = Some st1 ∧
         st' = with_discontinuities (route_discontinuities st') st1.
Proof.
  revert st. induction paths as [|p paths IH]; intros st Hrun; simpl in Hrun.
  - simplify_eq. exists st'. split; [done|]. by destruct st'.
  - destruct (visit_path st p) as [sp|] eqn:Hp; simplify_eq/=.
    apply visit_path_segments in Hp as (s1 & Hs1 & Hsp).
    apply IH in Hrun as (s2 & Hs2 & Hst').
    rewrite Hsp, visit_segments_with in Hs2.
    destruct (for_each visit_segment (all_segments paths) s1) as [s3|] eqn:Hs3;
      simplify_eq/=.
    exists s3. split.
    + unfold all_segments. simpl. by rewrite for_each_app, Hs1.
    + by rewrite Hst'.
Qed.

End SegmentsOfAllPaths.

(** What a segment does to the local variables of the loop. *)
Lemma visit_segment_vars st seg st' :
  visit_segment st seg = Some st' →
  origin_match st' = (if (0 <=? first_match_idx seg)%Z
                      then remember (origin_match st) (first_match_idx seg)
                      else origin_match st) ∧
  dest_match st' = (if (0 <=? last_match_idx seg)%Z
                    then remember (dest_match st) (last_match_idx seg)
                    else dest_match st) ∧
  last_id st' = seg_edgeid seg ∧
  edge_index st' = (if decide (last_id st = seg_edgeid seg)
                    then edge_index st else size_t_succ (edge_index st)) ∧
  length (match_results st') = length (match_results st).
Proof.
  unfold visit_segment, stamp, set_idx. intros Hv.
  destruct (0 <=? first_match_idx seg)%Z, (0 <=? last_match_idx seg)%Z;
    simplify_option_eq; rewrite ?length_insert; done.
Qed.

(** A segment leaves the matches it does not point at as they are. *)
Lemma visit_segment_frame st seg st' i :
  visit_segment st seg = Some st' →
  i ≠ first_match_idx seg → i ≠ last_match_idx seg →
  at_idx (match_results st') i = at_idx (match_results st) i.
Proof.
  unfold visit_segment, stamp. intros Hv Hf Hl.
  destruct (Z.leb_spec 0 (first_match_idx seg)),
           (Z.leb_spec 0 (last_match_idx seg));
    simplify_option_eq; rewrite ?at_idx_set_idx by done;
    rewrite ?decide_False by done; done.
Qed.

Lemma visit_segments_frame segs st st' i :
  for_each visit_segment segs st = Some st' →
  Forall (λ s, i ≠ first_match_idx s ∧ i ≠ last_match_idx s) segs →
  at_idx (match_results st') i = at_idx (match_results st) i.
Proof.
  revert st. induction segs as [|seg segs IH]; intros st Hrun Hall;
    simpl in Hrun; [by simplify_eq|].
  destruct (visit_segment st seg) as [st1|] eqn:Hseg; simplify_eq/=.
  apply list.Forall_cons in Hall as [[Hf Hl] Hall].
  rewrite (IH _ Hrun Hall). by eapply visit_segment_frame.
Qed.

Lemma first_index_cons idx seg segs :
  first_index idx (seg :: segs)
  = if (0 <=? idx seg)%Z then Some (idx seg) else first_index idx segs.
Proof.
  unfold first_index. rewrite fmap_cons, filter_cons.
  destruct (Z.leb_spec 0 (idx seg)); case_decide; (done || lia).
Qed.

Lemma first_index_is_Some idx segs s :
  s ∈ segs → (0 ≤ idx s)%Z → is_Some (first_index idx segs).
Proof.
  intros Hs Hpos. induction segs as [|s0 segs IH]; [by apply elem_of_nil in Hs|].
  rewrite first_index_cons. destruct (0 <=? idx s0)%Z eqn:H0; [by eexists|].
  apply elem_of_cons in Hs as [->|Hs]; [|by apply IH].
  apply Z.leb_gt in H0. lia.
Qed.

Lemma first_index_Some idx segs i :
  first_index idx segs = Some i →
  (0 ≤ i)%Z ∧ ∃ s, s ∈ segs ∧ idx s = i.
Proof.
  induction segs as [|s0 segs IH]; [done|]. rewrite first_index_cons.
  destruct (Z.leb_spec 0 (idx s0)).
  - intros [= <-]. split; [done|]. exists s0. split; [left|done].
  - intros [Hi (s & Hs & <-)]%IH. split; [done|]. exists s. split; [by right|done].
Qed.

(** The local variables after a run of segments: the two matches are
    the first ones met, the counter has moved once per change of the
    edge identifier. *)
Lemma visit_segments_vars segs st st' :
  for_each visit_segment segs st = Some st' →
  origin_match st' = (match origin_match st with
                      | Some o => Some o
                      | None => first_index first_match_idx segs
                      end) ∧
  dest_match st' = (match dest_match st with
                    | Some d => Some d
                    | None => first_index last_match_idx segs
                    end) ∧
  last_id st' = default (last_id st) (list.last (seg_edgeid <$> segs)) ∧
  ((edge_index st < 2 ^ 64)%N →
   edge_index st'
   = ((edge_index st + N.of_nat (changes (last_id st) (seg_edgeid <$> segs)))
      mod 2 ^ 64)%N) ∧
  length (match_results st') = length (match_results st).
Proof.
  revert st. induction segs as [|seg segs IH]; intros st Hrun; simpl in Hrun.
  - simplify_eq. split_and!; try done.
    + by destruct (origin_match st').
    + by destruct (dest_match st').
    + intros Hlt. simpl. rewrite N.add_0_r. by rewrite N.mod_small.
  - destruct (visit_segment st seg) as [st1|] eqn:Hseg; simplify_eq/=.
    apply visit_segment_vars in Hseg as (Ho & Hd & Hid & He & Hlen).
    destruct (IH _ Hrun) as (Ho' & Hd' & Hid' & He' & Hlen').
    rewrite !first_index_cons. split_and!.
    + rewrite Ho', Ho.
      by destruct (0 <=? first_match_idx seg)%Z, (origin_match st).
    + rewrite Hd', Hd.
      by destruct (0 <=? last_match_idx seg)%Z, (dest_match st).
    + rewrite Hid', Hid, last_cons. by destruct (list.last _).
    + intros Hlt. rewrite He', Hid, He.
      * case_decide; simpl; [done|]. unfold size_t_succ.
        rewrite N.Div0.add_mod_idemp_l. f_equal. lia.
      * rewrite He. case_decide; [done|]. unfold size_t_succ.
        by apply N.mod_lt.
    + congruence.
Qed.

(** The stamp a match keeps: the counter at the last segment that
    points at it. *)
Lemma visit_segments_stamp before seg after st st' i m :
  for_each visit_segment (before ++ seg :: after) st = Some st' →
  (0 ≤ i)%Z → i = first_match_idx seg ∨ i = last_match_idx seg →
  Forall (λ s, i ≠ first_match_idx s ∧ i ≠ last_match_idx s) after →
  at_idx (match_results st') i = Some m →
  (edge_index st < 2 ^ 64)%N →
  mr_edge_index m
  = ((edge_index st + N.of_nat (changes (last_id st) (seg_edgeid <$> before)))
     mod 2 ^ 64)%N.
Proof.
  intros Hrun Hi Hseg Hafter Hm Hlt. rewrite for_each_app in Hrun.
  destruct (for_each visit_segment before st) as [st1|] eqn:Hbefore;
    simplify_eq/=.
  destruct (visit_segment st1 seg) as [st2|] eqn:Hvisit; simplify_eq/=.
  rewrite (visit_segments_frame _ _ _ _ Hrun Hafter) in Hm.
  apply visit_segments_vars in Hbefore as (_ & _ & _ & He & _).
  rewrite <- (He Hlt).
  destruct (visit_segment_stamps _ _ _ Hvisit) as (Hf & Hl & _).
  destruct Hseg as [->| ->]; [by apply Hf | by apply Hl].
Qed.

Lemma stamp_defined i e ms :
  (0 ≤ i < Z.of_nat (length ms))%Z →
  ∃ ms', stamp i e ms = Some ms' ∧ length ms' = length ms.
Proof.
  intros Hi. unfold stamp. destruct (at_idx_in_range ms i Hi) as [m ->].
  simpl. eexists. split; [done|]. unfold set_idx. by rewrite length_insert.
Qed.

Lemma visit_segment_defined st seg :
  segment_in_range (Z.of_nat (length (match_results st))) seg = true →
  is_Some (visit_segment st seg).
Proof.
  unfold segment_in_range. intros [Hf%Z.ltb_lt Hl%Z.ltb_lt]%andb_prop.
  unfold visit_segment.
  destruct (Z.leb_spec 0 (first_match_idx seg)) as [Hf0|Hf0].
  - destruct (stamp_defined (first_match_idx seg) (edge_index st)
                (match_results st)) as (ms1 & -> & Hlen1); [lia|]. simpl.
    destruct (Z.leb_spec 0 (last_match_idx seg)) as [Hl0|Hl0]; [|by eexists].
    destruct (stamp_defined (last_match_idx seg) (edge_index st) ms1)
      as (ms2 & -> & Hlen2); [lia|]. by eexists.
  - simpl. destruct (Z.leb_spec 0 (last_match_idx seg)) as [Hl0|Hl0]; [|by eexists].
    destruct (stamp_defined (last_match_idx seg) (edge_index st)
                (match_results st)) as (ms2 & -> & Hlen2); [lia|]. by eexists.
Qed.

Lemma visit_segments_defined segs st :
  forallb (segment_in_range (Z.of_nat (length (match_results st)))) segs = true →
  is_Some (for_each visit_segment segs st).
Proof.
  revert st. induction segs as [|seg segs IH]; intros st Hall; simpl; [by eexists|].
  simpl in Hall. apply andb_prop in Hall as [Hseg Hall].
  destruct (visit_segment_defined st seg Hseg) as [st1 Hst1]. rewrite Hst1. simpl.
  apply IH. apply visit_segment_vars in Hst1 as (_ & _ & _ & _ & ->). done.
Qed.

Lemma erase_visit_segments segs st st' :
  for_each visit_segment segs st = Some st' →
  set_edge_index 0 <$> match_results st' = set_edge_index 0 <$> match_results st.
Proof.
  apply (for_each_invariant
           (λ s, set_edge_index 0 <$> match_results s
                 = set_edge_index 0 <$> match_results st)); [|done].
  intros s x s' <- Hx. by eapply erase_visit_segment.
Qed.

Lemma unflagged_erase ms ms' :
  set_edge_index 0 <$> ms' = set_edge_index 0 <$> ms →
  Forall unflagged ms → Forall unflagged ms'.
Proof.
  intros Heq%erase_same_but_edge_index Hall. destruct Heq as [Hlen Hsame].
  apply list.Forall_forall. intros m' Hm'.
  apply list_elem_of_lookup in Hm' as [i Hi].
  destruct (lookup_lt_is_Some_2 ms i) as [m Hm].
  { rewrite <- Hlen. by eapply lookup_lt_Some. }
  destruct (Hsame i m m' Hm Hi) as (_ & _ & _ & _ & _ & Hb & He).
  rewrite list.Forall_forall in Hall.
  destruct (Hall m) as [Hb' He']; [by eapply list_elem_of_lookup_2|].
  split; congruence.
Qed.

Lemma append_paths_defined paths acc :
  forallb (λ p, match fst p with [] => false | _ => true end) paths = true →
  is_Some (for_each append_path paths acc).
Proof.
  revert acc. induction paths as [|p paths IH]; intros acc Hall; simpl; [by eexists|].
  simpl in Hall. apply andb_prop in Hall as [Hp Hall].
  assert (is_Some (append_path acc p)) as [acc1 ->]; [|by apply IH].
  unfold append_path. destruct (list.last acc); [|by eexists].
  destruct (fst p) as [|e es]; [done|]. by eexists.
Qed.

Section IndexMatches.
Context `{Collaborators}.

(** What the bookkeeping of a path needs to be defined. *)
Lemma note_discontinuities_Some segs ms rd rd' :
  note_discontinuities segs ms rd = Some rd' →
  ∃ first_segment last_segment,
    head segs = Some first_segment ∧ list.last segs = Some last_segment ∧
    is_Some (at_idx ms (first_match_idx first_segment)) ∧
    is_Some (at_idx ms (last_match_idx last_segment)).
Proof.
  unfold note_discontinuities. intros Hn. simplify_option_eq. eauto 10.
Qed.

Lemma note_discontinuities_unflagged segs ms rd rd' :
  Forall unflagged ms →
  note_discontinuities segs ms rd = Some rd' → rd' = rd.
Proof.
  intros Hall. unfold note_discontinuities. intros Hn. simplify_option_eq.
  rewrite list.Forall_forall in Hall.
  repeat match goal with
         | Hx : at_idx _ _ = Some ?m |- _ =>
             apply at_idx_Some in Hx as [_ Hx];
             apply list_elem_of_lookup_2, Hall in Hx as [? ?]
         end.
  repeat case_match; congruence.
Qed.

Lemma index_matches_flat paths ms st :
  index_matches paths ms = Some st →
  ∃ st1, for_each visit_segment (all_segments paths) (trace_vars_init ms)
         = Some st1 ∧
         match_results st1 = match_results st.
Proof.
  unfold index_matches. intros (st1 & Hflat & ->)%visit_paths_segments.
  by exists st1.
Qed.

Lemma index_matches_vars paths ms st :
  index_matches paths ms = Some st →
  origin_match st = first_index first_match_idx (all_segments paths) ∧
  dest_match st = first_index last_match_idx (all_segments paths) ∧
  edge_index st
  = (N.of_nat (changes None (seg_edgeid <$> all_segments paths)) mod 2 ^ 64)%N ∧
  length (match_results st) = length ms.
Proof.
  unfold index_matches. intros (st1 & Hflat & ->)%visit_paths_segments.
  apply visit_segments_vars in Hflat as (Ho & Hd & _ & He & Hlen). simpl in *.
  split_and!; [done | done | by apply He | done].
Qed.

Lemma index_matches_cons p paths ms st :
  index_matches (p :: paths) ms = Some st →
  ∃ first_segment last_segment,
    head (snd p) = Some first_segment ∧ list.last (snd p) = Some last_segment ∧
    (0 ≤ first_match_idx first_segment)%Z ∧
    (0 ≤ last_match_idx last_segment)%Z.
Proof.
  unfold index_matches. simpl. intros Hrun.
  destruct (visit_path _ p) as [sp|] eqn:Hp; simplify_eq/=.
  unfold visit_path in Hp. simplify_option_eq.
  match goal with
  | Hn : note_discontinuities _ _ _ = Some _ |- _ =>
      apply note_discontinuities_Some in Hn
        as (fs & ls & Hfs & Hls & [? [? _]%at_idx_Some] & [? [? _]%at_idx_Some])
  end.
  eauto 10.
Qed.

(** With a path to visit, both matches are found: lines 275 and 286
    read the first match of its first segment and the last match of its
    last segment. *)
Lemma index_matches_ends p paths ms st :
  index_matches (p :: paths) ms = Some st →
  is_Some (origin_match st) ∧ is_Some (dest_match st).
Proof.
  intros Hrun.
  destruct (index_matches_cons _ _ _ _ Hrun) as (fs & ls & Hfs & Hls & Hf & Hl).
  apply index_matches_vars in Hrun as (-> & -> & _).
  assert (fs ∈ all_segments (p :: paths) ∧ ls ∈ all_segments (p :: paths))
    as [Hfin Hlin].
  { unfold all_segments. simpl. split; apply elem_of_app; left.
    - destruct (snd p); simplify_eq/=. by left.
    - apply last_Some in Hls as [l' ->]. apply elem_of_app. right. by left. }
  split; [by apply (first_index_is_Some _ _ fs)
         | by apply (first_index_is_Some _ _ ls)].
Qed.

(** [build_trace] has one [throw], and it is reached without a path
    only. *)
Lemma build_trace_Thrown paths ms w e w' :
  build_trace paths ms w = Thrown e w' →
  paths = [] ∧ e = valhalla_exception_t 442 None ∧ w' = w.
Proof.
  unfold build_trace. intros Hrun.
  apply bind_Thrown in Hrun as [Hrun|(st & w1 & Hst & Hrun)];
    [by apply defined_not_Thrown in Hrun|].
  apply defined_Done in Hst as [Hst ->].
  destruct paths as [|p paths].
  - injection Hst as <-. simpl in Hrun. by injection Hrun as <- <-.
  - exfalso. destruct (index_matches_ends _ _ _ _ Hst) as [[o Ho] [d Hd]].
    rewrite Ho, Hd in Hrun. thor_unfold Hrun.
    repeat (case_match; simplify_eq/=).
Qed.

Lemma visit_path_defined st p :
  trace_path_ok (Z.of_nat (length (match_results st))) p = true →
  ∃ st', visit_path st p = Some st' ∧
         length (match_results st') = length (match_results st).
Proof.
  unfold trace_path_ok, path_in_range.
  intros [[Hends Hsegs]%andb_prop _]%andb_prop.
  destruct (visit_segments_defined _ _ Hsegs) as [st1 Hst1].
  pose proof (visit_segments_vars _ _ _ Hst1) as (_ & _ & _ & _ & Hlen).
  unfold visit_path, note_discontinuities. rewrite Hst1. simpl.
  destruct (head p.2) as [fs|]; [|done]. destruct (list.last p.2) as [ls|]; [|done].
  apply andb_prop in Hends as [[[Ho1 Ho2]%andb_prop Hd1]%andb_prop Hd2].
  apply Z.leb_le in Ho1, Hd1. apply Z.ltb_lt in Ho2, Hd2. simpl.
  destruct (at_idx_in_range (match_results st1) (first_match_idx fs)) as [fm ->];
    [lia|].
  destruct (at_idx_in_range (match_results st1) (last_match_idx ls)) as [lm ->];
    [lia|].
  simpl. by eexists.
Qed.

Lemma visit_paths_defined paths st :
  forallb (trace_path_ok (Z.of_nat (length (match_results st)))) paths = true →
  is_Some (for_each visit_path paths st).
Proof.
  revert st. induction paths as [|p paths IH]; intros st Hall; simpl; [by eexists|].
  simpl in Hall. apply andb_prop in Hall as [Hp Hall].
  destruct (visit_path_defined st p Hp) as (st1 & -> & Hlen). simpl.
  apply IH. by rewrite Hlen.
Qed.

(** The discontinuity map stays empty on a trace without flags. *)
Lemma index_matches_unflagged paths ms st :
  Forall unflagged ms →
  index_matches paths ms = Some st → route_discontinuities st = ∅.
Proof.
  intros Hall Hrun.
  enough (route_discontinuities st = ∅ ∧
          set_edge_index 0 <$> match_results st = set_edge_index 0 <$> ms)
    as [? _]; [done|].
  revert Hrun. unfold index_matches.
  apply (for_each_invariant
           (λ s, route_discontinuities s = ∅ ∧
                 set_edge_index 0 <$> match_results s = set_edge_index 0 <$> ms));
    [|done].
  intros s p s' [Hrd Hms] Hp. unfold visit_path in Hp.
  destruct (for_each visit_segment p.2 s) as [s1|] eqn:Hs1; simplify_eq/=.
  destruct (note_discontinuities _ _ _) as [rd|] eqn:Hnote; simplify_eq/=.
  pose proof (erase_visit_segments _ _ _ Hs1) as Hms1. rewrite Hms in Hms1.
  split; [|done].
  apply note_discontinuities_unflagged in Hnote; [|by eapply unflagged_erase].
  rewrite Hnote, <- Hrd. by eapply visit_segments_discontinuities.
Qed.

(** A call of [build_trace] that returns, in full. *)
Lemma build_trace_Done_full paths ms w ms' w' :
  build_trace paths ms w = Done ms' w' →
  ∃ st o d lo ld mo md es,
    index_matches paths ms = Some st ∧ ms' = match_results st ∧
    origin_match st = Some o ∧ dest_match st = Some d ∧
    at_idx (shape (req_options w)) o = Some lo ∧
    at_idx (shape (req_options w)) d = Some ld ∧
    at_idx ms' o = Some mo ∧ at_idx ms' d = Some md ∧
    smash_path_edges paths = Some es ∧
    w' = set_routes
           (req_routes w ++
            [[ {| leg_edges := es;
                  leg_origin := add_path_edge lo mo;
                  leg_destination := add_path_edge ld md;
                  leg_discontinuities := Some (route_discontinuities st) |} ]])
           (write_shape d (add_path_edge ld md)
              (write_shape o (add_path_edge lo mo) w)).
Proof.
  unfold build_trace. intros Hrun. thor_unfold Hrun.
  repeat (case_match; simplify_eq/=).
  rewrite alter_new_route.
  match goal with
  | Ho : at_idx _ ?o = Some ?lo, Hd : at_idx _ ?d = Some ?ld |- _ =>
      assert (0 ≤ o)%Z by (by apply at_idx_Some in Ho as [? _]);
      assert (0 ≤ d)%Z by (by apply at_idx_Some in Hd as [? _])
  end.
  repeat match goal with
         | Hx : context [at_idx (set_idx _ _ _) _] |- _ =>
             rewrite at_idx_set_idx in Hx by done
         end.
  eexists _, _, _, _, _, _, _, _. split_and!; try done.
  repeat case_decide; simplify_option_eq; try done.
Qed.

End IndexMatches.

(** ** The entries of the discontinuity map *)

Lemma current_match_original ms cur i m :
  set_edge_index 0 <$> cur = set_edge_index 0 <$> ms →
  at_idx cur i = Some m →
  ∃ m0, m0 ∈ ms ∧ at_idx ms i = Some m0 ∧
        mr_lnglat m0 = mr_lnglat m ∧
        mr_distance_along m0 = mr_distance_along m ∧
        mr_begins_discontinuity m0 = mr_begins_discontinuity m ∧
        mr_ends_discontinuity m0 = mr_ends_discontinuity m.
Proof.
  intros Heq [Hi Hm]%at_idx_Some.
  pose proof (erase_same_but_edge_index _ _ Heq) as [Hlen Hsame].
  destruct (lookup_lt_is_Some_2 ms (Z.to_nat i)) as [m0 Hm0].
  { rewrite <- Hlen. by eapply lookup_lt_Some. }
  destruct (Hsame _ _ _ Hm0 Hm) as (? & _ & _ & ? & _ & ? & ?).
  exists m0. split_and!; try done.
  - by eapply list_elem_of_lookup_2.
  - by apply at_idx_Some.
Qed.

Section DiscontinuityEntries.
Context `{Collaborators}.

Lemma entry_sound_note segs ms cur rd rd' :
  set_edge_index 0 <$> cur = set_edge_index 0 <$> ms →
  (∀ k e, rd !! k = Some e → entry_sound ms e) →
  note_discontinuities segs cur rd = Some rd' →
  ∀ k e, rd' !! k = Some e → entry_sound ms e.
Proof.
  intros Heq Hrd. unfold note_discontinuities. intros Hnote.
  destruct (head segs) as [fs|]; [|done]. simpl in Hnote.
  destruct (at_idx cur (first_match_idx fs)) as [fm|] eqn:Hfm; [|done].
  simpl in Hnote. destruct (list.last segs) as [ls|]; [|done]. simpl in Hnote.
  destruct (at_idx cur (last_match_idx ls)) as [lm|] eqn:Hlm; [|done].
  simpl in Hnote. injection Hnote as <-.
  destruct (current_match_original _ _ _ _ Heq Hfm)
    as (fm0 & Hfm0 & _ & Hfll & Hfda & _ & Hfe).
  destruct (current_match_original _ _ _ _ Heq Hlm)
    as (lm0 & Hlm0 & _ & Hlll & Hlda & Hlb & _).
  assert (∀ k e,
            (if mr_ends_discontinuity fm then open_discontinuity fm rd else rd)
              !! k = Some e → entry_sound ms e) as Hrd1.
  { destruct (mr_ends_discontinuity fm) eqn:Hflag; [|done].
    intros k e. unfold open_discontinuity. rewrite lookup_insert.
    case_decide; [|by apply Hrd]. intros [= <-]. split_and!.
    - by left.
    - intros _. exists fm0. simpl. split_and!; congruence.
    - by intros [=]. }
  destruct (mr_begins_discontinuity lm) eqn:Hflag; [|done].
  intros k e. unfold close_discontinuity. rewrite lookup_insert.
  case_decide; [|by apply Hrd1]. intros [= <-]. split_and!.
  - by right.
  - simpl. unfold entry_at.
    destruct (_ !! mr_edge_index lm) as [e0|] eqn:He0; simpl.
    + by apply (Hrd1 _ _ He0).
    + by intros [=].
  - intros _. exists lm0. simpl. split_and!; congruence.
Qed.

Lemma entry_sound_index_matches paths ms st :
  index_matches paths ms = Some st →
  ∀ k e, route_discontinuities st !! k = Some e → entry_sound ms e.
Proof.
  intros Hrun.
  enough ((∀ k e, route_discontinuities st !! k = Some e → entry_sound ms e) ∧
          set_edge_index 0 <$> match_results st = set_edge_index 0 <$> ms)
    as [? _]; [done|].
  revert Hrun. unfold index_matches.
  apply (for_each_invariant
           (λ s, (∀ k e, route_discontinuities s !! k = Some e → entry_sound ms e) ∧
                 set_edge_index 0 <$> match_results s = set_edge_index 0 <$> ms)).
  - intros s p s' [Hrd Hms] Hp. unfold visit_path in Hp.
    destruct (for_each visit_segment p.2 s) as [s1|] eqn:Hs1; simplify_eq/=.
    destruct (note_discontinuities _ _ _) as [rd|] eqn:Hnote; simplify_eq/=.
    pose proof (erase_visit_segments _ _ _ Hs1) as Hms1. rewrite Hms in Hms1.
    split; [|done]. eapply entry_sound_note; [done | | done].
    by rewrite (visit_segments_discontinuities _ _ _ Hs1).
  - split; [|done]. intros k e. simpl. by rewrite lookup_empty.
Qed.


Lemma note_discontinuities_begin_kept segs ms rd rd' k e :
  note_discontinuities segs ms rd = Some rd' →
  rd !! k = Some e → rd_present (fst e) = true →
  ∃ e', rd' !! k = Some e' ∧ rd_present (fst e') = true.
Proof.
  unfold note_discontinuities. intros Hnote Hk He.
  destruct (head segs) as [fs|]; [|done]. simpl in Hnote.
  destruct (at_idx ms (first_match_idx fs)) as [fm|]; [|done].
  simpl in Hnote. destruct (list.last segs) as [ls|]; [|done]. simpl in Hnote.
  destruct (at_idx ms (last_match_idx ls)) as [lm|]; [|done].
  simpl in Hnote. injection Hnote as <-.
  assert (∃ e1, (if mr_ends_discontinuity fm
                 then open_discontinuity fm rd else rd) !! k = Some e1 ∧
                rd_present (fst e1) = true) as (e1 & Hk1 & He1).
  { destruct (mr_ends_discontinuity fm); [|by eauto].
    unfold open_discontinuity. rewrite lookup_insert.
    case_decide; [|by eauto]. by eexists. }
  destruct (mr_begins_discontinuity lm); [|by eauto].
  unfold close_discontinuity. rewrite lookup_insert.
  case_decide as Hkey; [|by eauto]. subst k. eexists. split; [done|]. simpl.
  unfold entry_at. by rewrite Hk1.
Qed.

Lemma visit_path_begin_kept st q st' k e :
  visit_path st q = Some st' →
  route_discontinuities st !! k = Some e → rd_present (fst e) = true →
  ∃ e', route_discontinuities st' !! k = Some e' ∧ rd_present (fst e') = true.
Proof.
  unfold visit_path. intros Hq Hk He.
  destruct (for_each visit_segment q.2 st) as [s1|] eqn:Hs1; simplify_eq/=.
  destruct (note_discontinuities _ _ _) as [rd|] eqn:Hnote; simplify_eq/=.
  eapply note_discontinuities_begin_kept; [done | | done].
  by rewrite (visit_segments_discontinuities _ _ _ Hs1).
Qed.

Lemma visit_paths_begin_kept qs st st' k e :
  for_each visit_path qs st = Some st' →
  route_discontinuities st !! k = Some e → rd_present (fst e) = true →
  ∃ e', route_discontinuities st' !! k = Some e' ∧ rd_present (fst e') = true.
Proof.
  revert st e. induction qs as [|q qs IH]; intros st e Hrun Hk He; simpl in Hrun.
  - simplify_eq. eauto.
  - destruct (visit_path st q) as [s1|] eqn:Hq; simplify_eq/=.
    destruct (visit_path_begin_kept _ _ _ _ _ Hq Hk He) as (e1 & Hk1 & He1).
    eauto.
Qed.

Lemma visit_path_opens st p st' fs fm :
  visit_path st p = Some st' →
  head (snd p) = Some fs →
  at_idx (match_results st') (first_match_idx fs) = Some fm →
  mr_ends_discontinuity fm = true →
  ∃ e, route_discontinuities st' !! mr_edge_index fm = Some e ∧
       rd_present (fst e) = true.
Proof.
  unfold visit_path. intros Hp Hfs Hfm Hflag.
  destruct (for_each visit_segment p.2 st) as [s1|] eqn:Hs1; simplify_eq/=.
  destruct (note_discontinuities _ _ _) as [rd|] eqn:Hnote; simplify_eq/=.
  unfold note_discontinuities in Hnote. rewrite Hfs in Hnote. simpl in Hnote.
  rewrite Hfm in Hnote. simpl in Hnote. rewrite Hflag in Hnote.
  simplify_option_eq. case_match.
  - unfold close_discontinuity. rewrite lookup_insert. case_decide as Hkey.
    + eexists. split; [done|]. simpl. unfold entry_at. rewrite Hkey.
      by rewrite lookup_open_discontinuity.
    + rewrite lookup_open_discontinuity. by eexists.
  - rewrite lookup_open_discontinuity. by eexists.
Qed.

End DiscontinuityEntries.

(** * [build_trace], as a whole *)

(** X1: on an input that is in range ([trace_input_ok]: at least one
    path, every path with an edge and a segment, match indices below the
    number of match results, a shape location for every match result),
    [build_trace] returns: it appends one route of one leg and keeps
    the number of match results and of shape locations. *)
Theorem build_trace_returns `{Collaborators} paths ms w :
  trace_input_ok paths ms w = true →
  ∃ ms' w' leg,
    build_trace paths ms w = Done ms' w' ∧
    length ms' = length ms ∧
    req_routes w' = req_routes w ++ [[leg]] ∧
    length (shape (req_options w')) = length (shape (req_options w)).
Proof.
  unfold trace_input_ok.
  intros [[Hne Hpaths]%andb_prop Hshape%Nat.leb_le]%andb_prop.
  destruct paths as [|p paths]; [done|]. clear Hne.
  destruct (visit_paths_defined (p :: paths) (trace_vars_init ms) Hpaths)
    as [st Hst]. change (index_matches (p :: paths) ms = Some st) in Hst.
  destruct (index_matches_ends _ _ _ _ Hst) as [[o Ho] [d Hd]].
  pose proof (index_matches_vars _ _ _ Hst) as (Ho' & Hd' & _ & Hlen).
  assert (∀ idx i, first_index idx (all_segments (p :: paths)) = Some i →
                   (idx = first_match_idx ∨ idx = last_match_idx) →
                   (0 ≤ i < Z.of_nat (length ms))%Z) as Hrange.
  { intros idx i [Hi (s & Hs & <-)]%first_index_Some Hidx. split; [done|].
    unfold all_segments in Hs. apply elem_of_concat in Hs as (segs & Hs & Hsegs).
    apply list_elem_of_fmap in Hsegs as (q & -> & Hq).
    rewrite forallb_forall in Hpaths.
    specialize (Hpaths q (proj1 (list_elem_of_In _ _) Hq)).
    unfold trace_path_ok in Hpaths.
    apply andb_prop in Hpaths as [[_ Hsegs]%andb_prop _].
    rewrite forallb_forall in Hsegs.
    specialize (Hsegs s (proj1 (list_elem_of_In _ _) Hs)).
    unfold segment_in_range in Hsegs.
    apply andb_prop in Hsegs as [?%Z.ltb_lt ?%Z.ltb_lt].
    destruct Hidx as [-> | ->]; done. }
  rewrite Ho in Ho'. rewrite Hd in Hd'.
  assert (0 ≤ o < Z.of_nat (length ms))%Z as Hor by (eapply Hrange; eauto).
  assert (0 ≤ d < Z.of_nat (length ms))%Z as Hdr by (eapply Hrange; eauto).
  destruct (append_paths_defined (p :: paths) []) as [es Hes].
  { rewrite forallb_forall in Hpaths |- *. intros q Hq.
    specialize (Hpaths q Hq). unfold trace_path_ok in Hpaths.
    by apply andb_prop in Hpaths as [_ ?]. }
  change (smash_path_edges (p :: paths) = Some es) in Hes.
  destruct (at_idx_in_range (match_results st) o) as [mo Hmo]; [lia|].
  destruct (at_idx_in_range (match_results st) d) as [md Hmd]; [lia|].
  assert (returns (build_trace (p :: paths) ms) w
            (λ ms' w', length ms' = length ms ∧
                       (∃ leg, req_routes w' = req_routes w ++ [[leg]]) ∧
                       shape_len w' = shape_len w))
    as (ms' & w' & Hrun & ? & [leg ?] & ?).
  { unfold build_trace. apply returns_bind, returns_defined; [by eexists|].
    intros st0 Hst0. rewrite Hst in Hst0. injection Hst0 as <-.
    rewrite Ho, Hd.
    repeat returns_step.
    all: rewrite ?shape_len_write_shape in *.
    all: unfold shape_len in *; simpl in *.
    all: try lia.
    all: try (by eexists).
    all: unfold set_idx; rewrite ?length_insert.
    all: try lia.
    - rewrite list_lookup_middle; [by eexists | done].
    - split_and!; [done | | done].
      rewrite alter_new_route. by eexists. }
  by exists ms', w', leg.
Qed.

(** The instance of [build_trace_returns] for the two plain paths. *)
Lemma build_trace_returns_witness :
  ∃ ms' w' leg,
    build_trace (H := Fixture.env) Fixture.plain_paths Fixture.plain_matches
      Fixture.five_point_request = Done ms' w' ∧
    length ms' = length Fixture.plain_matches ∧
    req_routes w' = req_routes Fixture.five_point_request ++ [[leg]] ∧
    length (shape (req_options w'))
    = length (shape (req_options Fixture.five_point_request)).
Proof.
  apply (build_trace_returns (H := Fixture.env) Fixture.plain_paths
           Fixture.plain_matches Fixture.five_point_request).
  vm_compute; reflexivity.
Defined.

(** X2: when its behaviour is defined, [build_trace] throws in one case
    only: there is no path.  It then throws error 442 ("couldnt find
    any match") before it has written anything.  With a path, the first
    match of its first segment and the last match of its last segment
    are read (lines 275 and 286), so both pointers are set. *)
Theorem build_trace_throws_without_paths `{Collaborators} paths ms w e w' :
  build_trace paths ms w = Thrown e w' ↔
  paths = [] ∧ e = valhalla_exception_t 442 None ∧ w' = w.
Proof.
  split; [apply build_trace_Thrown|].
  intros (-> & -> & ->). unfold build_trace, index_matches. simpl.
  by rewrite bind_unfold.
Qed.

(** X3: the leg of [build_trace] runs from the shape location of the
    first segment that has a first match to the shape location of the
    first segment that has a last match (both pointers are set once,
    lines 256-264); each of the two gets exactly the path edge made of
    its match, and no other shape location or option is written. *)
Theorem build_trace_endpoints `{Collaborators} paths ms w ms' w' :
  build_trace paths ms w = Done ms' w' →
  ∃ o d lo ld mo md leg,
    first_index first_match_idx (all_segments paths) = Some o ∧
    first_index last_match_idx (all_segments paths) = Some d ∧
    at_idx (shape (req_options w)) o = Some lo ∧
    at_idx (shape (req_options w)) d = Some ld ∧
    at_idx ms' o = Some mo ∧ at_idx ms' d = Some md ∧
    req_routes w' = req_routes w ++ [[leg]] ∧
    leg_origin leg = add_path_edge lo mo ∧
    leg_destination leg = add_path_edge ld md ∧
    req_options w'
    = set_shape (set_idx (set_idx (shape (req_options w)) o (add_path_edge lo mo))
                   d (add_path_edge ld md)) (req_options w).
Proof.
  intros (st & o & d & lo & ld & mo & md & es & Hst & -> & Ho & Hd & Hlo & Hld
          & Hmo & Hmd & _ & ->)%build_trace_Done_full.
  apply index_matches_vars in Hst as (Ho' & Hd' & _).
  eexists o, d, lo, ld, mo, md, _. split_and!; try done; congruence.
Qed.

(** The instance of [build_trace_endpoints] for the two plain paths. *)
Lemma build_trace_endpoints_witness :
  ∃ ms' w',
    build_trace (H := Fixture.env) Fixture.plain_paths Fixture.plain_matches
      Fixture.five_point_request = Done ms' w' ∧
    ∃ o d lo ld mo md leg,
      first_index first_match_idx (all_segments Fixture.plain_paths) = Some o ∧
      first_index last_match_idx (all_segments Fixture.plain_paths) = Some d ∧
      at_idx (shape (req_options Fixture.five_point_request)) o = Some lo ∧
      at_idx (shape (req_options Fixture.five_point_request)) d = Some ld ∧
      at_idx ms' o = Some mo ∧ at_idx ms' d = Some md ∧
      req_routes w' = req_routes Fixture.five_point_request ++ [[leg]] ∧
      leg_origin leg = add_path_edge lo mo ∧
      leg_destination leg = add_path_edge ld md ∧
      req_options w'
      = set_shape
          (set_idx (set_idx (shape (req_options Fixture.five_point_request)) o
                      (add_path_edge lo mo)) d (add_path_edge ld md))
          (req_options Fixture.five_point_request).
Proof.
  eexists _, _. split; [vm_compute; reflexivity|].
  eapply (build_trace_endpoints (H := Fixture.env) Fixture.plain_paths
            Fixture.plain_matches Fixture.five_point_request).
  vm_compute; reflexivity.
Defined.

(** X4: the edge index a match result has after [build_trace]: when
    the last segment that points at it (as its first or as its last
    match) comes after the segments [before], it is the number of
    changes of the edge identifier along [before], counted from the
    invalid identifier (modulo the range of [size_t]); a match result no
    segment points at is as it was. *)
Theorem edge_index_of_a_match `{Collaborators} paths ms w ms' w' :
  build_trace paths ms w = Done ms' w' →
  (∀ before seg after i m,
     all_segments paths = before ++ seg :: after →
     (0 ≤ i)%Z → i = first_match_idx seg ∨ i = last_match_idx seg →
     Forall (λ s, i ≠ first_match_idx s ∧ i ≠ last_match_idx s) after →
     at_idx ms' i = Some m →
     mr_edge_index m
     = (N.of_nat (changes None (seg_edgeid <$> before)) mod 2 ^ 64)%N) ∧
  (∀ i, Forall (λ s, i ≠ first_match_idx s ∧ i ≠ last_match_idx s)
          (all_segments paths) →
        at_idx ms' i = at_idx ms i).
Proof.
  intros (st & leg & Hst & -> & _)%build_trace_Done.
  apply index_matches_flat in Hst as (st1 & Hflat & <-). split.
  - intros before seg after i m Hsegs Hi Hseg Hafter Hm. rewrite Hsegs in Hflat.
    by rewrite (visit_segments_stamp _ _ _ _ _ _ _ Hflat Hi Hseg Hafter Hm).
  - intros i Hall. by rewrite (visit_segments_frame _ _ _ _ Hflat Hall).
Qed.

(** The instance of [edge_index_of_a_match] for the two plain paths. *)
Lemma edge_index_of_a_match_witness :
  ∃ ms' w',
    build_trace (H := Fixture.env) Fixture.plain_paths Fixture.plain_matches
      Fixture.five_point_request = Done ms' w' ∧
    (∀ before seg after i m,
       all_segments Fixture.plain_paths = before ++ seg :: after →
       (0 ≤ i)%Z → i = first_match_idx seg ∨ i = last_match_idx seg →
       Forall (λ s, i ≠ first_match_idx s ∧ i ≠ last_match_idx s) after →
       at_idx ms' i = Some m →
       mr_edge_index m
       = (N.of_nat (changes None (seg_edgeid <$> before)) mod 2 ^ 64)%N) ∧
    (∀ i, Forall (λ s, i ≠ first_match_idx s ∧ i ≠ last_match_idx s)
            (all_segments Fixture.plain_paths) →
          at_idx ms' i = at_idx Fixture.plain_matches i).
Proof.
  eexists _, _. split; [vm_compute; reflexivity|].
  eapply (edge_index_of_a_match (H := Fixture.env) Fixture.plain_paths
            Fixture.plain_matches Fixture.five_point_request).
  vm_compute; reflexivity.
Defined.

(** X5: every entry of the discontinuity map handed to the leg builder
    has a present half, and a present half always comes from a flagged
    match result: a begin half holds the coordinates and the distance
    of a match that ends a discontinuity, an end half those of a match
    that begins one.  So on a trace without flags the map is empty. *)
Theorem discontinuities_come_from_flags `{Collaborators} paths ms w ms' w' :
  build_trace paths ms w = Done ms' w' →
  ∃ leg rd,
    req_routes w' = req_routes w ++ [[leg]] ∧
    leg_discontinuities leg = Some rd ∧
    (∀ k e, rd !! k = Some e → entry_sound ms e) ∧
    (Forall unflagged ms → rd = ∅).
Proof.
  intros (st & leg & Hst & _ & Hroutes & _ & Hrd)%build_trace_Done.
  exists leg, (route_discontinuities st). split_and!; [done | done | |].
  - by apply (entry_sound_index_matches paths).
  - intros Hall. by eapply index_matches_unflagged.
Qed.

(** The instance of [discontinuities_come_from_flags] for the two paths
    on the same edge, with a gap between them. *)
Lemma discontinuities_come_from_flags_witness :
  ∃ ms' w',
    build_trace (H := Fixture.env) Fixture.same_edge_paths
      Fixture.same_edge_matches Fixture.trace_request = Done ms' w' ∧
    ∃ leg rd,
      req_routes w' = req_routes Fixture.trace_request ++ [[leg]] ∧
      leg_discontinuities leg = Some rd ∧
      (∀ k e, rd !! k = Some e → entry_sound Fixture.same_edge_matches e) ∧
      (Forall unflagged Fixture.same_edge_matches → rd = ∅).
Proof.
  eexists _, _. split; [vm_compute; reflexivity|].
  eapply (discontinuities_come_from_flags (H := Fixture.env)
            Fixture.same_edge_paths Fixture.same_edge_matches
            Fixture.trace_request).
  vm_compute; reflexivity.
Defined.

(** X6: the start of a path whose first match ends a discontinuity is
    never lost: when no segment of a later path points at that match,
    the map handed to the leg builder has, at the edge index of the
    match, an entry whose begin half is present (later paths may
    replace the entry, but only by one with a present begin half). *)
Theorem flagged_start_has_begin_half `{Collaborators}
    before p after ms w ms' w' fs m :
  build_trace (before ++ p :: after) ms w = Done ms' w' →
  head (snd p) = Some fs →
  at_idx ms (first_match_idx fs) = Some m →
  mr_ends_discontinuity m = true →
  Forall (λ s, first_match_idx fs ≠ first_match_idx s
               ∧ first_match_idx fs ≠ last_match_idx s) (all_segments after) →
  ∃ leg rd m' e,
    req_routes w' = req_routes w ++ [[leg]] ∧
    leg_discontinuities leg = Some rd ∧
    at_idx ms' (first_match_idx fs) = Some m' ∧
    rd !! mr_edge_index m' = Some e ∧
    rd_present (fst e) = true.
Proof.
  intros (st & leg & Hst & -> & Hroutes & _ & Hrd)%build_trace_Done
    Hfs Hm Hflag Hafter.
  pose proof (erase_index_matches _ _ _ Hst) as Herase.
  unfold index_matches in Hst. rewrite for_each_app in Hst.
  destruct (for_each visit_path before _) as [sb|] eqn:Hbefore; simplify_eq/=.
  destruct (visit_path sb p) as [sp|] eqn:Hp; simplify_eq/=.
  pose proof (visit_paths_segments _ _ _ Hst) as (s1 & Hflat & Hs1).
  pose proof (visit_segments_frame _ _ _ _ Hflat Hafter) as Hframe.
  assert (match_results s1 = match_results st) as Hms by (by rewrite Hs1).
  rewrite Hms in Hframe.
  destruct (at_idx (match_results st) (first_match_idx fs)) as [m'|] eqn:Hm'.
  2:{ exfalso. apply erase_same_but_edge_index in Herase as [Hlen _].
      apply at_idx_Some in Hm as [Hi Hm]. unfold at_idx in Hm'.
      rewrite (proj2 (Z.ltb_ge _ _) Hi) in Hm'.
      apply lookup_ge_None in Hm'. apply lookup_lt_Some in Hm. lia. }
  destruct (current_match_original _ _ _ _ Herase Hm')
    as (m0 & _ & Hm0 & _ & _ & _ & Hends).
  rewrite Hm in Hm0. injection Hm0 as <-.
  destruct (visit_path_opens _ _ _ _ m' Hp Hfs) as (e & He & Hpresent);
    [by rewrite <- Hframe | congruence |].
  destruct (visit_paths_begin_kept _ _ _ _ _ Hst He Hpresent)
    as (e' & He' & Hpresent').
  exists leg, (route_discontinuities st), m', e'. split_and!; done.
Qed.

(** The instance of [flagged_start_has_begin_half] for the second of the
    two paths on the same edge. *)
Lemma flagged_start_has_begin_half_witness :
  ∃ ms' w',
    build_trace (H := Fixture.env) Fixture.same_edge_paths
      Fixture.same_edge_matches Fixture.trace_request = Done ms' w' ∧
    ∃ leg rd m' e,
      req_routes w' = req_routes Fixture.trace_request ++ [[leg]] ∧
      leg_discontinuities leg = Some rd ∧
      at_idx ms' 2 = Some m' ∧
      rd !! mr_edge_index m' = Some e ∧
      rd_present (fst e) = true.
Proof.
  eexists _, _. split; [vm_compute; reflexivity|].
  eapply (flagged_start_has_begin_half (H := Fixture.env)
            [([Fixture.an_edge 7], [Fixture.a_segment 7 0 1 true])]
            ([Fixture.an_edge 7], [Fixture.a_segment 7 2 3 false]) []
            Fixture.same_edge_matches Fixture.trace_request _ _
            (Fixture.a_segment 7 2 3 false) (Fixture.a_match 7 false true)).
  - vm_compute; reflexivity.
  - reflexivity.
  - reflexivity.
  - reflexivity.
  - constructor.
Defined.

(** The two plain paths, run: the stamps of the five matches, and the
    destination of the leg, which is trace point 1, where the first
    segment ends. *)
Example plain_paths_run :
  ∃ ms' w' leg,
    build_trace (H := Fixture.env) Fixture.plain_paths Fixture.plain_matches
      Fixture.five_point_request = Done ms' w' ∧
    mr_edge_index <$> ms' = [0; 1; 2; 2; 2]%N ∧
    req_routes w' = [[leg]] ∧
    leg_destination leg
    = add_path_edge Fixture.a_location (Fixture.a_match 1 false false).
Proof. eexists _, _, _. split_and!; vm_compute; reflexivity. Qed.

(** ** The concatenated edges *)

Lemma append_path_Some acc p acc' :
  append_path acc p = Some acc' →
  ∃ kept, acc' = acc ++ kept ∧ kept `sublist_of` fst p ∧
          ∀ e, e ∈ fst p → pi_edgeid e ∈ pi_edgeid <$> acc'.
Proof.
  unfold append_path. destruct (list.last acc) as [back|] eqn:Hback.
  - destruct (fst p) as [|front rest] eqn:Hp; [done|]. simpl.
    intros [= <-]. case_bool_decide as Hid.
    + exists rest. split_and!; [done | by apply sublist_cons |].
      intros e [->|He]%elem_of_cons.
      * rewrite <- Hid. apply list_elem_of_fmap_2, elem_of_app. left.
        apply last_Some in Hback as [l' ->]. apply elem_of_app. right. by left.
      * apply list_elem_of_fmap_2, elem_of_app. by right.
    + exists (front :: rest). split_and!; [done | done |].
      intros e He. apply list_elem_of_fmap_2, elem_of_app. by right.
  - intros [= <-]. exists (fst p). split_and!; [done | done |].
    intros e He. apply list_elem_of_fmap_2, elem_of_app. by right.
Qed.

Lemma append_paths_Some paths acc es :
  for_each append_path paths acc = Some es →
  acc `prefix_of` es ∧
  es `sublist_of` acc ++ concat (fst <$> paths) ∧
  ∀ p e, p ∈ paths → e ∈ fst p → pi_edgeid e ∈ pi_edgeid <$> es.
Proof.
  revert acc. induction paths as [|p paths IH]; intros acc Hrun; simpl in Hrun.
  - simplify_eq. split_and!; [done | by rewrite app_nil_r |].
    intros p e Hp. by apply elem_of_nil in Hp.
  - destruct (append_path acc p) as [acc1|] eqn:Hp; simplify_eq/=.
    apply append_path_Some in Hp as (kept & -> & Hkept & Hids).
    destruct (IH _ Hrun) as (Hpre & Hsub & Hrest). split_and!.
    + etrans; [|done]. by apply prefix_app_r.
    + etrans; [done|]. rewrite <- app_assoc. apply sublist_app; [done|].
      by apply sublist_app.
    + intros q e [->|Hq]%elem_of_cons He; [|by eapply Hrest].
      destruct Hpre as [more ->]. rewrite fmap_app. apply elem_of_app. left.
      by apply Hids.
Qed.

(** X7: the sequence [build_trace] concatenates (lines 305-312) is
    defined when every path has an edge; it is made of one piece per
    path, in order, and the piece of a path is the path's edge sequence,
    whole or without its first edge: an edge is left out only when it is
    the first edge of its path and has the identifier of the edge that
    comes just before it in the sequence.  So the sequence is the plain
    concatenation with some edges left out, and no edge identifier is
    lost: every identifier of every path occurs in it. *)
Theorem smash_keeps_every_edge paths :
  (forallb (λ p, match fst p with [] => false | _ => true end) paths = true →
   is_Some (smash_path_edges paths)) ∧
  ∀ es, smash_path_edges paths = Some es →
    (∃ pieces,
       es = concat pieces ∧
       length pieces = length paths ∧
       ∀ k p piece, paths !! k = Some p → pieces !! k = Some piece →
         piece = fst p ∨
         ∃ front back,
           fst p = front :: piece ∧
           list.last (concat (take k pieces)) = Some back ∧
           pi_edgeid back = pi_edgeid front) ∧
    es `sublist_of` concat (fst <$> paths) ∧
    ∀ p e, p ∈ paths → e ∈ fst p → pi_edgeid e ∈ pi_edgeid <$> es.
Proof.
  split; [apply append_paths_defined|].
  intros es Hes. split.
  - destruct (append_paths_pieces _ _ _ Hes) as (pieces & -> & Hlen & Hpieces).
    exists pieces. split_and!; [done | done |].
    intros k p piece Hp Hpiece. specialize (Hpieces k p piece Hp Hpiece).
    simpl in Hpieces.
    destruct (list.last (concat (take k pieces))) as [back|]; [|by left].
    destruct Hpieces as (front & Hfront & ->).
    case_bool_decide as Hid; [|by left]. right. exists front, back.
    destruct (fst p) as [|e rest]; simplify_eq/=. done.
  - apply append_paths_Some in Hes as (_ & Hsub & Hids). done.
Qed.

(** The instance of [smash_keeps_every_edge] for three paths of which
    the first two share edge 2. *)
Lemma smash_keeps_every_edge_witness :
  smash_path_edges Fixture.three_paths
  = Some [Fixture.an_edge 1; Fixture.an_edge 2; Fixture.an_edge 3;
          Fixture.an_edge 5] ∧
  (∃ pieces,
     [Fixture.an_edge 1; Fixture.an_edge 2; Fixture.an_edge 3;
      Fixture.an_edge 5] = concat pieces ∧
     length pieces = length Fixture.three_paths ∧
     ∀ k p piece,
       Fixture.three_paths !! k = Some p → pieces !! k = Some piece →
       piece = fst p ∨
       ∃ front back,
         fst p = front :: piece ∧
         list.last (concat (take k pieces)) = Some back ∧
         pi_edgeid back = pi_edgeid front) ∧
  [Fixture.an_edge 1; Fixture.an_edge 2; Fixture.an_edge 3; Fixture.an_edge 5]
    `sublist_of` concat (fst <$> Fixture.three_paths) ∧
  ∀ p e, p ∈ Fixture.three_paths → e ∈ fst p →
         pi_edgeid e ∈ pi_edgeid <$> [Fixture.an_edge 1; Fixture.an_edge 2;
                                      Fixture.an_edge 3; Fixture.an_edge 5].
Proof.
  split; [reflexivity|].
  apply (proj2 (smash_keeps_every_edge Fixture.three_paths)). reflexivity.
Defined.

(** * The edge walk and the dispatcher *)

Lemma foldl_write_admin legs w :
  let w' := foldl (λ w leg, write_admin leg w) w legs in
  admin_log w' = admin_log w ++ legs ∧
  req_options w' = req_options w ∧ req_routes w' = req_routes w ∧
  trace w' = trace w ∧ cout w' = cout w ∧ warn_log w' = warn_log w ∧
  called w' = called w.
Proof.
  revert w. induction legs as [|leg legs IH]; intros w; simpl.
  - by rewrite app_nil_r.
  - destruct (IH (write_admin leg w)) as (-> & -> & -> & -> & -> & -> & ->).
    simpl. by rewrite <- app_assoc.
Qed.

Section RouteMatch.
Context `{Collaborators}.

(** [route_match] after the call of [RouteMatcher::FormPath]. *)
Lemma route_match_unfold w :
  route_match w
  = (let '(found, options) := RouteMatcher_FormPath (trace w) (req_options w) in
     match found with
     | Some path =>
         shape0 ← defined (shape options !! 0);
         locations ←
           match loc_date_time shape0 with
           | Some date_time =>
               l ← defined (locations options !! 0);
               mret (<[0 := set_date_time date_time l]> (locations options))
           | None => mret (locations options)
           end;
         modify (set_options (set_locations locations options));;
         route ← add_route;
         origin ← defined (head locations);
         destination ← defined (list.last locations);
         add_leg route
           {| leg_edges := path; leg_origin := origin;
              leg_destination := destination; leg_discontinuities := None |}
     | None => throw std_exception
     end) (set_options (RouteMatcher_FormPath (trace w) (req_options w)).2
             (note_call RouteMatch w)).
Proof.
  unfold route_match. rewrite bind_unfold. simpl. rewrite bind_unfold. simpl.
  destruct (RouteMatcher_FormPath _ _) as [found options].
  rewrite bind_unfold. simpl. done.
Qed.

Lemma route_match_Thrown w e w1 :
  route_match w = Thrown e w1 →
  ∃ options,
    RouteMatcher_FormPath (trace w) (req_options w) = (None, options) ∧
    e = std_exception ∧
    w1 = set_options options (note_call RouteMatch w).
Proof.
  rewrite route_match_unfold.
  destruct (RouteMatcher_FormPath _ _) as [[path|] options]; simpl.
  - intros Hrun. exfalso. thor_unfold Hrun.
    repeat (case_match; simplify_eq/=).
  - intros [= <- <-]. by eexists.
Qed.

Lemma route_match_not_found w options :
  RouteMatcher_FormPath (trace w) (req_options w) = (None, options) →
  route_match w
  = Thrown std_exception (set_options options (note_call RouteMatch w)).
Proof. intros Hfp. rewrite route_match_unfold, Hfp. done. Qed.

Lemma route_match_keeps {X : Type} (f : Worker → X) :
  (∀ o w, f (set_options o w) = f w) → routes_blind f → call_blind f →
  keeps (unchanged f) route_match.
Proof.
  intros Hopt Hroutes Hcall. unfold route_match. solve_keeps.
Qed.

Lemma log_admins_spec w w' :
  log_admins w = Done tt w' →
  admin_log w' = admin_log w ++ (if do_not_track (req_options w) then []
                                 else concat (req_routes w)) ∧
  req_options w' = req_options w ∧ req_routes w' = req_routes w ∧
  trace w' = trace w ∧ cout w' = cout w ∧ warn_log w' = warn_log w ∧
  called w' = called w.
Proof.
  unfold log_admins. rewrite bind_unfold. simpl.
  destruct (do_not_track (req_options w)).
  - intros [= <-]. by rewrite app_nil_r.
  - intros [= <-]. apply foldl_write_admin.
Qed.

(** What both strategies leave as it is, is as it was when the strategy
    switch is left, on each of its ways out. *)
Lemma strategy_keeps {X : Type} (f : Worker → X) w :
  (∀ o w, f (set_options o w) = f w) → routes_blind f → cout_blind f →
  call_blind f → (∀ msg w, f (write_warning msg w) = f w) →
  match shape_match (req_options w) with
  | edge_walk =>
      match route_match w with
      | Done _ w1 | Thrown _ w1 => f w1 = f w
      | Undefined => True
      end
  | map_snap =>
      match map_match w with
      | Done _ w1 | Thrown _ w1 => f w1 = f w
      | Undefined => True
      end
  | walk_or_snap =>
      match route_match w with
      | Done _ w1 => f w1 = f w
      | Thrown _ w1 =>
          match map_match (write_warning (fallback_warning w1) w1) with
          | Done _ w2 | Thrown _ w2 => f w2 = f w
          | Undefined => True
          end
      | Undefined => True
      end
  end.
Proof.
  intros Hopt Hroutes Hcout Hcall Hwarn.
  assert (shape_blind f) as Hshape by (intros sh w1; apply Hopt).
  pose proof (route_match_keeps f Hopt Hroutes Hcall w) as Hrm.
  pose proof (map_match_keeps f Hshape Hroutes Hcout Hcall) as Hmm.
  destruct (shape_match (req_options w)).
  - by destruct (route_match w).
  - specialize (Hmm w). by destruct (map_match w).
  - destruct (route_match w) as [|e w1|]; [done| |done].
    specialize (Hmm (write_warning (fallback_warning w1) w1)).
    destruct (map_match _); [| |done]; unfold unchanged in *;
      by rewrite Hmm, Hwarn.
Qed.

Lemma trace_route_keeps {X : Type} (f : Worker → X) w0 w :
  parsed w0 w →
  (∀ o w, f (set_options o w) = f w) → routes_blind f → cout_blind f →
  call_blind f → (∀ msg w, f (write_warning msg w) = f w) →
  (∀ w', trace_route w0 = Done tt w' →
         ∃ w1, log_admins w1 = Done tt w' ∧ f w1 = f w) ∧
  (∀ e w', trace_route w0 = Thrown e w' → f w' = f w).
Proof.
  intros Hparsed Hopt Hroutes Hcout Hcall Hwarn.
  rewrite (trace_route_outcome w0 w Hparsed).
  pose proof (strategy_keeps f w Hopt Hroutes Hcout Hcall Hwarn) as Hkeeps.
  destruct (shape_match (req_options w)).
  - destruct (route_match w) as [[] w1|e1 w1|]; split; try done.
    + intros w' Hlog. by exists w1.
    + intros e w' ?%log_admins_not_Thrown. done.
    + by intros e w' [= <- <-].
  - destruct (map_match w) as [rs w1|e1 w1|]; split; try done.
    + intros w' Hlog. by exists w1.
    + intros e w' ?%log_admins_not_Thrown. done.
    + by intros e w' [= <- <-].
  - destruct (route_match w) as [[] w1|e1 w1|]; [split| |split]; try done.
    + intros w' Hlog. by exists w1.
    + intros e w' ?%log_admins_not_Thrown. done.
    + destruct (map_match _) as [rs w2|e2 w2|]; split; try done.
      * intros w' Hlog. by exists w2.
      * intros e w' ?%log_admins_not_Thrown. done.
      * by intros e w' [= <- <-].
Qed.

End RouteMatch.

(** X8: when the edge walk finds a path, [route_match] returns; it
    appends one route of one leg made of that path, from the first to
    the last location of the request; the first location has taken the
    date and time of the first shape point when that one has any, and
    the options are otherwise as the edge walk left them.  (An empty
    shape or an empty list of locations is undefined behaviour.) *)
Theorem route_match_found `{Collaborators} w path options shape0 :
  RouteMatcher_FormPath (trace w) (req_options w) = (Some path, options) →
  shape options !! 0 = Some shape0 →
  locations options ≠ [] →
  ∃ w' leg,
    route_match w = Done tt w' ∧
    req_routes w' = req_routes w ++ [[leg]] ∧
    leg_edges leg = path ∧ leg_discontinuities leg = None ∧
    head (locations (req_options w')) = Some (leg_origin leg) ∧
    list.last (locations (req_options w')) = Some (leg_destination leg) ∧
    locations (req_options w')
    = match loc_date_time shape0 with
      | Some date_time => alter (set_date_time date_time) 0 (locations options)
      | None => locations options
      end ∧
    req_options w' = set_locations (locations (req_options w')) options.
Proof.
  intros Hfound Hshape Hlocs.
  destruct (locations options) as [|l0 ls] eqn:Hl; [done|].
  set (origin := match loc_date_time shape0 with
                 | Some date_time => set_date_time date_time l0
                 | None => l0
                 end).
  assert (is_Some (list.last (origin :: ls))) as [destination Hdest].
  { by rewrite last_cons; destruct (list.last ls). }
  assert (route_match w
          = Done tt
              (set_routes
                 (req_routes w ++
                  [[ {| leg_edges := path; leg_origin := origin;
                        leg_destination := destination;
                        leg_discontinuities := None |} ]])
                 (set_options (set_locations (origin :: ls) options)
                    (note_call RouteMatch w)))) as Hrun.
  { rewrite route_match_unfold, Hfound. simpl.
    rewrite bind_unfold, Hshape. simpl. rewrite Hl. subst origin.
    destruct (loc_date_time shape0) as [date_time|]; simpl in *;
      cbv [mbind thor_bind mret thor_ret get_worker modify defined throw
           add_route add_leg]; simpl;
      rewrite Hdest; simpl; rewrite list_lookup_middle by done; simpl;
      by rewrite alter_new_route. }
  eexists _, _. split; [exact Hrun|]. simpl.
  split_and!; try done. subst origin. by destruct (loc_date_time shape0).
Qed.

(** The instance of [route_match_found] for a walk that finds edge 7,
    on a request whose first shape point is dated. *)
Lemma route_match_found_witness :
  ∃ w' leg,
    route_match (H := Fixture.walked_env) Fixture.dated_request = Done tt w' ∧
    req_routes w' = req_routes Fixture.dated_request ++ [[leg]] ∧
    leg_edges leg = [Fixture.an_edge 7] ∧ leg_discontinuities leg = None ∧
    head (locations (req_options w')) = Some (leg_origin leg) ∧
    list.last (locations (req_options w')) = Some (leg_destination leg) ∧
    locations (req_options w')
    = match loc_date_time Fixture.a_dated_location with
      | Some date_time =>
          alter (set_date_time date_time) 0
            (locations (req_options Fixture.dated_request))
      | None => locations (req_options Fixture.dated_request)
      end ∧
    req_options w'
    = set_locations (locations (req_options w'))
        (req_options Fixture.dated_request).
Proof.
  apply (route_match_found (H := Fixture.walked_env) Fixture.dated_request
           [Fixture.an_edge 7] (req_options Fixture.dated_request)
           Fixture.a_dated_location); [reflexivity | reflexivity | discriminate].
Defined.

(** X9: [route_match] throws exactly when the edge walk finds no path:
    it throws [std::exception], and the request is as the edge walk
    left it, without a new route. *)
Theorem route_match_throws_without_path `{Collaborators} w e w' :
  route_match w = Thrown e w' ↔
  ∃ options,
    RouteMatcher_FormPath (trace w) (req_options w) = (None, options) ∧
    e = std_exception ∧
    w' = set_options options (note_call RouteMatch w).
Proof.
  split; [apply route_match_Thrown|].
  intros (options & Hfp & -> & ->). by apply route_match_not_found.
Qed.

(** X10: when [trace_route] returns on a parsed request, it has handed
    to [log_admin], in order, every leg of every route of the trip
    (also of routes that were in the trip before the call), or none
    when do_not_track is set; when it throws, it has logged none. *)
Theorem trace_route_logs_every_leg `{Collaborators} w0 w :
  parsed w0 w →
  (∀ w', trace_route w0 = Done tt w' →
     admin_log w'
     = admin_log w ++ (if do_not_track (req_options w') then []
                       else concat (req_routes w'))) ∧
  (∀ e w', trace_route w0 = Thrown e w' → admin_log w' = admin_log w).
Proof.
  intros Hparsed.
  destruct (trace_route_keeps admin_log w0 w Hparsed) as [Hdone Hthrown];
    try done.
  split; [|done]. intros w' (w1 & Hlog & <-)%Hdone.
  apply log_admins_spec in Hlog as (-> & -> & -> & _). done.
Qed.

(** The instance of [trace_route_logs_every_leg] for a tracked request
    whose edge walk finds a path. *)
Lemma trace_route_logs_every_leg_witness :
  parsed (H := Fixture.walked_env) Fixture.tracked_request
    Fixture.tracked_request ∧
  (∀ w', trace_route (H := Fixture.walked_env) Fixture.tracked_request
         = Done tt w' →
     admin_log w'
     = admin_log Fixture.tracked_request
       ++ (if do_not_track (req_options w') then []
           else concat (req_routes w'))) ∧
  (∀ e w', trace_route (H := Fixture.walked_env) Fixture.tracked_request
           = Thrown e w' →
     admin_log w' = admin_log Fixture.tracked_request).
Proof.
  split; [reflexivity|].
  apply (trace_route_logs_every_leg (H := Fixture.walked_env)
           Fixture.tracked_request Fixture.tracked_request).
  reflexivity.
Defined.

(** The tracked request, run: the one leg of the trip is in the admin
    log. *)
Example tracked_request_run :
  ∃ w' leg,
    trace_route (H := Fixture.walked_env) Fixture.tracked_request = Done tt w' ∧
    req_routes w' = [[leg]] ∧ admin_log w' = [leg].
Proof. eexists _, _. split_and!; reflexivity. Qed.

(** X11: on a parsed request, the warning log grows by one entry, the
    fallback warning, exactly when the mode is walk_or_snap and the
    edge walk finds no path; on every other run, returning or throwing,
    it is left as it was. *)
Theorem fallback_warning_logged `{Collaborators} w0 w :
  parsed w0 w →
  ∀ w', trace_route w0 = Done tt w' ∨ (∃ e, trace_route w0 = Thrown e w') →
    warn_log w'
    = warn_log w ++
      match shape_match (req_options w),
            RouteMatcher_FormPath (trace w) (req_options w) with
      | walk_or_snap, (None, options) =>
          [String.append (ShapeMatch_Enum_Name (shape_match options))
             fallback_text]
      | _, _ => []
      end.
Proof.
  intros Hparsed w' Hout. rewrite (trace_route_outcome w0 w Hparsed) in Hout.
  pose proof (route_match_keeps warn_log ltac:(done) ltac:(done) ltac:(done) w)
    as Hrm.
  pose proof (map_match_keeps warn_log ltac:(done) ltac:(done) ltac:(done)
                ltac:(done)) as Hmm.
  assert (∀ w1, log_admins w1 = Done tt w' ∨ (∃ e, log_admins w1 = Thrown e w') →
                warn_log w' = warn_log w1) as Hlog.
  { intros w1 [Hl|[e Hl]]; [|by apply log_admins_not_Thrown in Hl].
    by apply log_admins_spec in Hl as (_ & _ & _ & _ & _ & -> & _). }
  unfold unchanged in *.
  destruct (RouteMatcher_FormPath (trace w) (req_options w))
    as [[path|] options] eqn:Hfp.
  - assert (∀ e w1, route_match w ≠ Thrown e w1) as Hno.
    { intros e w1 (o & Heq & _)%route_match_Thrown. by rewrite Hfp in Heq. }
    assert (match shape_match (req_options w) with
            | walk_or_snap | _ => @nil string
            end = []) as -> by (by destruct (shape_match _)).
    rewrite app_nil_r. specialize (Hmm w).
    destruct (shape_match (req_options w)).
    + destruct (route_match w) as [[] w1|e1 w1|].
      * by rewrite (Hlog w1 Hout).
      * by destruct (Hno e1 w1).
      * by destruct Hout as [?|[e ?]].
    + destruct (map_match w) as [rs w1|e1 w1|].
      * by rewrite (Hlog w1 Hout).
      * destruct Hout as [?|[e [= <- <-]]]; done.
      * by destruct Hout as [?|[e ?]].
    + destruct (route_match w) as [[] w1|e1 w1|].
      * by rewrite (Hlog w1 Hout).
      * by destruct (Hno e1 w1).
      * by destruct Hout as [?|[e ?]].
  - rewrite (route_match_not_found w options Hfp) in Hout, Hrm.
    specialize (Hmm w).
    destruct (shape_match (req_options w)).
    + rewrite app_nil_r. destruct Hout as [?|[e [= <- <-]]]; done.
    + rewrite app_nil_r. destruct (map_match w) as [rs w1|e1 w1|].
      * by rewrite (Hlog w1 Hout).
      * destruct Hout as [?|[e [= <- <-]]]; done.
      * by destruct Hout as [?|[e ?]].
    + match type of Hout with
      | context [map_match ?w1] =>
          pose proof (map_match_keeps warn_log ltac:(done) ltac:(done)
                        ltac:(done) ltac:(done) w1) as Hmm2;
          destruct (map_match w1) as [rs w2|e2 w2|]
      end.
      * by rewrite (Hlog w2 Hout), Hmm2.
      * destruct Hout as [?|[e [= <- <-]]]; [done|]. by rewrite Hmm2.
      * by destruct Hout as [?|[e ?]].
Qed.

(** The instance of [fallback_warning_logged] for a walk_or_snap request
    on which neither strategy finds a path. *)
Lemma fallback_warning_logged_witness :
  parsed (H := Fixture.no_match_env) Fixture.walk_or_snap_request
    Fixture.walk_or_snap_request ∧
  ∀ w', trace_route (H := Fixture.no_match_env) Fixture.walk_or_snap_request
        = Done tt w'
        ∨ (∃ e, trace_route (H := Fixture.no_match_env)
                  Fixture.walk_or_snap_request = Thrown e w') →
    warn_log w'
    = warn_log Fixture.walk_or_snap_request ++
      match shape_match (req_options Fixture.walk_or_snap_request),
            RouteMatcher_FormPath (Collaborators := Fixture.no_match_env)
              (trace Fixture.walk_or_snap_request)
              (req_options Fixture.walk_or_snap_request) with
      | walk_or_snap, (None, options) =>
          [String.append (ShapeMatch_Enum_Name (shape_match options))
             fallback_text]
      | _, _ => []
      end.
Proof.
  split; [reflexivity|].
  apply (fallback_warning_logged (H := Fixture.no_match_env)
           Fixture.walk_or_snap_request Fixture.walk_or_snap_request).
  reflexivity.
Defined.

(** X12: a trace without points is no error for the map matcher: on a
    parsed request in map_snap mode [trace_route] returns with the trip
    and the options as they were; in walk_or_snap mode, after an edge
    walk that finds no path, it returns with the fallback warning
    logged and no route added. *)
Theorem empty_trace_is_no_error `{Collaborators} w0 w :
  parsed w0 w →
  trace w = [] →
  (shape_match (req_options w) = map_snap →
   ∃ w', trace_route w0 = Done tt w' ∧
         req_routes w' = req_routes w ∧ req_options w' = req_options w ∧
         warn_log w' = warn_log w) ∧
  (shape_match (req_options w) = walk_or_snap →
   ∀ options,
     RouteMatcher_FormPath (trace w) (req_options w) = (None, options) →
     ∃ w', trace_route w0 = Done tt w' ∧
           req_routes w' = req_routes w ∧ req_options w' = options ∧
           warn_log w'
           = warn_log w ++
             [String.append (ShapeMatch_Enum_Name (shape_match options))
                fallback_text]).
Proof.
  intros Hparsed Htrace. rewrite (trace_route_outcome w0 w Hparsed). split.
  - intros ->. rewrite map_match_unfold, Htrace.
    destruct (log_admins_Done (note_call MapMatch w)) as [w' Hlog].
    exists w'. split; [done|].
    by apply log_admins_spec in Hlog as (_ & -> & -> & _ & _ & -> & _).
  - intros -> options Hfp. rewrite (route_match_not_found w options Hfp).
    rewrite map_match_unfold. simpl. rewrite Htrace.
    match goal with
    | |- ∃ _, log_admins ?w1 = _ ∧ _ =>
        destruct (log_admins_Done w1) as [w' Hlog]
    end.
    exists w'. split; [done|].
    by apply log_admins_spec in Hlog as (_ & -> & -> & _ & _ & -> & _).
Qed.

(** The instance of [empty_trace_is_no_error] for a map_snap request
    without trace points. *)
Lemma empty_trace_is_no_error_witness :
  parsed (H := Fixture.env) Fixture.empty_trace_request
    Fixture.empty_trace_request ∧
  trace Fixture.empty_trace_request = [] ∧
  ∃ w', trace_route (H := Fixture.env) Fixture.empty_trace_request = Done tt w' ∧
        req_routes w' = req_routes Fixture.empty_trace_request ∧
        req_options w' = req_options Fixture.empty_trace_request ∧
        warn_log w' = warn_log Fixture.empty_trace_request.
Proof.
  split; [reflexivity|]. split; [reflexivity|].
  apply (proj1 (empty_trace_is_no_error (H := Fixture.env)
                  Fixture.empty_trace_request Fixture.empty_trace_request
                  eq_refl eq_refl)).
  reflexivity.
Defined.

(** X13: an exception of one of the four parsers leaves [trace_route]
    as it is, in the state in which the parser threw it: it is not
    turned into error 442 or 443, and neither strategy has run. *)
Theorem parse_errors_pass_through `{Collaborators} w0 e w :
  (parse_locations;; parse_costing;; parse_measurements;;
   parse_filter_attributes) w0 = Thrown e w →
  trace_route w0 = Thrown e w.
Proof.
  intros Hp. unfold trace_route.
  apply bind_Thrown in Hp as [H1|([] & w1 & H1 & Hp)];
    [by rewrite bind_unfold, H1|].
  rewrite bind_unfold, H1.
  apply bind_Thrown in Hp as [H2|([] & w2 & H2 & Hp)];
    [by rewrite bind_unfold, H2|].
  rewrite bind_unfold, H2.
  apply bind_Thrown in Hp as [H3|([] & w3 & H3 & H4)];
    [by rewrite bind_unfold, H3|].
  by rewrite bind_unfold, H3, bind_unfold, H4.
Qed.

(** The instance of [parse_errors_pass_through] for parsers of which
    the third rejects the request. *)
Lemma parse_errors_pass_through_witness :
  trace_route (H := Fixture.rejecting_env) Fixture.map_snap_request
  = Thrown std_exception Fixture.map_snap_request.
Proof.
  apply (parse_errors_pass_through (H := Fixture.rejecting_env)
           Fixture.map_snap_request std_exception Fixture.map_snap_request).
  reflexivity.
Defined.

(** * The match points of the OSRM format *)

Lemma candidate_placeholders_Some size n :
  candidate_placeholders size = Some n →
  (size < 2 ^ 64)%N →
  (1 ≤ size ≤ 2 ^ 31)%N ∧ N.of_nat (S n) = size.
Proof.
  unfold candidate_placeholders, INT_MAX. intros Hn Hsize.
  destruct (Z.leb_spec (Z.of_N ((size + 2 ^ 64 - 1) mod 2 ^ 64)) 2147483647)
    as [Hle|]; [|done].
  injection Hn as <-.
  destruct (decide (size = 0%N)) as [->|Hpos].
  - exfalso. vm_compute in Hle. done.
  - replace (size + 2 ^ 64 - 1)%N with (size - 1 + 1 * 2 ^ 64)%N in * by lia.
    rewrite N.Div0.mod_add in *. rewrite N.mod_small in * by lia. lia.
Qed.

Lemma candidate_placeholders_defined size :
  (1 ≤ size ≤ 2 ^ 31)%N → is_Some (candidate_placeholders size).
Proof.
  intros Hsize. unfold candidate_placeholders, INT_MAX.
  replace (size + 2 ^ 64 - 1)%N with (size - 1 + 1 * 2 ^ 64)%N by lia.
  rewrite N.Div0.mod_add. rewrite N.mod_small by lia.
  destruct (Z.leb_spec (Z.of_N (size - 1)) 2147483647); [by eexists | lia].
Qed.

(** X14: the placeholder loop of lines 211-214 adds one empty path edge
    less than the candidate has edges, when it has between 1 and 2^31 of
    them; with no candidate edge the bound [size() - 1] wraps around to
    2^64 - 1, and with more than 2^31 it exceeds [INT_MAX]: the [int]
    counter then overflows, which is undefined. *)
Theorem placeholders_for_candidates size :
  (size < 2 ^ 64)%N →
  candidate_placeholders size
  = if decide (1 ≤ size ≤ 2 ^ 31)%N then Some (N.to_nat (size - 1)) else None.
Proof.
  intros Hsize. case_decide as Hrange.
  - destruct (candidate_placeholders_defined size Hrange) as [n Hn].
    rewrite Hn. f_equal.
    apply candidate_placeholders_Some in Hn as [_ Hn]; [lia | done].
  - destruct (candidate_placeholders size) as [n|] eqn:Hn; [|done].
    apply candidate_placeholders_Some in Hn as [Hn _]; done.
Qed.

(** The instance of [placeholders_for_candidates] for three candidate
    edges: two placeholders. *)
Lemma placeholders_for_candidates_witness :
  candidate_placeholders 3 = Some 2.
Proof.
  apply (placeholders_for_candidates 3). reflexivity.
Defined.

Section MatchPoints.
Context `{Collaborators}.

Lemma fill_match_point_Some sh i m sh' :
  fill_match_point sh (i, m) = Some sh' →
  length sh' = length sh ∧
  match_point_ready sh i m ∧
  (∀ j, j ≠ i → sh' !! j = sh !! j) ∧
  (∀ l, sh !! i = Some l →
        ∃ l', sh' !! i = Some l' ∧ match_point_added m l l').
Proof.
  unfold fill_match_point, match_point_added, match_point_ready.
  destruct (Is_Valid (mr_edgeid m)); [|intros [= <-]; split_and!; eauto; done].
  destruct (sh !! i) as [l|] eqn:Hl; [|done]. simpl.
  assert (i < length sh) as Hi by (by eapply lookup_lt_Some).
  destruct (mr_stateid m) as [stateid|].
  - destruct (candidate_placeholders _) as [n|] eqn:Hn; [|done]. simpl.
    intros [= <-]. rewrite length_insert. split_and!; [done | | |].
    + intros _. split; [done|]. intros ? [= <-]. by eexists.
    + intros j Hj. by rewrite list_lookup_insert_ne.
    + intros ? [= <-]. rewrite list_lookup_insert_eq by done.
      eexists. split; [done|]. by exists n.
  - intros [= <-]. rewrite length_insert. split_and!; [done | | |].
    + intros _. split; [done|]. done.
    + intros j Hj. by rewrite list_lookup_insert_ne.
    + intros ? [= <-]. rewrite list_lookup_insert_eq by done.
      eexists. split; [done|]. by exists 0.
Qed.

Lemma fill_match_point_defined sh i m :
  match_point_ready sh i m → is_Some (fill_match_point sh (i, m)).
Proof.
  unfold fill_match_point, match_point_ready.
  destruct (Is_Valid (mr_edgeid m)); [|by eexists].
  intros [Hi Hstate]; [done|].
  destruct (lookup_lt_is_Some_2 sh i Hi) as [l ->]. simpl.
  destruct (mr_stateid m) as [stateid|]; [|by eexists].
  destruct (Hstate stateid eq_refl) as [n ->]. by eexists.
Qed.

(** The loop of lines 191-215, from the match at index [k] on. *)
Lemma fill_loop ms k sh sh' :
  for_each fill_match_point (imap (λ i m, (k + i, m)) ms) sh = Some sh' →
  length sh' = length sh ∧
  (∀ i m, ms !! i = Some m → match_point_ready sh (k + i) m) ∧
  (∀ j, j < k ∨ k + length ms ≤ j → sh' !! j = sh !! j) ∧
  (∀ i m l, ms !! i = Some m → sh !! (k + i) = Some l →
            ∃ l', sh' !! (k + i) = Some l' ∧ match_point_added m l l').
Proof.
  revert k sh. induction ms as [|m ms IH]; intros k sh Hrun.
  - simpl in Hrun. simplify_eq. split_and!; try done.
  - rewrite imap_cons, for_each_cons, Nat.add_0_r in Hrun.
    destruct (fill_match_point sh (k, m)) as [sh1|] eqn:Hm; [|done].
    cbn [mbind option_bind] in Hrun.
    apply fill_match_point_Some in Hm as (Hlen1 & Hready1 & Hframe1 & Hat1).
    rewrite (imap_ext _ (λ i m, (S k + i, m))) in Hrun
      by (intros; simpl; f_equal; lia).
    apply IH in Hrun as (Hlen & Hready & Hframe & Hat). simpl.
    split_and!.
    + congruence.
    + intros [|i] m0 Hm0; simplify_eq/=.
      * by rewrite Nat.add_0_r.
      * specialize (Hready i m0 Hm0). unfold match_point_ready in *.
        rewrite Hlen1 in Hready. by replace (k + S i) with (S k + i) by lia.
    + intros j Hj. rewrite Hframe by lia. apply Hframe1. lia.
    + intros [|i] m0 l Hm0 Hl; simplify_eq/=.
      * rewrite Nat.add_0_r in *. destruct (Hat1 l Hl) as (l' & Hl' & Hadded).
        exists l'. split; [|done]. rewrite Hframe by lia. done.
      * replace (k + S i) with (S k + i) in * by lia.
        apply (Hat i m0 l Hm0). rewrite Hframe1 by lia. done.
Qed.

Lemma fill_loop_defined ms k sh :
  (∀ i m, ms !! i = Some m → match_point_ready sh (k + i) m) →
  is_Some (for_each fill_match_point (imap (λ i m, (k + i, m)) ms) sh).
Proof.
  revert k sh. induction ms as [|m ms IH]; intros k sh Hready;
    [by eexists|].
  rewrite imap_cons, for_each_cons, Nat.add_0_r.
  destruct (fill_match_point_defined sh k m) as [sh1 Hsh1].
  { specialize (Hready 0 m eq_refl). by rewrite Nat.add_0_r in Hready. }
  rewrite Hsh1. cbn [mbind option_bind].
  rewrite (imap_ext _ (λ i m, (S k + i, m))) by (intros; simpl; f_equal; lia).
  apply IH. intros i m0 Hm0. specialize (Hready (S i) m0 Hm0).
  apply fill_match_point_Some in Hsh1 as (Hlen1 & _).
  unfold match_point_ready in *. rewrite Hlen1.
  by replace (S k + i) with (k + S i) by lia.
Qed.

Lemma fill_match_points_osrm ms w :
  action (req_options w) = trace_route_action →
  format (req_options w) = osrm →
  fill_match_points ms w
  = match for_each fill_match_point (imap (λ i m, (0 + i, m)) ms)
            (shape (req_options w)) with
    | Some sh =>
        if (Z.of_nat (length ms) <=? INT_MAX)%Z
        then Done tt (set_options (set_shape sh (req_options w)) w)
        else Undefined
    | None => Undefined
    end.
Proof.
  intros Hact Hfmt. unfold fill_match_points. rewrite bind_unfold. simpl.
  rewrite bool_decide_true by done.
  rewrite (imap_ext _ (λ i m, (0 + i, m))) by done.
  rewrite bind_unfold. destruct (for_each _ _ _) as [sh|]; simpl; [|done].
  rewrite bind_unfold. by destruct (_ <=? _)%Z.
Qed.

Lemma fill_match_points_skipped ms w :
  action (req_options w) ≠ trace_route_action →
  fill_match_points ms w = Done tt w.
Proof.
  intros Hact. unfold fill_match_points. rewrite bind_unfold. simpl.
  rewrite bool_decide_false; [done|]. by intros [? _].
Qed.

End MatchPoints.

(** X15: for a trace_route request in the OSRM format, the filling of
    the match points (lines 189-216) returns when there are at most
    [INT_MAX] match results and every match on a valid edge has a shape
    location and a number of candidate edges for which the placeholder
    loop is defined.  When it returns, the shape location of every
    match on a valid edge has gained the path edge of the match
    (coordinates and edge names) followed by the placeholders; the
    locations of the other matches, the locations beyond the matches
    and every other option are as they were. *)
Theorem osrm_match_points `{Collaborators} ms w :
  action (req_options w) = trace_route_action →
  format (req_options w) = osrm →
  ((Z.of_nat (length ms) ≤ INT_MAX)%Z →
   (∀ i m, ms !! i = Some m → match_point_ready (shape (req_options w)) i m) →
   ∃ w', fill_match_points ms w = Done tt w') ∧
  (∀ w', fill_match_points ms w = Done tt w' →
     (∀ i m, ms !! i = Some m → match_point_ready (shape (req_options w)) i m) ∧
     length (shape (req_options w')) = length (shape (req_options w)) ∧
     (∀ i l, shape (req_options w) !! i = Some l →
        ∃ l', shape (req_options w') !! i = Some l' ∧
              match ms !! i with
              | Some m => match_point_added m l l'
              | None => l' = l
              end) ∧
     w' = set_options (set_shape (shape (req_options w')) (req_options w)) w).
Proof.
  intros Hact Hfmt. rewrite (fill_match_points_osrm ms w Hact Hfmt). split.
  - intros Hlen Hready.
    destruct (fill_loop_defined ms 0 (shape (req_options w)) Hready) as [sh ->].
    rewrite (proj2 (Z.leb_le _ _) Hlen). by eexists.
  - intros w' Hrun.
    destruct (for_each _ _ _) as [sh|] eqn:Hloop; [|done].
    destruct (_ <=? _)%Z; [|done]. injection Hrun as <-.
    apply fill_loop in Hloop as (Hlen & Hready & Hframe & Hat). simpl.
    split_and!; [done | done | | done].
    intros i l Hl. destruct (ms !! i) as [m|] eqn:Hm.
    + by apply (Hat i m l).
    + exists l. split; [|done]. rewrite Hframe; [done|].
      right. apply lookup_ge_None in Hm. simpl. lia.
Qed.

(** The instance of [osrm_match_points] for three trace points: a match
    with a state of three candidate edges, a match without state, a
    point that is not matched. *)
Lemma osrm_match_points_witness :
  ∃ w', fill_match_points (H := Fixture.osrm_env) Fixture.osrm_matches
          Fixture.osrm_request = Done tt w'.
Proof.
  apply (proj1 (osrm_match_points (H := Fixture.osrm_env) Fixture.osrm_matches
                  Fixture.osrm_request eq_refl eq_refl)).
  - vm_compute. discriminate.
  - intros [|[|[|i]]] m Hm; simplify_eq/=; intros Hvalid;
      (split; [simpl; lia|]); intros s Hs; simplify_eq/=.
    by eexists.
Defined.

(** The three trace points, run: three path edges for the match with
    three candidates, one for the match without state, none for the
    point that is not matched. *)
Example osrm_match_points_run :
  ∃ w', fill_match_points (H := Fixture.osrm_env) Fixture.osrm_matches
          Fixture.osrm_request = Done tt w' ∧
        (length ∘ loc_path_edges) <$> shape (req_options w') = [3; 1; 0].
Proof. eexists. split; vm_compute; reflexivity. Qed.

(** * The exceptions and the routes of [map_match] *)

Lemma no_throw_ret {A : Type} (a : A) : no_throw (mret a).
Proof. done. Qed.

Lemma no_throw_get : no_throw get_worker.
Proof. done. Qed.

Lemma no_throw_modify f : no_throw (modify f).
Proof. done. Qed.

Lemma no_throw_defined {A : Type} (o : option A) : no_throw (defined o).
Proof. intros w e w'. apply defined_not_Thrown. Qed.

Lemma no_throw_bind {A B : Type} (m : thor A) (f : A → thor B) :
  no_throw m → (∀ a, no_throw (f a)) → no_throw (m ≫= f).
Proof.
  intros Hm Hf w e w' [Hthrow|(a & w1 & _ & Hthrow)]%bind_Thrown.
  - by apply Hm in Hthrow.
  - by apply Hf in Hthrow.
Qed.

Lemma no_throw_for_eachM {S A : Type} (body : S → A → thor S) xs :
  (∀ s x, no_throw (body s x)) → ∀ s, no_throw (for_eachM body xs s).
Proof.
  intros Hbody. induction xs as [|x xs IH]; intros s; simpl.
  - apply no_throw_ret.
  - apply no_throw_bind; [apply Hbody | apply IH].
Qed.

Ltac no_throw_step :=
  match goal with
  | |- no_throw (_ ≫= _) => apply no_throw_bind
  | |- no_throw (mret _) => apply no_throw_ret
  | |- no_throw (defined _) => apply no_throw_defined
  | |- no_throw get_worker => apply no_throw_get
  | |- no_throw (modify _) => apply no_throw_modify
  | |- no_throw (for_eachM _ _ _) => apply no_throw_for_eachM
  | |- no_throw (match ?x with _ => _ end) => destruct x
  | |- no_throw (if ?x then _ else _) => destruct x
  | |- ∀ _, _ => intro
  end.

Lemma prefix_alter {A : Type} (f : A → A) (l1 l : list A) i :
  l1 `prefix_of` l → length l1 ≤ i → l1 `prefix_of` alter f i l.
Proof.
  intros [k ->] Hi. rewrite alter_app_r_alt by done. by apply prefix_app_r.
Qed.

Section MapMatchRuns.
Context `{Collaborators}.

Lemma build_route_no_throw paths ms : no_throw (build_route paths ms).
Proof.
  unfold build_route, route_path, print_path, stamp_route, read_shape,
    update_shape, add_route, add_leg.
  repeat no_throw_step.
Qed.

Lemma fill_match_points_no_throw ms : no_throw (fill_match_points ms).
Proof. unfold fill_match_points. repeat no_throw_step. Qed.

(** A turn of the loop of [map_match] that throws: at the top, for an
    interpretation without segment, or in [build_trace]. *)
Lemma match_one_Thrown kept r w e w' :
  match_one kept r w = Thrown e w' →
  w' = w ∧
  ((e = std_exception ∧ segments r = []) ∨
   (e = valhalla_exception_t 442 None ∧
    action (req_options w) = trace_attributes ∧
    MapMatcher_FormPath (results r) (segments r) (req_options w) = [])).
Proof.
  unfold match_one. destruct (segments r) as [|seg segs] eqn:Hsegs.
  { intros [= <- <-]. split; [done|]. by left. }
  rewrite <- Hsegs. rewrite bind_unfold. simpl. intros Hrun.
  apply bind_Thrown in Hrun as [Hfill|([] & w1 & Hfill & Hrun)];
    [by apply fill_match_points_no_throw in Hfill|].
  apply bind_Thrown in Hrun as [Hasm|(ms & w2 & _ & [=])].
  case_bool_decide as Hact.
  - rewrite fill_match_points_skipped in Hfill by (by rewrite Hact).
    injection Hfill as <-.
    apply build_trace_Thrown in Hasm as (Hpaths & -> & ->).
    split; [done|]. right. done.
  - apply bind_Thrown in Hasm as [Hasm|(? & ? & _ & [=])].
    by apply build_route_no_throw in Hasm.
Qed.

Lemma match_one_action kept r w :
  match match_one kept r w with
  | Done _ w' | Thrown _ w' => action (req_options w') = action (req_options w)
  | Undefined => True
  end.
Proof.
  apply (match_one_keeps (λ w, action (req_options w))); done.
Qed.

Lemma match_loop_Thrown interps kept w e w' :
  for_eachM match_one interps kept w = Thrown e w' →
  ∃ r, r ∈ interps ∧
    ((e = std_exception ∧ segments r = []) ∨
     (e = valhalla_exception_t 442 None ∧
      action (req_options w) = trace_attributes ∧
      MapMatcher_FormPath (results r) (segments r) (req_options w') = [])).
Proof.
  revert kept w. induction interps as [|r interps IH]; intros kept w Hrun;
    simpl in Hrun; [done|].
  apply bind_Thrown in Hrun as [Hr|(kept1 & w1 & Hr & Hrun)].
  - apply match_one_Thrown in Hr as [-> Hr]. exists r. split; [left|done].
  - pose proof (match_one_action kept r w) as Hact. rewrite Hr in Hact.
    destruct (IH _ _ Hrun) as (r' & Hin & Hr'). exists r'.
    split; [by right|]. by rewrite <- Hact.
Qed.

Lemma route_path_prefix ms vars p w vars' w' old :
  route_path ms vars p w = Done vars' w' →
  old `prefix_of` req_routes w →
  (∀ ro, route vars = Some ro → length old ≤ ro) →
  old `prefix_of` req_routes w' ∧
  (∀ ro, route vars' = Some ro → length old ≤ ro).
Proof.
  intros Hrun Hold Hro. apply route_path_Done in Hrun. cbv zeta in Hrun.
  destruct Hrun as (leg & Hroutes & _ & _ & _ & -> & _).
  pose proof (prefix_length _ _ Hold) as Hlen.
  assert (length old ≤ from_option id (length (req_routes w)) (route vars))
    as Hle.
  { destruct (route vars) as [ro|]; simpl; [by apply Hro | done]. }
  split.
  - rewrite Hroutes. apply prefix_alter; [|done].
    destruct (route vars); [done|]. by apply prefix_app_r.
  - simpl. intros ro. destruct (trailing_gap p); [done|]. by intros [= <-].
Qed.

Lemma route_paths_prefix ms ps vars w vars' w' old :
  for_eachM (route_path ms) ps vars w = Done vars' w' →
  old `prefix_of` req_routes w →
  (∀ ro, route vars = Some ro → length old ≤ ro) →
  old `prefix_of` req_routes w'.
Proof.
  revert vars w. induction ps as [|p ps IH]; intros vars w Hrun Hold Hro;
    simpl in Hrun.
  - by injection Hrun as <- <-.
  - apply bind_Done in Hrun as (vars1 & w1 & Hp & Hrun).
    destruct (route_path_prefix _ _ _ _ _ _ _ Hp Hold Hro) as [Hold1 Hro1].
    by eapply IH.
Qed.

(** [build_route] writes to the routes it opens only. *)
Lemma build_route_prefix paths ms w w' :
  build_route paths ms w = Done tt w' →
  req_routes w `prefix_of` req_routes w'.
Proof.
  unfold build_route. intros (vars & w1 & Hloop & [= <-])%bind_Done.
  by eapply route_paths_prefix.
Qed.

(** The routes after a turn of the loop of [map_match] that returns. *)
Lemma match_one_routes kept r w kept' w' :
  match_one kept r w = Done kept' w' →
  req_routes w `prefix_of` req_routes w' ∧
  (action (req_options w) = trace_attributes →
   cout w' = cout w ∧
   ∃ leg, req_routes w' = req_routes w ++ [[leg]] ∧
          is_Some (leg_discontinuities leg)).
Proof.
  unfold match_one. destruct (segments r) as [|seg segs] eqn:Hsegs; [done|].
  rewrite <- Hsegs. rewrite bind_unfold. simpl. intros Hrun.
  apply bind_Done in Hrun as ([] & w1 & Hfill & Hrun).
  apply bind_Done in Hrun as (ms & w2 & Hasm & [= <- <-]).
  pose proof (keeps_Done _ _ _ _ _
                (fill_match_points_keeps req_routes ltac:(done) _)
                Hfill) as Hroutes. unfold unchanged in Hroutes.
  case_bool_decide as Hact.
  - rewrite fill_match_points_skipped in Hfill by (by rewrite Hact).
    injection Hfill as <-.
    pose proof (keeps_Done _ _ _ _ _
                  (build_trace_keeps cout ltac:(done) ltac:(done) _ _) Hasm)
      as Hcout.
    apply build_trace_Done in Hasm as (st & leg & _ & _ & Hr & _ & Hrd).
    split; [rewrite Hr; by apply prefix_app_r|]. intros _.
    split; [done|]. exists leg. split; [done | by rewrite Hrd].
  - split; [|done]. apply bind_Done in Hasm as ([] & w3 & Hasm & [= <- <-]).
    apply build_route_prefix in Hasm. by rewrite <- Hroutes.
Qed.

Lemma match_loop_routes interps kept w :
  match for_eachM match_one interps kept w with
  | Done _ w' | Thrown _ w' => req_routes w `prefix_of` req_routes w'
  | Undefined => True
  end.
Proof.
  revert kept w. induction interps as [|r interps IH]; intros kept w; simpl;
    [done|].
  rewrite bind_unfold. destruct (match_one kept r w) as [kept1 w1|e w1|] eqn:Hr;
    [| |done].
  - apply match_one_routes in Hr as [Hr _]. specialize (IH kept1 w1).
    destruct (for_eachM _ _ _ _); [| |done]; by etrans.
  - by apply match_one_Thrown in Hr as [-> _].
Qed.

Lemma match_loop_trace interps kept w rs w' :
  action (req_options w) = trace_attributes →
  for_eachM match_one interps kept w = Done rs w' →
  cout w' = cout w ∧
  ∃ legs, req_routes w' = req_routes w ++ ((λ leg, [leg]) <$> legs) ∧
          length rs = length kept + length legs ∧
          Forall (λ leg, is_Some (leg_discontinuities leg)) legs.
Proof.
  revert kept w. induction interps as [|r interps IH]; intros kept w Hact Hrun;
    simpl in Hrun.
  - injection Hrun as <- <-. split; [done|]. exists []. simpl.
    rewrite app_nil_r. split_and!; [done | lia | done].
  - apply bind_Done in Hrun as (kept1 & w1 & Hr & Hrun).
    pose proof (match_one_action kept r w) as Hact1. rewrite Hr in Hact1.
    pose proof (match_one_Done _ _ _ _ _ Hr) as (_ & ms' & -> & _).
    apply match_one_routes in Hr as [_ Hr].
    destruct (Hr Hact) as (Hcout & leg & Hroutes & Hrd).
    rewrite Hact in Hact1.
    destruct (IH _ _ Hact1 Hrun) as (Hcout' & legs & Hroutes' & Hlen & Hall).
    split; [congruence|]. exists (leg :: legs). split_and!.
    + rewrite Hroutes', Hroutes, <- app_assoc. done.
    + rewrite Hlen, length_app. simpl. lia.
    + by constructor.
Qed.

End MapMatchRuns.

(** X16: [map_match] has two ways to throw (the matcher, the path
    repair and the leg builder are total functions here): with
    [std::exception], for a ranked interpretation without segment, and
    with error 442, out of [build_trace], for a trace_attributes request
    and an interpretation for which the path repair has returned no
    path. *)
Theorem map_match_errors `{Collaborators} w e w' :
  map_match w = Thrown e w' →
  ∃ r, r ∈ ranked_interpretations w ∧
    ((e = std_exception ∧ segments r = []) ∨
     (e = valhalla_exception_t 442 None ∧
      action (req_options w) = trace_attributes ∧
      MapMatcher_FormPath (results r) (segments r) (req_options w') = [])).
Proof.
  rewrite map_match_unfold. destruct (trace w); [done|].
  intros (r & Hr & Hcase)%match_loop_Thrown. exists r. split; [done|].
  destruct Hcase as [?|(? & Hact & ?)]; [by left | right].
  split_and!; done.
Qed.

(** The instance of [map_match_errors] for a best interpretation
    followed by one without segment. *)
Lemma map_match_errors_witness :
  ∃ e w',
    map_match (H := Fixture.no_path_env) Fixture.two_best_request
    = Thrown e w' ∧
    ∃ r, r ∈ ranked_interpretations (H := Fixture.no_path_env)
               Fixture.two_best_request ∧
      ((e = std_exception ∧ segments r = []) ∨
       (e = valhalla_exception_t 442 None ∧
        action (req_options Fixture.two_best_request) = trace_attributes ∧
        MapMatcher_FormPath (Collaborators := Fixture.no_path_env)
          (results r) (segments r) (req_options w') = [])).
Proof.
  eexists _, _. split; [vm_compute; reflexivity|].
  eapply (map_match_errors (H := Fixture.no_path_env)
            Fixture.two_best_request).
  vm_compute; reflexivity.
Defined.

(** X17: whether it returns or throws, [map_match] leaves the routes
    that were in the trip as they are, in front of those it appends;
    and it writes neither the warning log nor the admin log. *)
Theorem map_match_appends_routes `{Collaborators} w :
  match map_match w with
  | Done _ w' | Thrown _ w' =>
      req_routes w `prefix_of` req_routes w' ∧
      warn_log w' = warn_log w ∧ admin_log w' = admin_log w
  | Undefined => True
  end.
Proof.
  pose proof (map_match_keeps (λ w, (warn_log w, admin_log w))
                ltac:(done) ltac:(done) ltac:(done) ltac:(done) w) as Hframe.
  assert (match map_match w with
          | Done _ w' | Thrown _ w' => req_routes w `prefix_of` req_routes w'
          | Undefined => True
          end) as Hroutes.
  { rewrite map_match_unfold. destruct (trace w); [done|].
    apply (match_loop_routes _ _ (note_call MapMatch w)). }
  unfold unchanged in Hframe.
  destruct (map_match w); [| |done]; by simplify_eq.
Qed.

(** X18: for a trace_attributes request, a call of [map_match] that
    returns has appended one route per tuple it returns, in order, each
    of one leg that carries a discontinuity map; and it has written
    nothing to the standard output. *)
Theorem trace_attributes_routes `{Collaborators} w rs w' :
  action (req_options w) = trace_attributes →
  map_match w = Done rs w' →
  cout w' = cout w ∧
  ∃ legs, req_routes w' = req_routes w ++ ((λ leg, [leg]) <$> legs) ∧
          length legs = length rs ∧
          Forall (λ leg, is_Some (leg_discontinuities leg)) legs.
Proof.
  intros Hact. rewrite map_match_unfold. destruct (trace w).
  - intros [= <- <-]. split; [done|]. exists []. simpl. by rewrite app_nil_r.
  - intros (Hcout & legs & Hroutes & Hlen & Hall)%match_loop_trace; [|done].
    split; [done|]. exists legs. split_and!; [done | simpl in Hlen; lia | done].
Qed.

(** The instance of [trace_attributes_routes] for two ranked
    interpretations. *)
Lemma trace_attributes_routes_witness :
  ∃ rs w',
    map_match (H := Fixture.two_matches_env) Fixture.two_best_request
    = Done rs w' ∧
    cout w' = cout Fixture.two_best_request ∧
    ∃ legs,
      req_routes w'
      = req_routes Fixture.two_best_request ++ ((λ leg, [leg]) <$> legs) ∧
      length legs = length rs ∧
      Forall (λ leg, is_Some (leg_discontinuities leg)) legs.
Proof.
  eexists _, _. split; [vm_compute; reflexivity|].
  eapply (trace_attributes_routes (H := Fixture.two_matches_env)
            Fixture.two_best_request).
  - reflexivity.
  - vm_compute; reflexivity.
Defined.

(** * The shape locations across [build_route] *)

Section ShapeOfRoutes.
Context `{Collaborators}.

Lemma update_shapes_exact g (indices : list Z) w u w' :
  NoDup indices →
  for_eachM (λ _ i, update_shape i g) indices tt w = Done u w' →
  ∀ i, at_idx (shape (req_options w')) i
       = if decide (i ∈ indices) then g <$> at_idx (shape (req_options w)) i
         else at_idx (shape (req_options w)) i.
Proof.
  revert w. induction indices as [|i0 indices IH]; intros w Hnodup Hrun;
    simpl in Hrun.
  - injection Hrun as <- <-. intros i. rewrite decide_False; [done|].
    apply not_elem_of_nil.
  - apply list.NoDup_cons in Hnodup as [Hi0 Hnodup].
    apply bind_Done in Hrun as ([] & w1 & Hupd & Hrun).
    apply update_shape_Done in Hupd as (l0 & Hl0 & ->).
    assert (0 ≤ i0)%Z by (by apply at_idx_Some in Hl0 as [? _]).
    intros i. rewrite (IH _ Hnodup Hrun i). simpl.
    rewrite at_idx_set_idx by done.
    destruct (decide (i0 = i)) as [<-|Hne].
    + rewrite decide_False by done. rewrite decide_True by left.
      rewrite Hl0. done.
    + destruct (decide (i ∈ indices)) as [Hin|Hout].
      * rewrite decide_True by (by right). done.
      * rewrite decide_False; [done|]. intros [->|?]%elem_of_cons; done.
Qed.

Lemma stamp_route_exact r o d w u w' :
  stamp_route r o d w = Done u w' →
  ∀ i, at_idx (shape (req_options w')) i
       = if decide (o ≤ i ≤ d)%Z
         then marked r <$> at_idx (shape (req_options w)) i
         else at_idx (shape (req_options w)) i.
Proof.
  unfold stamp_route. intros Hrun.
  apply bind_Done in Hrun as ([] & w1 & Hloop & Hrun).
  assert (w' = w1) as ->.
  { destruct (_ && _); [done|]. by injection Hrun. }
  intros i. rewrite (update_shapes_exact _ _ _ _ _ (NoDup_seqZ _ _) Hloop i).
  destruct (decide (o ≤ i ≤ d)%Z) as [Hin|Hout].
  - rewrite decide_True; [done|]. apply elem_of_seqZ. lia.
  - rewrite decide_False; [done|]. rewrite elem_of_seqZ. lia.
Qed.

Lemma update_shape_exact i g w u w' :
  update_shape i g w = Done u w' →
  ∀ k, at_idx (shape (req_options w')) k
       = (if decide (i = k) then g else id) <$> at_idx (shape (req_options w)) k.
Proof.
  intros (l & Hl & ->)%update_shape_Done k. simpl.
  assert (0 ≤ i)%Z by (by apply at_idx_Some in Hl as [? _]).
  rewrite at_idx_set_idx by done. case_decide as Hik.
  - subst k. by rewrite Hl.
  - by rewrite option_fmap_id.
Qed.

Lemma read_shape_Done i w l w' :
  read_shape i w = Done l w' → w' = w.
Proof.
  unfold read_shape. intros (w0 & w1 & Hget & Hdef)%bind_Done.
  injection Hget as <- <-. by apply defined_Done in Hdef as [_ ->].
Qed.

Lemma add_route_options w r w' :
  add_route w = Done r w' → req_options w' = req_options w.
Proof.
  unfold add_route. intros (w0 & w1 & Hget & Hrun)%bind_Done.
  injection Hget as <- <-.
  apply bind_Done in Hrun as ([] & w2 & Hmod & Hret).
  injection Hmod as <-. by injection Hret as _ <-.
Qed.

Lemma add_leg_options r leg w u w' :
  add_leg r leg w = Done u w' → req_options w' = req_options w.
Proof.
  unfold add_leg. intros (w0 & w1 & Hget & Hrun)%bind_Done.
  injection Hget as <- <-.
  apply bind_Done in Hrun as (legs & w2 & [_ ->]%defined_Done & Hmod).
  destruct u. by injection Hmod as <-.
Qed.

(** A turn of the loop of [build_route], on the shape locations. *)
Lemma route_path_shape ms vars p w vars' w' :
  route_path ms vars p w = Done vars' w' →
  ∃ j mo md,
    ∀ i, at_idx (shape (req_options w')) i
         = route_path_location vars p j mo md i
             <$> at_idx (shape (req_options w)) i.
Proof.
  unfold route_path, print_path. intros Hrun.
  apply bind_Done in Hrun as ([] & w1 & [= <-] & Hrun).
  apply bind_Done in Hrun as ([ro j] & w2 & Hopen & Hrun).
  assert (req_options w2 = req_options w) as Hw2.
  { destruct (route vars).
    - by injection Hopen as <- <- <-.
    - apply bind_Done in Hopen as (r & w0 & Hadd%add_route_options & [= <- <- <-]).
      by rewrite Hadd. }
  apply bind_Done in Hrun as (fs & ? & [Hfs ->]%defined_Done & Hrun).
  apply bind_Done in Hrun as (ls & ? & [Hls ->]%defined_Done & Hrun).
  apply bind_Done in Hrun as ([] & w3 & Hstamp & Hrun).
  pose proof (stamp_route_exact _ _ _ _ _ _ Hstamp) as Hs. clear Hstamp.
  apply bind_Done in Hrun as (? & ? & ->%read_shape_Done & Hrun).
  apply bind_Done in Hrun as (? & ? & ->%read_shape_Done & Hrun).
  apply bind_Done in Hrun as ([] & w4 & H1 & Hrun).
  pose proof (update_shape_exact _ _ _ _ _ H1) as Hu1. clear H1.
  apply bind_Done in Hrun as (j' & ? & [Hj ->]%defined_Done & Hrun).
  apply int_succ_Some in Hj as [_ ->].
  apply bind_Done in Hrun as ([] & w5 & H2 & Hrun).
  pose proof (update_shape_exact _ _ _ _ _ H2) as Hu2. clear H2.
  apply bind_Done in Hrun as (mo & ? & [Hmo ->]%defined_Done & Hrun).
  apply bind_Done in Hrun as (md & ? & [Hmd ->]%defined_Done & Hrun).
  apply bind_Done in Hrun as ([] & w6 & H3 & Hrun).
  pose proof (update_shape_exact _ _ _ _ _ H3) as Hu3. clear H3.
  apply bind_Done in Hrun as ([] & w7 & H4 & Hrun).
  pose proof (update_shape_exact _ _ _ _ _ H4) as Hu4. clear H4.
  apply bind_Done in Hrun as (? & ? & ->%read_shape_Done & Hrun).
  apply bind_Done in Hrun as (? & ? & ->%read_shape_Done & Hrun).
  apply bind_Done in Hrun as ([] & w8 & Hleg%add_leg_options & Hrun).
  assert (w' = w8) as ->.
  { destruct (discontinuity ls).
    - by apply bind_Done in Hrun as (? & ? & [_ ->]%defined_Done & [= _ <-]).
    - by injection Hrun. }
  exists j, mo, md. intros i.
  rewrite Hleg, Hu4, Hu3, Hu2, Hu1, Hs, Hw2. simpl.
  unfold route_path_location, origin_idx, dest_idx.
  rewrite Hfs, Hls. simpl.
  destruct (at_idx (shape (req_options w)) i) as [l|]; simpl; [|by repeat case_decide].
  by repeat case_decide.
Qed.

End ShapeOfRoutes.

Lemma route_path_location_spec vars p j mo md i l :
  let l' := route_path_location vars p j mo md i l in
  loc_ll l' = loc_ll l ∧ loc_date_time l' = loc_date_time l ∧
  (¬ in_span p i → l' = l) ∧
  (¬ endpoint p i → loc_path_edges l' = loc_path_edges l) ∧
  (endpoint p i → length (loc_path_edges l') = 1) ∧
  ((origin_idx p < i < dest_idx p)%Z → l' = marked (route_index vars) l).
Proof.
  unfold route_path_location, in_span, endpoint, marked.
  repeat case_decide; split_and!; try done; try lia; intros; try lia;
    try (exfalso; naive_solver lia).
Qed.

Section ShapeOfRoutesLoop.
Context `{Collaborators}.

Lemma route_paths_shape ms ps w0 vars w :
  for_eachM (route_path ms) ps route_vars_init w0 = Done vars w →
  ∀ i l, at_idx (shape (req_options w0)) i = Some l →
    ∃ l', at_idx (shape (req_options w)) i = Some l' ∧
      loc_ll l' = loc_ll l ∧ loc_date_time l' = loc_date_time l ∧
      ((∀ p, p ∈ ps → ¬ in_span p i) → l' = l) ∧
      ((∀ p, p ∈ ps → ¬ endpoint p i) →
       loc_path_edges l' = loc_path_edges l) ∧
      ((∃ p, p ∈ ps ∧ endpoint p i) → length (loc_path_edges l') = 1) ∧
      (∀ k p, ps !! k = Some p → (origin_idx p < i < dest_idx p)%Z →
         (∀ q, q ∈ drop (S k) ps → ¬ in_span q i) →
         loc_shape_index l' = Some UINT32_MAX ∧
         loc_route_index l' = Some (N.of_nat (gaps (take k ps)))).
Proof.
  revert vars w. induction ps as [|p ps IH] using rev_ind; intros vars w Hrun i l Hl.
  - injection Hrun as <- <-. exists l. split_and!; try done.
    all: try (by intros (p & ?%elem_of_nil & _)).
    all: try (intros k p; by rewrite lookup_nil).
  - apply for_eachM_snoc in Hrun as (vars1 & w1 & Hps & Hp).
    destruct (IH _ _ Hps i l Hl) as (l1 & Hl1 & Hll & Hdt & Hout & Hpe & Hend & Hmid).
    pose proof (build_route_loop _ _ _ _ _ Hps) as ((Hri & _) & _).
    apply route_path_shape in Hp as (j & mo & md & Hshape).
    destruct (route_path_location_spec vars1 p j mo md i l1)
      as (Hll' & Hdt' & Hout' & Hpe' & Hend' & Hmid').
    exists (route_path_location vars1 p j mo md i l1).
    rewrite Hshape, Hl1. split_and!; try done; try congruence.
    + intros Hall. rewrite Hout', Hout; [done | |].
      * intros q Hq. apply Hall, elem_of_app. by left.
      * apply Hall, elem_of_app. right. by left.
    + intros Hall. rewrite Hpe', Hpe; [done | |].
      * intros q Hq. apply Hall, elem_of_app. by left.
      * apply Hall, elem_of_app. right. by left.
    + intros (q & Hq & Hqi). destruct (decide (endpoint p i)) as [Hpi|Hpi].
      { by apply Hend'. }
      rewrite Hpe' by done. apply Hend. exists q. split; [|done].
      apply elem_of_app in Hq as [?|Hq]; [done|].
      apply list_elem_of_singleton in Hq as ->. done.
    + intros k q Hk Hrange Hlater.
      destruct (decide (k < length ps)) as [Hlt|Hge].
      * rewrite lookup_app_l in Hk by done. rewrite take_app_le by lia.
        rewrite drop_app_le in Hlater by lia.
        rewrite Hout'.
        -- apply (Hmid k q Hk Hrange). intros q' Hq'.
           apply Hlater, elem_of_app. by left.
        -- apply Hlater, elem_of_app. right. by left.
      * assert (k = length ps) as ->.
        { apply lookup_lt_Some in Hk. rewrite length_app in Hk. simpl in Hk. lia. }
        rewrite list_lookup_middle in Hk by done. injection Hk as <-.
        rewrite take_app_length, Hmid' by done. unfold marked. simpl.
        rewrite Hri. split; [done|]. f_equal. lia.
Qed.

End ShapeOfRoutesLoop.

(** X19: what [build_route] does not touch.  It writes no option but
    the shape locations; it never changes the coordinates or the date
    and time of a shape location; a location outside the span of every
    path is as it was; the path edges of a location are replaced only
    where a path starts or ends, and there by exactly one path edge. *)
Theorem build_route_frame_on_shape `{Collaborators} paths ms w w' :
  build_route paths ms w = Done tt w' →
  req_options w' = set_shape (shape (req_options w')) (req_options w) ∧
  ∀ i l, at_idx (shape (req_options w)) i = Some l →
    ∃ l', at_idx (shape (req_options w')) i = Some l' ∧
      loc_ll l' = loc_ll l ∧ loc_date_time l' = loc_date_time l ∧
      ((∀ p, p ∈ paths → ¬ in_span p i) → l' = l) ∧
      ((∀ p, p ∈ paths → ¬ endpoint p i) →
       loc_path_edges l' = loc_path_edges l) ∧
      ((∃ p, p ∈ paths ∧ endpoint p i) → length (loc_path_edges l') = 1).
Proof.
  intros Hrun. split.
  - pose proof (keeps_Done _ _ _ _ _
                  (build_route_keeps (λ w, set_shape [] (req_options w))
                     ltac:(done) ltac:(done) ltac:(done) paths ms) Hrun) as Hopt.
    unfold unchanged in Hopt. destruct (req_options w'), (req_options w).
    by simplify_eq/=.
  - unfold build_route in Hrun.
    apply bind_Done in Hrun as (vars & w1 & Hloop & [= <-]).
    intros i l Hl.
    destruct (route_paths_shape _ _ _ _ _ Hloop i l Hl)
      as (l' & Hl' & Hll & Hdt & Hout & Hpe & Hend & _).
    exists l'. split_and!; done.
Qed.

(** The instance of [build_route_frame_on_shape] for three paths with a
    gap after the second. *)
Lemma build_route_frame_on_shape_witness :
  ∃ w',
    build_route (H := Fixture.env) Fixture.three_paths
      Fixture.three_paths_matches Fixture.route_request = Done tt w' ∧
    req_options w'
    = set_shape (shape (req_options w')) (req_options Fixture.route_request) ∧
    ∀ i l, at_idx (shape (req_options Fixture.route_request)) i = Some l →
      ∃ l', at_idx (shape (req_options w')) i = Some l' ∧
        loc_ll l' = loc_ll l ∧ loc_date_time l' = loc_date_time l ∧
        ((∀ p, p ∈ Fixture.three_paths → ¬ in_span p i) → l' = l) ∧
        ((∀ p, p ∈ Fixture.three_paths → ¬ endpoint p i) →
         loc_path_edges l' = loc_path_edges l) ∧
        ((∃ p, p ∈ Fixture.three_paths ∧ endpoint p i) →
         length (loc_path_edges l') = 1).
Proof.
  eexists. split; [vm_compute; reflexivity|].
  eapply (build_route_frame_on_shape (H := Fixture.env) Fixture.three_paths
            Fixture.three_paths_matches Fixture.route_request).
  vm_compute; reflexivity.
Defined.

(** X20: a shape location strictly between the origin and the
    destination of a path, and outside the span of every later path,
    is marked as no waypoint: after [build_route] its shape index is
    the largest [uint32_t] and its route index is that of its path, the
    number of flagged paths before it. *)
Theorem build_route_marks_inner_points `{Collaborators} paths ms w w' :
  build_route paths ms w = Done tt w' →
  ∀ k p i l,
    paths !! k = Some p →
    (origin_idx p < i < dest_idx p)%Z →
    (∀ q, q ∈ drop (S k) paths → ¬ in_span q i) →
    at_idx (shape (req_options w)) i = Some l →
    ∃ l', at_idx (shape (req_options w')) i = Some l' ∧
          loc_shape_index l' = Some UINT32_MAX ∧
          loc_route_index l' = Some (N.of_nat (gaps (take k paths))).
Proof.
  intros Hrun k p i l Hk Hrange Hlater Hl. unfold build_route in Hrun.
  apply bind_Done in Hrun as (vars & w1 & Hloop & [= <-]).
  destruct (route_paths_shape _ _ _ _ _ Hloop i l Hl)
    as (l' & Hl' & _ & _ & _ & _ & _ & Hmid).
  exists l'. split; [done|]. by apply (Hmid k p).
Qed.

(** The instance of [build_route_marks_inner_points] for trace point 3,
    between the ends of the second of the three paths. *)
Lemma build_route_marks_inner_points_witness :
  ∃ w',
    build_route (H := Fixture.env) Fixture.three_paths
      Fixture.three_paths_matches Fixture.route_request = Done tt w' ∧
    ∃ l', at_idx (shape (req_options w')) 3 = Some l' ∧
          loc_shape_index l' = Some UINT32_MAX ∧
          loc_route_index l'
          = Some (N.of_nat (gaps (take 1 Fixture.three_paths))).
Proof.
  eexists. split; [vm_compute; reflexivity|].
  eapply (build_route_marks_inner_points (H := Fixture.env) Fixture.three_paths
            Fixture.three_paths_matches Fixture.route_request _
            ltac:(vm_compute; reflexivity) 1
            ([Fixture.an_edge 2; Fixture.an_edge 3],
             [Fixture.a_segment 2 2 3 false; Fixture.a_segment 3 3 4 true])
            3 Fixture.a_location).
  - reflexivity.
  - unfold origin_idx, dest_idx. simpl. lia.
  - intros q Hq. simpl in Hq. apply list_elem_of_singleton in Hq as ->.
    unfold in_span, endpoint, origin_idx, dest_idx. simpl. lia.
  - reflexivity.
Defined.

(** * The legs of [build_route] *)

Lemma concat_alter_snoc {A : Type} (rs : list (list A)) i r x :
  rs !! i = Some r →
  length (concat (alter (λ l, l ++ [x]) i rs)) = S (length (concat rs)).
Proof.
  revert i. induction rs as [|r0 rs IH]; intros [|i] Hi; simplify_eq/=.
  - rewrite !length_app. simpl. lia.
  - rewrite !length_app. rewrite (IH i) by done. lia.
Qed.

Section LegsOfRoutes.
Context `{Collaborators}.

(** A turn of the loop of [build_route] adds one leg, to a route that
    is not among the first [n0] ones, and leaves no route empty. *)
Lemma route_path_legs ms vars p w vars' w' n0 :
  route_path ms vars p w = Done vars' w' →
  n0 ≤ length (req_routes w) →
  (∀ ro, route vars = Some ro → n0 ≤ ro) →
  Forall (λ r : TripRoute, r ≠ []) (drop n0 (req_routes w)) →
  length (concat (req_routes w')) = S (length (concat (req_routes w))) ∧
  n0 ≤ length (req_routes w') ∧
  (∀ ro, route vars' = Some ro → n0 ≤ ro) ∧
  Forall (λ r : TripRoute, r ≠ []) (drop n0 (req_routes w')).
Proof.
  intros Hrun Hlen Hro Hfull. apply route_path_Done in Hrun. cbv zeta in Hrun.
  destruct Hrun as (leg & Hroutes & Hopen & _ & _ & -> & _).
  destruct (route vars) as [ro|] eqn:Hroute; simpl in *.
  - destruct Hopen as [r Hr]; [by eexists|]. specialize (Hro ro eq_refl).
    rewrite Hroutes. split_and!.
    + by eapply concat_alter_snoc.
    + by rewrite length_alter.
    + intros ro'. destruct (trailing_gap p); [done|]. by intros [= <-].
    + apply list.Forall_forall. intros r' Hr'.
      apply list_elem_of_lookup in Hr' as [k Hk].
      rewrite lookup_drop in Hk.
      destruct (decide (n0 + k = ro)) as [<-|Hne].
      * rewrite list_lookup_alter_eq, Hr in Hk. simplify_eq/=.
        by destruct r.
      * rewrite list_lookup_alter_ne in Hk by done.
        rewrite list.Forall_forall in Hfull. apply Hfull.
        eapply list_elem_of_lookup_2. by rewrite lookup_drop.
  - rewrite alter_new_route in Hroutes. rewrite Hroutes. split_and!.
    + rewrite !concat_app, !length_app. simpl. lia.
    + rewrite length_app. simpl. lia.
    + intros ro'. destruct (trailing_gap p); [done|]. by intros [= <-].
    + rewrite drop_app_le by done. apply Forall_app. split; [done|].
      by repeat constructor.
Qed.

Lemma route_paths_legs ms ps vars w vars' w' n0 :
  for_eachM (route_path ms) ps vars w = Done vars' w' →
  n0 ≤ length (req_routes w) →
  (∀ ro, route vars = Some ro → n0 ≤ ro) →
  Forall (λ r : TripRoute, r ≠ []) (drop n0 (req_routes w)) →
  length (concat (req_routes w')) = length (concat (req_routes w)) + length ps ∧
  Forall (λ r : TripRoute, r ≠ []) (drop n0 (req_routes w')).
Proof.
  revert vars w. induction ps as [|p ps IH]; intros vars w Hrun Hlen Hro Hfull;
    simpl in Hrun.
  - injection Hrun as <- <-. split; [simpl; lia | done].
  - apply bind_Done in Hrun as (vars1 & w1 & Hp & Hrun).
    destruct (route_path_legs _ _ _ _ _ _ _ Hp Hlen Hro Hfull)
      as (Hlegs & Hlen1 & Hro1 & Hfull1).
    destruct (IH _ _ Hrun Hlen1 Hro1 Hfull1) as [Hlegs' Hfull'].
    split; [simpl; lia | done].
Qed.

End LegsOfRoutes.

(** X21: [build_route] appends routes behind those that were in the
    trip, which it leaves as they are; the routes it appends hold one
    leg per path, and none of them is empty. *)
Theorem build_route_one_leg_per_path `{Collaborators} paths ms w w' :
  build_route paths ms w = Done tt w' →
  ∃ new,
    req_routes w' = req_routes w ++ new ∧
    length (concat new) = length paths ∧
    Forall (λ r : TripRoute, r ≠ []) new.
Proof.
  intros Hrun. pose proof (build_route_prefix _ _ _ _ Hrun) as [new Hnew].
  exists new. split; [done|]. unfold build_route in Hrun.
  apply bind_Done in Hrun as (vars & w1 & Hloop & [= <-]).
  destruct (route_paths_legs _ _ _ _ _ _ (length (req_routes w)) Hloop)
    as [Hlegs Hfull]; [done | done | by rewrite drop_all |].
  rewrite Hnew in Hlegs, Hfull. rewrite drop_app_length in Hfull.
  split; [|done]. rewrite concat_app, length_app in Hlegs. lia.
Qed.

(** The instance of [build_route_one_leg_per_path] for the three
    paths. *)
Lemma build_route_one_leg_per_path_witness :
  ∃ w',
    build_route (H := Fixture.env) Fixture.three_paths
      Fixture.three_paths_matches Fixture.route_request = Done tt w' ∧
    ∃ new,
      req_routes w' = req_routes Fixture.route_request ++ new ∧
      length (concat new) = length Fixture.three_paths ∧
      Forall (λ r : TripRoute, r ≠ []) new.
Proof.
  eexists. split; [vm_compute; reflexivity|].
  eapply (build_route_one_leg_per_path (H := Fixture.env) Fixture.three_paths
            Fixture.three_paths_matches Fixture.route_request).
  vm_compute; reflexivity.
Defined.
